(** * fix_type_checker.py: the five-stage rewrite of type_checker.rs

    A shallow embedding of [fix_type_checker.py].  The script reads one file,
    threads its text through five functions that are sequences of
    [re.sub(pattern, repl, content)] calls, and writes the text back.

    The embedding has three layers:
    - texts and Python's character categories [\w], [\s], [\d];
    - the part of Python's [re] module the script relies on: the pattern
      syntax it uses, the backtracking matcher, replacement templates and
      the left-to-right, non-overlapping substitution loop of [re.sub];
    - the five stage functions and [main], written call by call as in the
      script, with the pattern and template strings of the source.

    A Python [str] is a sequence of code points.  Texts are modelled as lists
    of [ascii], one per code point, which covers every text whose code points
    are below 256 (in particular every ASCII text); the categories follow
    Python's Unicode classification on that range. *)

From Stdlib Require Import String Ascii Bool Arith Lia List.
Import ListNotations.

Local Open Scope char_scope.
Local Open Scope list_scope.
Local Open Scope nat_scope.

(* ================================================================== *)
(** ** Texts *)

Definition text := list ascii.

(** A string literal of the source as a text. *)
Definition T (s : string) : text := list_ascii_of_string s.

Definition newline : ascii := ascii_of_nat 10.

Definition code (c : ascii) : nat := nat_of_ascii c.

Definition between (lo hi n : nat) : bool := (lo <=? n) && (n <=? hi).

(** [str.isalnum() or c == '_'] for code points below 256: the category
    [\w] of a [str] pattern. *)
Definition is_word (c : ascii) : bool :=
  let n := code c in
  between 48 57 n || between 65 90 n || between 97 122 n || (n =? 95)
  || (n =? 170) || (n =? 178) || (n =? 179) || (n =? 181) || (n =? 185)
  || (n =? 186) || between 188 190 n || between 192 214 n
  || between 216 246 n || between 248 255 n.

(** [str.isspace()] for code points below 256: the category [\s]. *)
Definition is_space (c : ascii) : bool :=
  let n := code c in
  between 9 13 n || between 28 32 n || (n =? 133) || (n =? 160).

(** Decimal digits, the category [\d]. *)
Definition is_digit (c : ascii) : bool := between 48 57 (code c).

Definition is_ascii_alnum (c : ascii) : bool :=
  let n := code c in
  between 48 57 n || between 65 90 n || between 97 122 n.

(* ================================================================== *)
(** ** Regular expressions: the syntax tree of a compiled pattern *)

Inductive category := CatWord | CatSpace | CatDigit.

Inductive set_item :=
| SChar (c : ascii)
| SRange (lo hi : ascii)
| SCat (k : category).

(** What matches exactly one character: a literal, [.], or a set
    [[...]] / [[^...]] (a category escape outside a set is a one-item set). *)
Inductive charset :=
| One (c : ascii)
| Dot
| CsSet (negate : bool) (items : list set_item).

(** The patterns of the script repeat single characters only, so [Star] and
    [Plus] (both greedy) take a [charset]. *)
Inductive regex :=
| Eps
| Chr (cs : charset)
| Seq (r1 r2 : regex)
| Alt (r1 r2 : regex)
| Group (n : nat) (r : regex)
| Star (cs : charset)
| Plus (cs : charset).

Definition in_category (k : category) (c : ascii) : bool :=
  match k with
  | CatWord => is_word c
  | CatSpace => is_space c
  | CatDigit => is_digit c
  end.

Definition in_item (it : set_item) (c : ascii) : bool :=
  match it with
  | SChar a => Ascii.eqb a c
  | SRange lo hi => between (code lo) (code hi) (code c)
  | SCat k => in_category k c
  end.

Definition in_charset (cs : charset) (c : ascii) : bool :=
  match cs with
  | One a => Ascii.eqb a c
  | Dot => negb (Ascii.eqb c newline)
  | CsSet negate items => xorb negate (existsb (fun it => in_item it c) items)
  end.

(* ------------------------------------------------------------------ *)
(** *** Parsing a pattern string

    The subset of the pattern syntax that the script's nine patterns use:
    literals, backslash escapes, sets, capturing and [(?:...)] groups,
    alternation and the greedy [*] and [+] on a single character.  Anything
    else is refused ([None]), as is what [re] itself refuses. *)

Definition opt_bind {A B} (o : option A) (f : A -> option B) : option B :=
  match o with
  | Some a => f a
  | None => None
  end.

Notation "x <- c ;; k" := (opt_bind c (fun x => k))
  (at level 61, c at next level, right associativity).
Notation "' p <- c ;; k" := (opt_bind c (fun x => let 'p := x in k))
  (at level 61, p pattern, c at next level, right associativity).

(** A backslash escape outside a set. *)
Definition parse_escape (e : ascii) : option charset :=
  if Ascii.eqb e "w" then Some (CsSet false [SCat CatWord])
  else if Ascii.eqb e "s" then Some (CsSet false [SCat CatSpace])
  else if Ascii.eqb e "d" then Some (CsSet false [SCat CatDigit])
  else if Ascii.eqb e "n" then Some (One newline)
  else if Ascii.eqb e "t" then Some (One (ascii_of_nat 9))
  else if Ascii.eqb e "r" then Some (One (ascii_of_nat 13))
  else if is_ascii_alnum e then None
  else Some (One e).

(** A backslash escape inside a set. *)
Definition parse_set_escape (e : ascii) : option set_item :=
  match parse_escape e with
  | Some (One c) => Some (SChar c)
  | Some (CsSet false [it]) => Some it
  | _ => None
  end.

(** The items of a set, up to and including the closing bracket. *)
Fixpoint parse_set (s : text) : option (list set_item * text) :=
  match s with
  | [] => None
  | c :: s1 =>
    if Ascii.eqb c "]" then Some ([], s1)
    else if Ascii.eqb c "\" then
      match s1 with
      | e :: s2 =>
        it <- parse_set_escape e ;;
        '(its, r) <- parse_set s2 ;;
        Some (it :: its, r)
      | [] => None
      end
    else
      match s1 with
      | d :: h :: s3 =>
        if Ascii.eqb d "-" && negb (Ascii.eqb h "]") then
          if Ascii.eqb h "\" then None
          else '(its, r) <- parse_set s3 ;; Some (SRange c h :: its, r)
        else '(its, r) <- parse_set s1 ;; Some (SChar c :: its, r)
      | _ => '(its, r) <- parse_set s1 ;; Some (SChar c :: its, r)
      end
  end.

(** One single-character atom at the head of [s]. *)
Definition parse_atom (c : ascii) (s1 : text) : option (charset * text) :=
  if Ascii.eqb c "\" then
    match s1 with
    | e :: s2 => cs <- parse_escape e ;; Some (cs, s2)
    | [] => None
    end
  else if Ascii.eqb c "[" then
    match s1 with
    | h :: s2 =>
      if Ascii.eqb h "^" then
        '(its, r) <- parse_set s2 ;;
        match its with [] => None | _ => Some (CsSet true its, r) end
      else
        '(its, r) <- parse_set s1 ;;
        match its with [] => None | _ => Some (CsSet false its, r) end
    | [] => None
    end
  else if Ascii.eqb c "." then Some (Dot, s1)
  else if Ascii.eqb c "^" || Ascii.eqb c "$" || Ascii.eqb c "?"
          || Ascii.eqb c "*" || Ascii.eqb c "+" || Ascii.eqb c "{"
  then None
  else Some (One c, s1).

Definition is_quantifier (c : ascii) : bool :=
  Ascii.eqb c "*" || Ascii.eqb c "+" || Ascii.eqb c "?" || Ascii.eqb c "{".

Definition starts_with_quantifier (s : text) : bool :=
  match s with
  | c :: _ => is_quantifier c
  | [] => false
  end.

(** An atom with the quantifier that follows it, if any. *)
Definition quantified (cs : charset) (r : text) : option (regex * text) :=
  match r with
  | q :: r1 =>
    if Ascii.eqb q "*" then
      if starts_with_quantifier r1 then None else Some (Star cs, r1)
    else if Ascii.eqb q "+" then
      if starts_with_quantifier r1 then None else Some (Plus cs, r1)
    else if is_quantifier q then None
    else Some (Chr cs, r)
  | [] => Some (Chr cs, r)
  end.

Fixpoint alts (bs : list regex) : regex :=
  match bs with
  | [] => Eps
  | [b] => b
  | b :: bs' => Alt b (alts bs')
  end.

Definition seq_onto (r : regex) (bs : list regex) : list regex :=
  match bs with
  | [] => [r]
  | b :: bs' => Seq r b :: bs'
  end.

(** The branches of an alternation, up to the end of the pattern or to the
    parenthesis that closes the enclosing group.  [n] counts the capturing
    groups opened so far: a group is numbered when it opens. *)
Fixpoint parse_branches (fuel : nat) (s : text) (n : nat)
  : option (list regex * text * nat) :=
  match fuel with
  | 0 => None
  | S fuel' =>
    match s with
    | [] => Some ([Eps], [], n)
    | c :: s1 =>
      if Ascii.eqb c ")" then Some ([Eps], s, n)
      else if Ascii.eqb c "|" then
        '(bs, r, n1) <- parse_branches fuel' s1 n ;;
        Some (Eps :: bs, r, n1)
      else if Ascii.eqb c "(" then
        '(capturing, body) <-
          match s1 with
          | q :: s2 =>
            if Ascii.eqb q "?" then
              match s2 with
              | k :: s3 => if Ascii.eqb k ":" then Some (false, s3) else None
              | [] => None
              end
            else Some (true, s1)
          | [] => None
          end ;;
        let n0 := if capturing : bool then S n else n in
        '(bs, r, n1) <- parse_branches fuel' body n0 ;;
        match r with
        | p :: r1 =>
          if Ascii.eqb p ")" && negb (starts_with_quantifier r1) then
            '(cs, r2, n2) <- parse_branches fuel' r1 n1 ;;
            let g := if capturing then Group (S n) (alts bs) else alts bs in
            Some (seq_onto g cs, r2, n2)
          else None
        | [] => None
        end
      else
        '(cs, r) <- parse_atom c s1 ;;
        '(a, r1) <- quantified cs r ;;
        '(bs, r2, n1) <- parse_branches fuel' r1 n ;;
        Some (seq_onto a bs, r2, n1)
    end
  end.

(** [re.compile]: the syntax tree and the number of capturing groups. *)
Definition compile (pattern : string) : option (regex * nat) :=
  let s := T pattern in
  '(bs, r, n) <- parse_branches (S (length s)) s 0 ;;
  match r with
  | [] => Some (alts bs, n)
  | _ => None
  end.

(* ------------------------------------------------------------------ *)
(** *** The backtracking matcher *)

(** The text of each group that has matched, most recent first. *)
Definition captures := list (nat * text).

Fixpoint capture (g : captures) (n : nat) : option text :=
  match g with
  | [] => None
  | (m, t) :: g' => if m =? n then Some t else capture g' n
  end.

(** What was consumed between the input [s] and the rest [s']. *)
Definition consumed (s s' : text) : text :=
  firstn (length s - length s') s.

(** Greedy repetition: take the character if it is in the set and try the
    longer match first; fall back to stopping here. *)
Fixpoint match_star {A} (cs : charset) (s : text) (g : captures)
    (k : text -> captures -> option A) : option A :=
  match s with
  | c :: s' =>
    if in_charset cs c then
      match match_star cs s' g k with
      | Some x => Some x
      | None => k s g
      end
    else k s g
  | [] => k s g
  end.

(** [rmatch r s g k]: match [r] at the head of [s], then continue with [k]
    on the rest; alternatives are tried in priority order and the first
    success wins. *)
Fixpoint rmatch {A} (r : regex) (s : text) (g : captures)
    (k : text -> captures -> option A) : option A :=
  match r with
  | Eps => k s g
  | Chr cs =>
    match s with
    | c :: s' => if in_charset cs c then k s' g else None
    | [] => None
    end
  | Seq r1 r2 => rmatch r1 s g (fun s' g' => rmatch r2 s' g' k)
  | Alt r1 r2 =>
    match rmatch r1 s g k with
    | Some x => Some x
    | None => rmatch r2 s g k
    end
  | Group n r1 =>
    rmatch r1 s g (fun s' g' => k s' ((n, consumed s s') :: g'))
  | Star cs => match_star cs s g k
  | Plus cs =>
    match s with
    | c :: s' => if in_charset cs c then match_star cs s' g k else None
    | [] => None
    end
  end.

(** [pattern.match(s)]: the groups and the text after the match. *)
Definition re_match (r : regex) (s : text) : option (captures * text) :=
  rmatch r s [] (fun s' g => Some (g, s')).

(* ------------------------------------------------------------------ *)
(** *** Replacement templates *)

Inductive template_item :=
| TChar (c : ascii)
| TGroup (n : nat).

Definition template := list template_item.

Definition digit_value (c : ascii) : nat := code c - 48.

Definition starts_with_digit (s : text) : bool :=
  match s with
  | c :: _ => is_digit c
  | [] => false
  end.

(** [re]'s template syntax: [\1]..[\99] are group references (refused when
    the pattern has no such group), [\n], [\t], [\r] and [\\] are the usual
    escapes, every other escape of an ASCII letter or digit is refused, and a
    backslash before any other character stays as written. *)
Fixpoint parse_template (s : text) (ngroups : nat) : option template :=
  match s with
  | [] => Some []
  | c :: s1 =>
    if Ascii.eqb c "\" then
      match s1 with
      | [] => None
      | e :: s2 =>
        if is_digit e then
          if Ascii.eqb e "0" then None
          else
            match s2 with
            | e2 :: s3 =>
              if is_digit e2 then
                let n := 10 * digit_value e + digit_value e2 in
                if starts_with_digit s3 then None
                else if n <=? ngroups then
                  t <- parse_template s3 ngroups ;; Some (TGroup n :: t)
                else None
              else
                if digit_value e <=? ngroups then
                  t <- parse_template s2 ngroups ;;
                  Some (TGroup (digit_value e) :: t)
                else None
            | [] =>
              if digit_value e <=? ngroups then Some [TGroup (digit_value e)]
              else None
            end
        else if Ascii.eqb e "n" then
          t <- parse_template s2 ngroups ;; Some (TChar newline :: t)
        else if Ascii.eqb e "t" then
          t <- parse_template s2 ngroups ;; Some (TChar (ascii_of_nat 9) :: t)
        else if Ascii.eqb e "r" then
          t <- parse_template s2 ngroups ;; Some (TChar (ascii_of_nat 13) :: t)
        else if Ascii.eqb e "\" then
          t <- parse_template s2 ngroups ;; Some (TChar "\" :: t)
        else if is_ascii_alnum e then None
        else t <- parse_template s2 ngroups ;; Some (TChar "\" :: TChar e :: t)
      end
    else t <- parse_template s1 ngroups ;; Some (TChar c :: t)
  end.

(** A group that did not take part in the match expands to nothing. *)
Fixpoint expand (t : template) (g : captures) : text :=
  match t with
  | [] => []
  | TChar c :: t' => c :: expand t' g
  | TGroup n :: t' =>
    match capture g n with
    | Some x => x ++ expand t' g
    | None => expand t' g
    end
  end.

(* ------------------------------------------------------------------ *)
(** *** Substitution *)

(** The scan of [re.sub]: at each position the pattern is tried; a match is
    replaced by the expanded template and the scan resumes after it, or
    after one more character when the match was empty; where the pattern
    does not match, the character is copied.  [skip] counts the characters
    of the current match still to be passed over, which keeps the recursion
    structural. *)
Fixpoint sub_loop (r : regex) (t : template) (s : text) (skip : nat) : text :=
  match s with
  | [] =>
    match skip with
    | 0 =>
      match re_match r [] with
      | Some (g, _) => expand t g
      | None => []
      end
    | S _ => []
    end
  | c :: s' =>
    match skip with
    | S skip' => sub_loop r t s' skip'
    | 0 =>
      match re_match r s with
      | Some (g, rest) =>
        match length s - length rest with
        | 0 => expand t g ++ c :: sub_loop r t s' 0
        | S m => expand t g ++ sub_loop r t s' m
        end
      | None => c :: sub_loop r t s' 0
      end
    end
  end.

(** [re.sub(pattern, repl, content)]; [None] stands for the [re.error]
    raised on a pattern or a template that does not compile. *)
Definition re_sub (pattern repl : string) (content : text) : option text :=
  '(r, ngroups) <- compile pattern ;;
  t <- parse_template (T repl) ngroups ;;
  Some (sub_loop r t content 0).

(* ================================================================== *)
(** ** The script *)

Declare Scope io_scope.
Delimit Scope io_scope with io.

(** *** The five stages

    Each function is the sequence of [re.sub] calls of the source, with the
    source's pattern and replacement strings; the result is [None] if a call
    raises [re.error]. *)

(** Add lifetime parameter and interner/common fields to TypeChecker struct *)
Definition add_interner_to_struct (content : text) : option text :=
  (* Add lifetime parameter to struct definition *)
  content <- re_sub
    "pub struct TypeChecker \{"
    "pub struct TypeChecker<'a> {"
    content ;;
  (* Add interner and common fields after diagnostic_handler *)
  content <- re_sub
    "(    diagnostic_handler: Arc<dyn DiagnosticHandler>,\n)"
    "\1    interner: &'a crate::string_interner::StringInterner,\n    common: &'a crate::string_interner::CommonIdentifiers,\n"
    content ;;
  Some content.

Definition old_sig : string :=
  "pub fn new\(diagnostic_handler: Arc<dyn DiagnosticHandler>\) -> Self \{".

Definition new_sig : string :=
  "pub fn new(
        diagnostic_handler: Arc<dyn DiagnosticHandler>,
        interner: &'a crate::string_interner::StringInterner,
        common: &'a crate::string_interner::CommonIdentifiers,
    ) -> Self {".

(** Update TypeChecker::new to accept and store interner and common *)
Definition update_constructor (content : text) : option text :=
  (* Update constructor signature *)
  content <- re_sub old_sig new_sig content ;;
  (* Add interner and common to struct initialization *)
  content <- re_sub
    "(            diagnostic_handler,\n)(        \};)"
    "\1            interner,\n            common,\n\2"
    content ;;
  Some content.

(** Add missing interner parameters to Lexer::new and Parser::new calls *)
Definition fix_lexer_parser_calls (content : text) : option text :=
  (* Fix Lexer::new - add &self.interner as 3rd parameter *)
  content <- re_sub
    "Lexer::new\(([^,]+),\s*handler\.clone\(\)\)"
    "Lexer::new(\1, handler.clone(), &self.interner)"
    content ;;
  (* Fix Parser::new - add &self.interner and &self.common as 3rd and 4th
     parameters *)
  content <- re_sub
    "Parser::new\(([^,]+),\s*handler\.clone\(\)\)"
    "Parser::new(\1, handler.clone(), &self.interner, &self.common)"
    content ;;
  Some content.

(** Convert StringId .node.clone() to interner.resolve().to_string() *)
Definition fix_stringid_conversions (content : text) : option text :=
  (* Pattern 1: Multi-level node access with clone *)
  content <- re_sub
    "(\w+)\.(\w+)\.node\.clone\(\)"
    "self.interner.resolve(\1.\2.node).to_string()"
    content ;;
  (* Pattern 2: Single-level node access with clone *)
  content <- re_sub
    "(\w+)\.node\.clone\(\)"
    "self.interner.resolve(\1.node).to_string()"
    content ;;
  (* Pattern 3: self.symbol_table.lookup(&something.node) *)
  content <- re_sub
    "self\.symbol_table\.lookup\(&([a-z_]+\.(?:name|local|key)\.node)\)"
    "self.symbol_table.lookup(self.interner.resolve(\1))"
    content ;;
  (* Pattern 4: exports.add_named with bare identifier: nothing is done *)
  Some content.

(** Add lifetime parameter to impl TypeChecker block *)
Definition fix_impl_block (content : text) : option text :=
  content <- re_sub
    "impl TypeChecker \{"
    "impl<'a> TypeChecker<'a> {"
    content ;;
  Some content.

(* ------------------------------------------------------------------ *)
(** *** The driver

    [main] runs in a world made of the files it can open and the lines it has
    printed.  Opening a missing file for reading raises; so does a [re.error]
    of a stage.  An exception ends the run where it is raised. *)

Inductive exn :=
| FileNotFoundError (path : string)
| ReError.

Record world := World {
  files : string -> option text;
  stdout : list string
}.

Definition io (A : Type) : Type := world -> (exn + A) * world.

Definition io_ret {A} (a : A) : io A := fun w => (inr a, w).

Definition io_bind {A B} (c : io A) (k : A -> io B) : io B :=
  fun w =>
    match c w with
    | (inr a, w') => k a w'
    | (inl e, w') => (inl e, w')
    end.

Notation "x <- c ;; k" := (io_bind c (fun x => k))
  (at level 61, c at next level, right associativity) : io_scope.
Notation "c ;; k" := (io_bind c (fun _ => k))
  (at level 61, right associativity) : io_scope.

(** [with open(path, 'r') as f: f.read()] *)
Definition read_file (path : string) : io text :=
  fun w =>
    match files w path with
    | Some t => (inr t, w)
    | None => (inl (FileNotFoundError path), w)
    end.

(** [with open(path, 'w') as f: f.write(content)] *)
Definition write_file (path : string) (content : text) : io unit :=
  fun w =>
    (inr tt,
     World (fun p => if String.eqb p path then Some content else files w p)
           (stdout w)).

Definition print (line : string) : io unit :=
  fun w => (inr tt, World (files w) (stdout w ++ [line])).

(** A stage's [re.error] as an exception of the run. *)
Definition stage (r : option text) : io text :=
  fun w =>
    match r with
    | Some t => (inr t, w)
    | None => (inl ReError, w)
    end.

Definition input_file : string :=
  "crates/typedlua-core/src/typechecker/type_checker.rs".

Definition main : io unit :=
  ( (* Read the file *)
    content <- read_file input_file ;;
    (* Apply fixes in order *)
    print "Step 1: Adding lifetime and interner/common fields to TypeChecker struct..." ;;
    content <- stage (add_interner_to_struct content) ;;
    print "Step 2: Updating TypeChecker::new constructor..." ;;
    content <- stage (update_constructor content) ;;
    print "Step 3: Adding lifetime to impl block..." ;;
    content <- stage (fix_impl_block content) ;;
    print "Step 4: Adding interner parameters to Lexer::new and Parser::new..." ;;
    content <- stage (fix_lexer_parser_calls content) ;;
    print "Step 5: Converting StringId to String using interner.resolve()..." ;;
    content <- stage (fix_stringid_conversions content) ;;
    (* Write back *)
    write_file input_file content ;;
    print (String newline ("âœ“ Fixed " ++ input_file)) ;;
    print (String newline "Run 'cargo check -p typedlua-core' to verify fixes")
  )%io.

(** The pipeline as [main] applies it to the text it has read. *)
Definition pipeline_as_run (content : text) : option text :=
  content <- add_interner_to_struct content ;;
  content <- update_constructor content ;;
  content <- fix_impl_block content ;;
  content <- fix_lexer_parser_calls content ;;
  content <- fix_stringid_conversions content ;;
  Some content.

(* ================================================================== *)
(** ** Vocabulary of the statements *)

(** [s.startswith(p)] *)
Fixpoint prefixb (p s : text) : bool :=
  match p, s with
  | [], _ => true
  | a :: p', b :: s' => Ascii.eqb a b && prefixb p' s'
  | _ :: _, [] => false
  end.

(** [p in s] *)
Fixpoint occursb (p s : text) : bool :=
  prefixb p s ||
  match s with
  | [] => false
  | _ :: s' => occursb p s'
  end.

(** Whether [r] matches somewhere in [s]. *)
Fixpoint search (r : regex) (s : text) : bool :=
  match re_match r s with
  | Some _ => true
  | None =>
    match s with
    | [] => false
    | _ :: s' => search r s'
    end
  end.

(** [re.search(pattern, content) is not None] *)
Definition re_search (pattern : string) (content : text) : option bool :=
  '(r, _) <- compile pattern ;; Some (search r content).

(** The pattern occurs nowhere in the text. *)
Definition absent (pattern : string) (content : text) : Prop :=
  re_search pattern content = Some false.

(** [re.match(pattern, s) is not None]: the pattern matches at the head. *)
Definition fires (pattern : string) (s : text) : bool :=
  match compile pattern with
  | Some (r, _) => match re_match r s with Some _ => true | None => false end
  | None => false
  end.

(** The stages by name, with the patterns each one searches for. *)
Inductive stage_name :=
| AddInternerToStruct
| UpdateConstructor
| FixLexerParserCalls
| FixStringidConversions
| FixImplBlock.

Definition run_stage (st : stage_name) : text -> option text :=
  match st with
  | AddInternerToStruct => add_interner_to_struct
  | UpdateConstructor => update_constructor
  | FixLexerParserCalls => fix_lexer_parser_calls
  | FixStringidConversions => fix_stringid_conversions
  | FixImplBlock => fix_impl_block
  end.

Definition stage_patterns (st : stage_name) : list string :=
  match st with
  | AddInternerToStruct =>
    [ "pub struct TypeChecker \{";
      "(    diagnostic_handler: Arc<dyn DiagnosticHandler>,\n)" ]%string
  | UpdateConstructor =>
    [ old_sig;
      "(            diagnostic_handler,\n)(        \};)" ]%string
  | FixLexerParserCalls =>
    [ "Lexer::new\(([^,]+),\s*handler\.clone\(\)\)";
      "Parser::new\(([^,]+),\s*handler\.clone\(\)\)" ]%string
  | FixStringidConversions =>
    [ "(\w+)\.(\w+)\.node\.clone\(\)";
      "(\w+)\.node\.clone\(\)";
      "self\.symbol_table\.lookup\(&([a-z_]+\.(?:name|local|key)\.node)\)"
    ]%string
  | FixImplBlock => [ "impl TypeChecker \{" ]%string
  end.

(** The text begins with a call of the shape the call-site rules look for:
    the head, a nonempty first argument without comma, a comma, white space
    and [handler.clone())]. *)
Definition call_shape_at (head s : text) : Prop :=
  exists a ws rest,
    s = head ++ a ++ T "," ++ ws ++ T "handler.clone())" ++ rest /\
    a <> [] /\ forallb (fun c => negb (Ascii.eqb "," c)) a = true /\
    forallb is_space ws = true.

(** The lines [main] prints on a run that completes. *)
Definition progress_lines : list string :=
  [ "Step 1: Adding lifetime and interner/common fields to TypeChecker struct...";
    "Step 2: Updating TypeChecker::new constructor...";
    "Step 3: Adding lifetime to impl block...";
    "Step 4: Adding interner parameters to Lexer::new and Parser::new...";
    "Step 5: Converting StringId to String using interner.resolve()...";
    String newline ("âœ“ Fixed " ++ input_file);
    String newline "Run 'cargo check -p typedlua-core' to verify fixes"
  ]%string.

(** A world whose only file is the input file, with the given content. *)
Definition world_with (content : text) : world :=
  World (fun p => if String.eqb p input_file then Some content else None) [].

(** None of the stage's patterns occurs in the text. *)
Definition clean (st : stage_name) (content : text) : Prop :=
  Forall (fun p => absent p content) (stage_patterns st).

(** The composition in the order of the specification's sections 4.1 to 4.5,
    written from the specification's words, to compare with
    [pipeline_as_run]. *)
Definition pipeline_as_specified (content : text) : option text :=
  content <- run_stage AddInternerToStruct content ;;
  content <- run_stage UpdateConstructor content ;;
  content <- run_stage FixLexerParserCalls content ;;
  content <- run_stage FixStringidConversions content ;;
  content <- run_stage FixImplBlock content ;;
  Some content.

(* ================================================================== *)
(** ** Auxiliary definitions of the proofs *)

(** A rule seen from the scan: at the head of a text it either fails or
    yields the replacement and the text after the match. *)
Definition matcher := text -> option (text * text).

Definition rule_matcher (r : regex) (t : template) : matcher :=
  fun s =>
    match re_match r s with
    | Some (g, rest) => Some (expand t g, rest)
    | None => None
    end.

(** The same outcome with [z] appended to the input. *)
Definition extend (z : text) (o : option (text * text)) : option (text * text) :=
  match o with
  | Some (rp, rest) => Some (rp, rest ++ z)
  | None => None
  end.

(** A match always consumes at least one character. *)
Definition productive (m : matcher) : Prop :=
  forall s rp rest, m s = Some (rp, rest) ->
    exists c u, s = c :: u ++ rest.

(** [f] is the substitution scan of the rule [m]. *)
Definition scans (m : matcher) (f : text -> text) : Prop :=
  productive m /\
  f [] = [] /\
  (forall s rp rest, m s = Some (rp, rest) -> f s = rp ++ f rest) /\
  (forall c s, m (c :: s) = None -> f (c :: s) = c :: f s).

(** Matches that start in a nonempty tail of [x] are the same whether or not
    [z] follows. *)
Definition local (m : matcher) (x z : text) : Prop :=
  forall u t, x = u ++ t -> t <> [] -> m (t ++ z) = extend z (m t).

(** No match starts inside [mid] when [y] follows. *)
Definition inert (m : matcher) (mid y : text) : Prop :=
  forall u t, mid = u ++ t -> t <> [] -> m (t ++ y) = None.

(** The two texts differ at a position they both have. *)
Fixpoint clash (a b : text) : bool :=
  match a, b with
  | c :: a', d :: b' => if Ascii.eqb c d then clash a' b' else true
  | _, _ => false
  end.

(** The longest prefix whose characters satisfy [f], and the rest. *)
Fixpoint span (f : ascii -> bool) (s : text) : text * text :=
  match s with
  | c :: s' =>
    if f c then let '(w, r) := span f s' in (c :: w, r) else ([], s)
  | [] => ([], [])
  end.

(** [s] without the prefix [p], if it has it. *)
Fixpoint strip (p s : text) : option text :=
  match p, s with
  | [], _ => Some s
  | a :: p', b :: s' => if Ascii.eqb a b then strip p' s' else None
  | _ :: _, [] => None
  end.

(** The literal rule: replace [p] by [rp]. *)
Definition lit_matcher (p rp : text) : matcher :=
  fun s =>
    match strip p s with
    | Some rest => Some (rp, rest)
    | None => None
    end.

(** A chain of literal characters in front of [r]. *)
Fixpoint lits (l : text) (r : regex) : regex :=
  match l with
  | [] => r
  | c :: l' => Seq (Chr (One c)) (lits l' r)
  end.

(** No proper nonempty tail of [p] can begin a text that starts with [seg]:
    an occurrence of [p] cannot start before [seg] and run into it. *)
Definition no_straddle (p seg : text) : bool :=
  forallb (fun i => clash (skipn i p) seg) (seq 1 (length p - 1)).

(** No occurrence of [p] starts inside [mid]. *)
Definition untouched (p mid : text) : bool :=
  forallb (fun j => clash p (skipn j mid)) (seq 0 (length mid)).

(** [q] and [rp] cannot overlap: neither can start inside the other. *)
Definition apart (q rp : text) : bool :=
  untouched q rp && untouched rp q.

(** A pattern that cannot match the empty text. *)
Fixpoint nullable (r : regex) : bool :=
  match r with
  | Eps => true
  | Chr _ => false
  | Seq r1 r2 => nullable r1 && nullable r2
  | Alt r1 r2 => nullable r1 || nullable r2
  | Group _ r1 => nullable r1
  | Star _ => true
  | Plus _ => false
  end.

(** The call [re.sub(pattern, repl, _)] compiles and never matches the
    empty text. *)
Definition well_formed (pattern repl : string) : bool :=
  match compile pattern with
  | Some (r, n) =>
    match parse_template (T repl) n with
    | Some _ => negb (nullable r)
    | None => false
    end
  | None => false
  end.

(** The matcher of the call [re.sub(pattern, repl, _)]. *)
Definition matcher_of (pattern repl : string) : matcher :=
  match compile pattern with
  | Some (r, n) =>
    match parse_template (T repl) n with
    | Some t => rule_matcher r t
    | None => fun _ => None
    end
  | None => fun _ => None
  end.

(** The result of [re.sub(pattern, repl, s)] for a call that compiles. *)
Definition gsub (pattern repl : string) (s : text) : text :=
  match re_sub pattern repl s with
  | Some o => o
  | None => s
  end.

(** The texts the literal rules look for and put in place. *)
Definition struct_header : text := T "pub struct TypeChecker {".
Definition struct_header' : text := T "pub struct TypeChecker<'a> {".
Definition anchor_line : text :=
  T "    diagnostic_handler: Arc<dyn DiagnosticHandler>," ++ [newline].
Definition interner_line : text :=
  T "    interner: &'a crate::string_interner::StringInterner," ++ [newline].
Definition common_line : text :=
  T "    common: &'a crate::string_interner::CommonIdentifiers," ++ [newline].
Definition impl_header : text := T "impl TypeChecker {".
Definition impl_header' : text := T "impl<'a> TypeChecker<'a> {".

(** The nine calls of the script, by pattern and replacement. *)
Definition pat_struct : string := "pub struct TypeChecker \{".
Definition rep_struct : string := "pub struct TypeChecker<'a> {".
Definition pat_anchor : string :=
  "(    diagnostic_handler: Arc<dyn DiagnosticHandler>,\n)".
Definition rep_anchor : string :=
  "\1    interner: &'a crate::string_interner::StringInterner,\n    common: &'a crate::string_interner::CommonIdentifiers,\n".
Definition pat_init : string :=
  "(            diagnostic_handler,\n)(        \};)".
Definition rep_init : string :=
  "\1            interner,\n            common,\n\2".
Definition pat_lexer : string :=
  "Lexer::new\(([^,]+),\s*handler\.clone\(\)\)".
Definition rep_lexer : string :=
  "Lexer::new(\1, handler.clone(), &self.interner)".
Definition pat_parser : string :=
  "Parser::new\(([^,]+),\s*handler\.clone\(\)\)".
Definition rep_parser : string :=
  "Parser::new(\1, handler.clone(), &self.interner, &self.common)".
Definition pat_two : string := "(\w+)\.(\w+)\.node\.clone\(\)".
Definition rep_two : string :=
  "self.interner.resolve(\1.\2.node).to_string()".
Definition pat_one : string := "(\w+)\.node\.clone\(\)".
Definition rep_one : string := "self.interner.resolve(\1.node).to_string()".
Definition pat_lookup : string :=
  "self\.symbol_table\.lookup\(&([a-z_]+\.(?:name|local|key)\.node)\)".
Definition rep_lookup : string :=
  "self.symbol_table.lookup(self.interner.resolve(\1))".
Definition pat_impl : string := "impl TypeChecker \{".
Definition rep_impl : string := "impl<'a> TypeChecker<'a> {".

(** The character sets of the patterns, and their tests. *)
Definition word_cs : charset := CsSet false [SCat CatWord].
Definition space_cs : charset := CsSet false [SCat CatSpace].
Definition not_comma_cs : charset := CsSet true [SChar ","].
Definition lower_cs : charset := CsSet false [SRange "a" "z"; SChar "_"].

Definition not_comma (c : ascii) : bool := negb (Ascii.eqb "," c).
Definition is_lower_ (c : ascii) : bool :=
  between 97 122 (code c) || Ascii.eqb "_" c.

Definition dot_node_clone : text := T ".node.clone()".
Definition handler_clone_close : text := T "handler.clone())".
Definition lexer_head : text := T "Lexer::new(".
Definition lexer_tail : text := T ", handler.clone(), &self.interner)".
Definition parser_head : text := T "Parser::new(".
Definition parser_tail : text :=
  T ", handler.clone(), &self.interner, &self.common)".
Definition lookup_head : text := T "self.symbol_table.lookup(&".

(** The resolver call that replaces a cloned field chain. *)
Definition resolved (chain : text) : text :=
  T "self.interner.resolve(" ++ chain ++ T ".node).to_string()".

(** Deterministic readings of the patterns are built from four steps: a
    literal, a nonempty run of characters of a set, a possibly empty run, and
    the end of the pattern, which yields the replacement. *)
Definition lit (l : text) (k : matcher) : matcher :=
  fun s =>
    match strip l s with
    | Some s' => k s'
    | None => None
    end.

Definition some_of (f : ascii -> bool) (k : text -> matcher) : matcher :=
  fun s =>
    match span f s with
    | ([], _) => None
    | (a, s') => k a s'
    end.

Definition many_of (f : ascii -> bool) (k : matcher) : matcher :=
  fun s => k (snd (span f s)).

Definition done (rp : text) : matcher :=
  fun s => Some (rp, s).

(** The call-site rules read directly: the head, a nonempty stretch without
    comma, a comma, white space, and [handler.clone())]. *)
Definition call_matcher (head tail : text) : matcher :=
  lit head
    (some_of not_comma (fun a =>
       lit [","]
         (many_of is_space
            (lit handler_clone_close (done (head ++ a ++ tail)))))).

(** Pattern 1 read directly: two words joined by a dot, then
    [.node.clone()]. *)
Definition two_matcher : matcher :=
  some_of is_word (fun a =>
    lit ["."]
      (some_of is_word (fun b =>
         lit dot_node_clone (done (resolved (a ++ "." :: b)))))).

(** Pattern 2 read directly: one word, then [.node.clone()]. *)
Definition one_matcher : matcher :=
  some_of is_word (fun a => lit dot_node_clone (done (resolved a))).

Fixpoint text_eqb (a b : text) : bool :=
  match a, b with
  | [], [] => true
  | c :: a', d :: b' => Ascii.eqb c d && text_eqb a' b'
  | _, _ => false
  end.

(** The first of the literals [ls] that begins the text. *)
Fixpoint one_of (ls : list text) (k : text -> matcher) : matcher :=
  fun s =>
    match ls with
    | [] => None
    | l :: ls' =>
      match strip l s with
      | Some s' => k l s'
      | None => one_of ls' k s
      end
    end.

Definition lookup_fields : list text := [T "name"; T "local"; T "key"].

Definition lookup_resolved (arg : text) : text :=
  T "self.symbol_table.lookup(self.interner.resolve(" ++ arg ++ T "))".

(** Pattern 3 read directly: the lookup call on a reference to a lower-case
    name, a dot, one of three field names, and [.node]. *)
Definition lookup_matcher : matcher :=
  lit lookup_head
    (some_of is_lower_ (fun a =>
       lit ["."]
         (one_of lookup_fields (fun fld =>
            lit (T ".node)")
              (done (lookup_resolved (a ++ "." :: fld ++ T ".node"))))))).

Definition lookup_re : regex :=
  lits lookup_head
    (Seq
       (Group 1
          (Seq (Plus lower_cs)
             (lits ["."]
                (Seq
                   (Alt (lits (T "name") Eps)
                      (Alt (lits (T "local") Eps) (lits (T "key") Eps)))
                   (lits (T ".node") Eps)))))
       (lits [")"] Eps)).

(** Some call [head...] opened in [x] has no comma after it up to the end
    of [x]: what follows [x] would continue its first argument. *)
Fixpoint open_call (head x : text) : bool :=
  match x with
  | [] => false
  | _ :: x' =>
    match strip head x with
    | Some s => forallb not_comma s
    | None => false
    end || open_call head x'
  end.

(** Whether a matcher's outcome is a failure. *)
Definition fails (o : option (text * text)) : bool :=
  match o with
  | None => true
  | Some _ => false
  end.

(** Every tail of [l], from the [lo]-th on, fails to begin [z]. *)
Definition tails_miss (lo : nat) (l z : text) : bool :=
  forallb (fun i => match strip (skipn i l) z with None => true | _ => false end)
          (seq lo (length l - lo)).

(** The matcher treats what precedes [z] the same with or without [z]. *)
Definition loc0 (k : matcher) (z : text) : Prop :=
  forall t, k (t ++ z) = extend z (k t).

Definition locp (k : matcher) (z : text) : Prop :=
  forall t, t <> [] -> k (t ++ z) = extend z (k t).

(** The text does not end with a word character. *)
Definition ends_clear (x : text) : bool :=
  match rev x with
  | [] => true
  | c :: _ => negb (is_word c)
  end.

(** A nonempty run of word characters. *)
Definition is_ident (w : text) : bool :=
  match w with
  | [] => false
  | _ :: _ => forallb is_word w
  end.

(** The regular expressions these readings stand for. *)
Definition call_re (head : text) : regex :=
  lits head
    (Seq (Group 1 (Seq (Plus not_comma_cs) Eps))
       (lits [","] (Seq (Star space_cs) (lits handler_clone_close Eps)))).

Definition two_re : regex :=
  Seq (Group 1 (Seq (Plus word_cs) Eps))
    (lits ["."]
       (Seq (Group 2 (Seq (Plus word_cs) Eps)) (lits dot_node_clone Eps))).

Definition one_re : regex :=
  Seq (Group 1 (Seq (Plus word_cs) Eps)) (lits dot_node_clone Eps).

(** The rule [k'] sees a text rewritten by [f] as the rule [k] sees the
    text: it matches at the head of the one exactly when [k] matches at the
    head of the other, and replacement and rest are the rewritten ones. *)
Definition mirrors (f : text -> text) (k k' : matcher) : Prop :=
  forall s,
    k' (f s) = match k s with
               | Some (r, rest) => Some (f r, f rest)
               | None => None
               end.

(** The texts the constructor rules look for and put in place. *)
Definition sig_text : text :=
  T "pub fn new(diagnostic_handler: Arc<dyn DiagnosticHandler>) -> Self {".
Definition sig_text' : text := T new_sig.
Definition init_text : text :=
  T "            diagnostic_handler," ++ [newline] ++ T "        };".
Definition init_text' : text :=
  T "            diagnostic_handler," ++ [newline]
    ++ T "            interner," ++ [newline]
    ++ T "            common," ++ [newline] ++ T "        };".

(** The new signature around the line of its first parameter, which is the
    anchor line of the struct stage indented by four more spaces. *)
Definition sig_open : text := T "pub fn new(" ++ [newline] ++ T "    ".
Definition sig_rest : text :=
  T "        interner: &'a crate::string_interner::StringInterner,"
    ++ [newline]
    ++ T "        common: &'a crate::string_interner::CommonIdentifiers,"
    ++ [newline] ++ T "    ) -> Self {".

(** No match of the rule starts anywhere in the text. *)
Definition quiet (m : matcher) (s : text) : Prop :=
  forall u t, s = u ++ t -> m t = None.

(** The text begins with a lookup of the shape pattern 3 looks for: the
    call on a reference to a nonempty lower-case name, a dot, one of the
    three field names, and [.node)]. *)
Definition lookup_shape_at (s : text) : Prop :=
  exists a fld rest,
    s = lookup_head ++ a ++ T "." ++ fld ++ T ".node)" ++ rest /\
    a <> [] /\ forallb is_lower_ a = true /\ In fld lookup_fields.

(** Where [k] fails at the head of a text, [k'] fails at the head of the
    text rewritten by [f]. *)
Definition reflects (f : text -> text) (k k' : matcher) : Prop :=
  forall s, k s = None -> k' (f s) = None.

(** The text does not end with a word character or a dot. *)
Definition ends_free (x : text) : bool :=
  match rev x with
  | [] => true
  | c :: _ => negb (is_word c) && negb (Ascii.eqb "." c)
  end.

(** The anchor line with the two field lines the struct stage puts after
    it. *)
Definition anchor_block : text := anchor_line ++ interner_line ++ common_line.

(** The rules of the four stages after the struct stage, and the texts in
    which none of them matches anywhere. *)
Definition later_rules : list matcher :=
  [ lit_matcher sig_text sig_text';
    lit_matcher init_text init_text';
    lit_matcher impl_header impl_header';
    call_matcher lexer_head lexer_tail;
    call_matcher parser_head parser_tail;
    two_matcher;
    one_matcher;
    lookup_matcher ].

Definition settled (y : text) : Prop :=
  Forall (fun m => quiet m y) later_rules.

(** The characters of a list of bare identifiers: word characters, commas
    and white space. *)
Definition bare_char (c : ascii) : bool :=
  is_word c || Ascii.eqb "," c || is_space c.

(** An argument list of bare identifiers: an opening parenthesis, a word
    character, further word characters, commas and white space, and the
    closing parenthesis; [(name)] and [(name, symbol)] are such lists. *)
Definition bare_args (occ : text) : Prop :=
  exists c body,
    occ = "(" :: c :: body ++ [")"] /\
    is_word c = true /\ forallb bare_char body = true.

(** [q] leaves the characters of such a list before it meets a closing
    parenthesis: it ends inside no such list. *)
Definition clear_of_close (q : text) : bool :=
  match span bare_char q with
  | (_, e :: _) => negb (Ascii.eqb e ")")
  | (_, []) => false
  end.

(** [v] does not begin a text that goes on as such a list does after its
    opening parenthesis, and [v] does not begin such a list. *)
Definition misses_body (v : text) : bool :=
  match span bare_char v with
  | (_, []) => false
  | ([], _ :: _) => true
  | (_ :: _, e :: _) => negb (Ascii.eqb e ")")
  end.

Definition misses_args (v : text) : bool :=
  match v with
  | [] => false
  | e :: v' => if Ascii.eqb e "(" then misses_body v' else true
  end.

(** No tail of [l] begins such a list, and [l] ends inside none. *)
Definition avoids_args (l : text) : bool :=
  clear_of_close l &&
  forallb (fun i => misses_args (skipn i l)) (seq 0 (length l)).

(* ================================================================== *)
(** ** The matcher and the scan: general facts *)

Lemma match_star_sound {A} (cs : charset) (s : text) (g : captures)
    (k : text -> captures -> option A) (x : A) :
  match_star cs s g k = Some x ->
  exists u s', s = u ++ s' /\ k s' g = Some x.
Proof.
  induction s as [|c s IH]; simpl; intros H.
  - exists [], []. auto.
  - destruct (in_charset cs c).
    + destruct (match_star cs s g k) as [y|] eqn:E.
      * inversion H; subst. destruct (IH eq_refl) as (u & s' & -> & Hk).
        exists (c :: u), s'. auto.
      * exists [], (c :: s). auto.
    + exists [], (c :: s). auto.
Qed.

(** The continuation only ever sees a tail of the input, a proper one when
    the pattern is not nullable. *)
Lemma rmatch_sound {A} (r : regex) :
  forall (s : text) (g : captures) (k : text -> captures -> option A) (x : A),
    rmatch r s g k = Some x ->
    exists u s' g',
      s = u ++ s' /\ k s' g' = Some x /\ (nullable r = false -> u <> []).
Proof.
  induction r as [|cs|r1 IH1 r2 IH2|r1 IH1 r2 IH2|n r IH|cs|cs];
    simpl; intros s g k x H.
  - exists [], s, g. repeat split; auto. discriminate.
  - destruct s as [|c s]; [discriminate|].
    destruct (in_charset cs c); [|discriminate].
    exists [c], s, g. repeat split; auto. discriminate.
  - apply IH1 in H. destruct H as (u1 & s1 & g1 & -> & H & N1).
    apply IH2 in H. destruct H as (u2 & s2 & g2 & -> & H & N2).
    exists (u1 ++ u2), s2, g2. rewrite <- app_assoc. repeat split; auto.
    intros N E. apply app_eq_nil in E. destruct E as [E1 E2].
    apply andb_false_iff in N.
    destruct N as [N|N]; [exact (N1 N E1)|exact (N2 N E2)].
  - destruct (rmatch r1 s g k) as [y|] eqn:E.
    + inversion H; subst. apply IH1 in E.
      destruct E as (u & s' & g' & -> & Hk & N).
      exists u, s', g'. repeat split; auto.
      intros N'. apply orb_false_iff in N'. tauto.
    + apply IH2 in H. destruct H as (u & s' & g' & -> & Hk & N).
      exists u, s', g'. repeat split; auto.
      intros N'. apply orb_false_iff in N'. tauto.
  - apply IH in H. destruct H as (u & s' & g' & -> & H & N).
    exists u, s'. eexists. repeat split; [exact H|exact N].
  - apply match_star_sound in H. destruct H as (u & s' & -> & H).
    exists u, s', g. repeat split; auto. discriminate.
  - destruct s as [|c s]; [discriminate|].
    destruct (in_charset cs c); [|discriminate].
    apply match_star_sound in H. destruct H as (u & s' & -> & H).
    exists (c :: u), s', g. repeat split; auto. discriminate.
Qed.

Lemma re_match_suffix (r : regex) (s : text) (g : captures) (rest : text) :
  re_match r s = Some (g, rest) ->
  exists u, s = u ++ rest /\ (nullable r = false -> u <> []).
Proof.
  unfold re_match. intros H. apply rmatch_sound in H.
  destruct H as (u & s' & g' & -> & H & N). inversion H; subst. eauto.
Qed.

Lemma rule_productive (r : regex) (t : template) :
  nullable r = false -> productive (rule_matcher r t).
Proof.
  intros N s rp rest H. unfold rule_matcher in H.
  destruct (re_match r s) as [[g rest']|] eqn:E; [|discriminate].
  inversion H; subst. apply re_match_suffix in E.
  destruct E as (u & -> & Hu). destruct u as [|c u]; [now elim Hu|].
  exists c, u. reflexivity.
Qed.

Lemma sub_loop_skip (r : regex) (t : template) (u s : text) :
  sub_loop r t (u ++ s) (length u) = sub_loop r t s 0.
Proof.
  induction u as [|c u IH]; simpl; [reflexivity|exact IH].
Qed.

Lemma sub_loop_hit (r : regex) (t : template) (c : ascii) (u rest : text)
    (g : captures) :
  re_match r (c :: u ++ rest) = Some (g, rest) ->
  sub_loop r t (c :: u ++ rest) 0 = expand t g ++ sub_loop r t rest 0.
Proof.
  intros H. cbn [sub_loop]. rewrite H.
  replace (length (c :: u ++ rest) - length rest) with (S (length u))
    by (cbn [length]; rewrite length_app; lia).
  now rewrite sub_loop_skip.
Qed.

(** A compiled rule whose matches are never empty is scanned by
    [sub_loop]. *)
Lemma sub_loop_scans (r : regex) (t : template) :
  productive (rule_matcher r t) ->
  scans (rule_matcher r t) (fun s => sub_loop r t s 0).
Proof.
  intros Hp. unfold scans, rule_matcher. repeat split.
  - exact Hp.
  - cbn. destruct (re_match r []) as [[g rest]|] eqn:E; [|reflexivity].
    destruct (Hp [] (expand t g) rest) as (c & u & Hc).
    + unfold rule_matcher. now rewrite E.
    + discriminate.
  - intros s rp rest H.
    destruct (re_match r s) as [[g rest']|] eqn:E; [|discriminate].
    inversion H; subst rp rest'. clear H.
    destruct (Hp s (expand t g) rest) as (c & u & ->).
    + unfold rule_matcher. now rewrite E.
    + now apply sub_loop_hit.
  - intros c s H. cbn [sub_loop].
    destruct (re_match r (c :: s)) as [[g rest]|]; [discriminate|reflexivity].
Qed.

Lemma scans_ext (m m' : matcher) (f : text -> text) :
  (forall s, m s = m' s) -> scans m f -> scans m' f.
Proof.
  intros E (Hp & Hn & Hh & Hm). repeat split.
  - intros s rp rest H. rewrite <- E in H. eauto.
  - exact Hn.
  - intros s rp rest H. rewrite <- E in H. eauto.
  - intros c s H. rewrite <- E in H. eauto.
Qed.

Section Scan.

Variables (m : matcher) (f : text -> text).
Hypothesis Hscan : scans m f.

Lemma scan_productive : productive m.
Proof. exact (proj1 Hscan). Qed.

Lemma scan_nil : f [] = [].
Proof. exact (proj1 (proj2 Hscan)). Qed.

Lemma scan_hit (s rp rest : text) :
  m s = Some (rp, rest) -> f s = rp ++ f rest.
Proof. exact (proj1 (proj2 (proj2 Hscan)) s rp rest). Qed.

Lemma scan_miss (c : ascii) (s : text) :
  m (c :: s) = None -> f (c :: s) = c :: f s.
Proof. exact (proj2 (proj2 (proj2 Hscan)) c s). Qed.

(** Where the rule matches nowhere, the scan copies the text. *)
Lemma scan_id (s : text) :
  (forall u t, s = u ++ t -> m t = None) -> f s = s.
Proof.
  induction s as [|c s IH]; intros H.
  - apply scan_nil.
  - rewrite scan_miss by (apply (H []); reflexivity).
    f_equal. apply IH. intros u t ->. apply (H (c :: u)). reflexivity.
Qed.

Lemma local_tail (x z u t : text) :
  local m x z -> x = u ++ t -> local m t z.
Proof.
  intros H -> u' t' -> Ht. apply (H (u ++ u')); [|exact Ht].
  now rewrite app_assoc.
Qed.

(** The scan splits where no match straddles. *)
Lemma scan_app (x z : text) : local m x z -> f (x ++ z) = f x ++ f z.
Proof.
  remember (length x) as n eqn:Hn.
  revert x Hn. induction n as [n IH] using lt_wf_ind. intros x Hn Hloc.
  destruct x as [|c x]; [now rewrite scan_nil|].
  pose proof (Hloc [] (c :: x) eq_refl ltac:(discriminate)) as E.
  destruct (m (c :: x)) as [[rp rest]|] eqn:Em; cbn [extend] in E.
  - destruct (scan_productive _ _ _ Em) as (c0 & u & Hx).
    rewrite (scan_hit _ _ _ E), (scan_hit _ _ _ Em), <- app_assoc. f_equal.
    apply (IH (length rest)); [|reflexivity|].
    + subst n. rewrite Hx. cbn [length]. rewrite length_app. lia.
    + apply (local_tail _ _ (c0 :: u) rest Hloc). exact Hx.
  - change ((c :: x) ++ z) with (c :: x ++ z) in *.
    rewrite (scan_miss _ _ E), (scan_miss _ _ Em). cbn [app]. f_equal.
    apply (IH (length x)); [subst n; cbn; lia|reflexivity|].
    apply (local_tail _ _ [c] x Hloc). reflexivity.
Qed.

(** A stretch in which no match starts is copied. *)
Lemma scan_keep (mid y : text) : inert m mid y -> f (mid ++ y) = mid ++ f y.
Proof.
  induction mid as [|c mid IH]; intros H; [reflexivity|].
  cbn [app]. rewrite scan_miss.
  - f_equal. apply IH. intros u t -> Ht. apply (H (c :: u)); auto.
  - apply (H [] (c :: mid)); [reflexivity|discriminate].
Qed.

(** The scan splits in front of a match [z = seg ++ y] even when a match
    that starts earlier runs up to the end of [seg], provided that match
    copies its own text and ends with the same replacement. *)
Lemma scan_app_swallow (x z rp y : text) :
  m z = Some (rp, y) ->
  (forall u t, x = u ++ t -> t <> [] ->
     m (t ++ z) = extend z (m t) \/
     (m (t ++ z) = Some (t ++ rp, y) /\
      forall u' t', t = u' ++ t' -> m t' = None)) ->
  f (x ++ z) = f x ++ f z.
Proof.
  intros Hz.
  remember (length x) as n eqn:Hn.
  revert x Hn. induction n as [n IH] using lt_wf_ind. intros x Hn Hloc.
  destruct x as [|c x]; [now rewrite scan_nil|].
  destruct (Hloc [] (c :: x) eq_refl ltac:(discriminate)) as [E|[E Hno]].
  - destruct (m (c :: x)) as [[rp' rest]|] eqn:Em; cbn [extend] in E.
    + destruct (scan_productive _ _ _ Em) as (c0 & u & Hx).
      rewrite (scan_hit _ _ _ E), (scan_hit _ _ _ Em), <- app_assoc. f_equal.
      apply (IH (length rest)); [|reflexivity|].
      * subst n. rewrite Hx. cbn [length]. rewrite length_app. lia.
      * intros u' t' Hr Ht'. apply (Hloc ((c0 :: u) ++ u')); [|exact Ht'].
        rewrite Hx, Hr. now rewrite <- app_assoc.
    + change ((c :: x) ++ z) with (c :: x ++ z) in *.
      rewrite (scan_miss _ _ E), (scan_miss _ _ Em). cbn [app]. f_equal.
      apply (IH (length x)); [subst n; cbn; lia|reflexivity|].
      intros u' t' Hr Ht'. apply (Hloc (c :: u')); [|exact Ht'].
      now rewrite Hr.
  - rewrite (scan_hit _ _ _ E), (scan_hit _ _ _ Hz), (scan_id (c :: x) Hno).
    now rewrite <- app_assoc.
Qed.

End Scan.

(* ------------------------------------------------------------------ *)
(** *** Prefixes and clashes *)

Lemma strip_app (p s : text) : strip p (p ++ s) = Some s.
Proof.
  induction p as [|a p IH]; cbn; [reflexivity|].
  now rewrite Ascii.eqb_refl.
Qed.

Lemma strip_Some (p s r : text) : strip p s = Some r -> s = p ++ r.
Proof.
  revert s. induction p as [|a p IH]; intros s H; cbn in H.
  - now inversion H.
  - destruct s as [|b s]; [discriminate|].
    destruct (Ascii.eqb_spec a b); [|discriminate].
    subst b. cbn. f_equal. now apply IH.
Qed.

Lemma strip_app_Some (p t z r : text) :
  strip p t = Some r -> strip p (t ++ z) = Some (r ++ z).
Proof.
  intros H. apply strip_Some in H. subst t.
  rewrite <- app_assoc. apply strip_app.
Qed.

(** If [p] begins [t ++ z] but not [t], then [t] is a proper prefix of [p]
    and the remainder of [p] begins [z]. *)
Lemma strip_app_None (p t z r : text) :
  strip p t = None -> strip p (t ++ z) = Some r ->
  exists v, v <> [] /\ p = t ++ v /\ strip v z = Some r.
Proof.
  revert t. induction p as [|a p IH]; intros t Hn Hs; cbn in Hn.
  - discriminate.
  - destruct t as [|b t].
    + exists (a :: p). repeat split; [discriminate|exact Hs].
    + cbn in Hs. destruct (Ascii.eqb_spec a b); [|discriminate].
      subst b. destruct (IH t Hn Hs) as (v & Hv & -> & Hz).
      exists v. auto.
Qed.

Lemma clash_strip (a b y : text) : clash a b = true -> strip a (b ++ y) = None.
Proof.
  revert b. induction a as [|c a IH]; intros b H; [discriminate|].
  destruct b as [|d b]; [discriminate|].
  cbn in *. destruct (Ascii.eqb c d); [now apply IH|reflexivity].
Qed.

Lemma clash_sym (a b : text) : clash a b = clash b a.
Proof.
  revert b. induction a as [|c a IH]; intros [|d b]; cbn; try reflexivity.
  rewrite (Ascii.eqb_sym c d). now rewrite IH.
Qed.

(** Two literals that clash cannot both begin a text. *)
Lemma clash_excl (a b s r : text) :
  clash a b = true -> strip a s = Some r -> strip b s = None.
Proof.
  intros H E. apply strip_Some in E. subst s.
  apply clash_strip. now rewrite clash_sym.
Qed.

Lemma forallb_seq (P : nat -> bool) (lo n i : nat) :
  forallb P (seq lo n) = true -> lo <= i < lo + n -> P i = true.
Proof.
  intros H Hi. rewrite forallb_forall in H. apply H. apply in_seq. lia.
Qed.

Lemma skipn_app_length (u t : text) : skipn (length u) (u ++ t) = t.
Proof.
  induction u; cbn; auto.
Qed.

(* ------------------------------------------------------------------ *)
(** *** Literal rules *)

Section Literal.

Variables (p rp : text).

Lemma lit_hit (y : text) : lit_matcher p rp (p ++ y) = Some (rp, y).
Proof. unfold lit_matcher. now rewrite strip_app. Qed.

(** An occurrence of [p] cannot begin before [seg] and end inside or
    after it. *)
Lemma lit_local (x seg y : text) :
  no_straddle p seg = true -> local (lit_matcher p rp) x (seg ++ y).
Proof.
  intros Hs u t _ Ht. unfold lit_matcher.
  destruct (strip p t) as [r|] eqn:E.
  - now rewrite (strip_app_Some _ _ _ _ E).
  - destruct (strip p (t ++ seg ++ y)) as [r|] eqn:E'; [|reflexivity].
    exfalso. destruct (strip_app_None _ _ _ _ E E') as (v & Hv & Hp & Hz).
    assert (Hc : clash (skipn (length t) p) seg = true).
    { apply (forallb_seq _ _ _ _ Hs). subst p. rewrite length_app.
      destruct t; [contradiction|]. destruct v; [contradiction|].
      cbn [length]. lia. }
    subst p. rewrite skipn_app_length in Hc.
    rewrite (clash_strip _ _ y Hc) in Hz. discriminate.
Qed.

(** No occurrence of [p] begins inside [mid]. *)
Lemma lit_inert (mid y : text) :
  untouched p mid = true -> inert (lit_matcher p rp) mid y.
Proof.
  intros Hu u t -> Ht. unfold lit_matcher.
  assert (Hc : clash p (skipn (length u) (u ++ t)) = true).
  { apply (forallb_seq _ _ _ _ Hu). rewrite length_app.
    destruct t; [contradiction|]. cbn [length]. lia. }
  rewrite skipn_app_length in Hc. now rewrite (clash_strip _ _ y Hc).
Qed.

Variable f : text -> text.
Hypothesis Hscan : scans (lit_matcher p rp) f.

(** The text [mid] stands between two independently rewritten parts. *)
Lemma lit_frame (x mid y : text) :
  no_straddle p mid = true -> untouched p mid = true ->
  f (x ++ mid ++ y) = f x ++ mid ++ f y.
Proof.
  intros Hs Hu.
  rewrite (scan_app _ _ Hscan) by now apply lit_local.
  now rewrite (scan_keep _ _ Hscan) by now apply lit_inert.
Qed.

(** Every occurrence of a pattern that cannot overlap itself is
    replaced. *)
Lemma lit_replace (x y : text) :
  no_straddle p p = true ->
  f (x ++ p ++ y) = f x ++ rp ++ f y.
Proof.
  intros Hs.
  rewrite (scan_app _ _ Hscan) by now apply lit_local.
  now rewrite (scan_hit _ _ Hscan _ _ _ (lit_hit y)).
Qed.

End Literal.

(* ------------------------------------------------------------------ *)
(** *** From a call of [re.sub] to its scan *)

Lemma well_formed_inv (pattern repl : string) :
  well_formed pattern repl = true ->
  exists r n t,
    compile pattern = Some (r, n) /\
    parse_template (T repl) n = Some t /\
    nullable r = false.
Proof.
  unfold well_formed. intros H.
  destruct (compile pattern) as [[r n]|]; [|discriminate].
  destruct (parse_template (T repl) n) as [t|] eqn:Et; [|discriminate].
  exists r, n, t. split; [reflexivity|]. split; [exact Et|].
  now apply negb_true_iff.
Qed.

(** A well-formed call never raises. *)
Lemma re_sub_gsub (pattern repl : string) (s : text) :
  well_formed pattern repl = true ->
  re_sub pattern repl s = Some (gsub pattern repl s).
Proof.
  intros H. destruct (well_formed_inv _ _ H) as (r & n & t & Hc & Ht & _).
  unfold gsub, re_sub. rewrite Hc. cbn. rewrite Ht. reflexivity.
Qed.

Lemma gsub_scans (pattern repl : string) :
  well_formed pattern repl = true ->
  scans (matcher_of pattern repl) (gsub pattern repl).
Proof.
  intros H. destruct (well_formed_inv _ _ H) as (r & n & t & Hc & Ht & N).
  unfold matcher_of. rewrite Hc, Ht.
  assert (E : forall s, gsub pattern repl s = sub_loop r t s 0).
  { intros s. unfold gsub, re_sub. rewrite Hc. cbn. now rewrite Ht. }
  destruct (sub_loop_scans r t (rule_productive r t N)) as (P & Hn & Hh & Hm).
  repeat split; auto.
  - now rewrite E.
  - intros s rp rest Hs. rewrite !E. auto.
  - intros c s Hs. rewrite !E. auto.
Qed.

Lemma search_false (r : regex) (s u t : text) :
  search r s = false -> s = u ++ t -> re_match r t = None.
Proof.
  revert s. induction u as [|c u IH]; intros s H ->.
  - destruct t; cbn in H; destruct (re_match r _); auto; discriminate.
  - cbn [app search] in H.
    destruct (re_match r (c :: u ++ t)); [discriminate|].
    eapply IH; eauto.
Qed.

(** A call whose pattern occurs nowhere returns the text unchanged. *)
Lemma gsub_absent (pattern repl : string) (s : text) :
  well_formed pattern repl = true ->
  absent pattern s -> gsub pattern repl s = s.
Proof.
  intros H Ha. apply (scan_id _ _ (gsub_scans _ _ H)).
  destruct (well_formed_inv _ _ H) as (r & n & t & Hc & Ht & N).
  intros u v ->. unfold matcher_of, rule_matcher. rewrite Hc, Ht.
  unfold absent, re_search in Ha. rewrite Hc in Ha. cbn in Ha.
  inversion Ha as [Hs]. now rewrite (search_false _ _ _ _ Hs eq_refl).
Qed.

(* ------------------------------------------------------------------ *)
(** *** The literal patterns as literal rules *)

Lemma rmatch_lits {A} (l : text) (r : regex) (s : text) (g : captures)
    (k : text -> captures -> option A) :
  rmatch (lits l r) s g k =
  match strip l s with
  | Some s' => rmatch r s' g k
  | None => None
  end.
Proof.
  revert s. induction l as [|c l IH]; intros s; cbn; [reflexivity|].
  destruct s as [|d s]; [reflexivity|].
  destruct (Ascii.eqb c d); [apply IH|reflexivity].
Qed.

Lemma consumed_app (l s : text) : consumed (l ++ s) s = l.
Proof.
  unfold consumed. rewrite length_app.
  replace (length l + length s - length s) with (length l) by lia.
  rewrite firstn_app, firstn_all, Nat.sub_diag. cbn. apply app_nil_r.
Qed.

Lemma expand_chars (l : text) (g : captures) : expand (map TChar l) g = l.
Proof.
  induction l as [|c l IH]; cbn; [reflexivity|now rewrite IH].
Qed.

Lemma expand_app (t1 t2 : template) (g : captures) :
  expand (t1 ++ t2) g = expand t1 g ++ expand t2 g.
Proof.
  induction t1 as [|[c|n] t1 IH]; cbn; [reflexivity|now rewrite IH|].
  destruct (capture g n); rewrite IH; [now rewrite app_assoc|reflexivity].
Qed.

(** [re.sub(r'pub struct TypeChecker \{', "pub struct TypeChecker<'a> {", _)]
    replaces the literal header. *)
Lemma struct_rule (s : text) :
  matcher_of pat_struct rep_struct s =
  lit_matcher struct_header struct_header' s.
Proof.
  assert (Hc : compile pat_struct = Some (lits struct_header Eps, 0))
    by (vm_compute; reflexivity).
  assert (Ht : parse_template (T rep_struct) 0
               = Some (map TChar struct_header'))
    by (vm_compute; reflexivity).
  unfold matcher_of. rewrite Hc, Ht.
  unfold rule_matcher, re_match, lit_matcher. rewrite rmatch_lits.
  destruct (strip struct_header s); [|reflexivity].
  cbn [rmatch]. now rewrite expand_chars.
Qed.

Lemma impl_rule (s : text) :
  matcher_of pat_impl rep_impl s = lit_matcher impl_header impl_header' s.
Proof.
  assert (Hc : compile pat_impl = Some (lits impl_header Eps, 0))
    by (vm_compute; reflexivity).
  assert (Ht : parse_template (T rep_impl) 0 = Some (map TChar impl_header'))
    by (vm_compute; reflexivity).
  unfold matcher_of. rewrite Hc, Ht.
  unfold rule_matcher, re_match, lit_matcher. rewrite rmatch_lits.
  destruct (strip impl_header s); [|reflexivity].
  cbn [rmatch]. now rewrite expand_chars.
Qed.

(** The anchor rule keeps the anchor line (group 1) and appends the two
    field lines. *)
Lemma anchor_rule (s : text) :
  matcher_of pat_anchor rep_anchor s =
  lit_matcher anchor_line (anchor_line ++ interner_line ++ common_line) s.
Proof.
  assert (Hc : compile pat_anchor
               = Some (Seq (Group 1 (lits anchor_line Eps)) Eps, 1))
    by (vm_compute; reflexivity).
  assert (Ht : parse_template (T rep_anchor) 1
               = Some (TGroup 1 :: map TChar (interner_line ++ common_line)))
    by (vm_compute; reflexivity).
  unfold matcher_of. rewrite Hc, Ht.
  unfold rule_matcher, re_match, lit_matcher.
  cbn [rmatch]. rewrite rmatch_lits.
  destruct (strip anchor_line s) as [s'|] eqn:E; [|reflexivity].
  apply strip_Some in E. subst s. cbn [rmatch]. rewrite consumed_app.
  cbn [expand capture Nat.eqb]. now rewrite expand_chars.
Qed.

Lemma wf_struct : well_formed pat_struct rep_struct = true.
Proof. vm_compute. reflexivity. Qed.
Lemma wf_anchor : well_formed pat_anchor rep_anchor = true.
Proof. vm_compute. reflexivity. Qed.
Lemma wf_sig : well_formed old_sig new_sig = true.
Proof. vm_compute. reflexivity. Qed.
Lemma wf_init : well_formed pat_init rep_init = true.
Proof. vm_compute. reflexivity. Qed.
Lemma wf_lexer : well_formed pat_lexer rep_lexer = true.
Proof. vm_compute. reflexivity. Qed.
Lemma wf_parser : well_formed pat_parser rep_parser = true.
Proof. vm_compute. reflexivity. Qed.
Lemma wf_two : well_formed pat_two rep_two = true.
Proof. vm_compute. reflexivity. Qed.
Lemma wf_one : well_formed pat_one rep_one = true.
Proof. vm_compute. reflexivity. Qed.
Lemma wf_lookup : well_formed pat_lookup rep_lookup = true.
Proof. vm_compute. reflexivity. Qed.
Lemma wf_impl : well_formed pat_impl rep_impl = true.
Proof. vm_compute. reflexivity. Qed.

(** The stages as compositions of their scans: no stage raises. *)
Lemma add_interner_to_struct_eq (s : text) :
  add_interner_to_struct s =
  Some (gsub pat_anchor rep_anchor (gsub pat_struct rep_struct s)).
Proof.
  unfold add_interner_to_struct.
  change (re_sub "pub struct TypeChecker \{" "pub struct TypeChecker<'a> {" s)
    with (re_sub pat_struct rep_struct s).
  rewrite (re_sub_gsub _ _ s wf_struct). cbn [opt_bind].
  change (re_sub _ _ ?x) with (re_sub pat_anchor rep_anchor x).
  now rewrite (re_sub_gsub _ _ _ wf_anchor).
Qed.

Lemma update_constructor_eq (s : text) :
  update_constructor s =
  Some (gsub pat_init rep_init (gsub old_sig new_sig s)).
Proof.
  unfold update_constructor.
  rewrite (re_sub_gsub _ _ s wf_sig). cbn [opt_bind].
  change (re_sub _ _ ?x) with (re_sub pat_init rep_init x).
  now rewrite (re_sub_gsub _ _ _ wf_init).
Qed.

Lemma fix_lexer_parser_calls_eq (s : text) :
  fix_lexer_parser_calls s =
  Some (gsub pat_parser rep_parser (gsub pat_lexer rep_lexer s)).
Proof.
  unfold fix_lexer_parser_calls.
  change (re_sub _ _ s) with (re_sub pat_lexer rep_lexer s).
  rewrite (re_sub_gsub _ _ s wf_lexer). cbn [opt_bind].
  change (re_sub _ _ ?x) with (re_sub pat_parser rep_parser x).
  now rewrite (re_sub_gsub _ _ _ wf_parser).
Qed.

Lemma fix_stringid_conversions_eq (s : text) :
  fix_stringid_conversions s =
  Some (gsub pat_lookup rep_lookup
          (gsub pat_one rep_one (gsub pat_two rep_two s))).
Proof.
  unfold fix_stringid_conversions.
  change (re_sub _ _ s) with (re_sub pat_two rep_two s).
  rewrite (re_sub_gsub _ _ s wf_two). cbn [opt_bind].
  change (re_sub "(\w+)\.node\.clone\(\)" _ ?x) with (re_sub pat_one rep_one x).
  rewrite (re_sub_gsub _ _ _ wf_one). cbn [opt_bind].
  change (re_sub _ _ ?x) with (re_sub pat_lookup rep_lookup x).
  now rewrite (re_sub_gsub _ _ _ wf_lookup).
Qed.

Lemma fix_impl_block_eq (s : text) :
  fix_impl_block s = Some (gsub pat_impl rep_impl s).
Proof.
  unfold fix_impl_block.
  change (re_sub _ _ s) with (re_sub pat_impl rep_impl s).
  now rewrite (re_sub_gsub _ _ s wf_impl).
Qed.

(* ================================================================== *)
(** ** The literal stages *)

Lemma struct_scans :
  scans (lit_matcher struct_header struct_header') (gsub pat_struct rep_struct).
Proof. exact (scans_ext _ _ _ struct_rule (gsub_scans _ _ wf_struct)). Qed.

Lemma anchor_scans :
  scans (lit_matcher anchor_line (anchor_line ++ interner_line ++ common_line))
        (gsub pat_anchor rep_anchor).
Proof. exact (scans_ext _ _ _ anchor_rule (gsub_scans _ _ wf_anchor)). Qed.

Lemma impl_scans :
  scans (lit_matcher impl_header impl_header') (gsub pat_impl rep_impl).
Proof. exact (scans_ext _ _ _ impl_rule (gsub_scans _ _ wf_impl)). Qed.

(** Every header is marked, whatever surrounds it. *)
Lemma struct_replace (x y : text) :
  gsub pat_struct rep_struct (x ++ struct_header ++ y) =
  gsub pat_struct rep_struct x ++ struct_header'
    ++ gsub pat_struct rep_struct y.
Proof. apply (lit_replace _ _ _ struct_scans). vm_compute. reflexivity. Qed.

Lemma impl_replace (x y : text) :
  gsub pat_impl rep_impl (x ++ impl_header ++ y) =
  gsub pat_impl rep_impl x ++ impl_header' ++ gsub pat_impl rep_impl y.
Proof. apply (lit_replace _ _ _ impl_scans). vm_compute. reflexivity. Qed.

(** Every anchor line is followed by the two field lines. *)
Lemma anchor_replace (x y : text) :
  gsub pat_anchor rep_anchor (x ++ anchor_line ++ y) =
  gsub pat_anchor rep_anchor x
    ++ (anchor_line ++ interner_line ++ common_line)
    ++ gsub pat_anchor rep_anchor y.
Proof. apply (lit_replace _ _ _ anchor_scans). vm_compute. reflexivity. Qed.

(** The header rule passes over an anchor line, and the anchor rule over a
    marked header. *)
Lemma struct_frame_anchor (x y : text) :
  gsub pat_struct rep_struct (x ++ anchor_line ++ y) =
  gsub pat_struct rep_struct x ++ anchor_line ++ gsub pat_struct rep_struct y.
Proof.
  apply (lit_frame _ _ _ struct_scans); vm_compute; reflexivity.
Qed.

Lemma anchor_frame_header' (x y : text) :
  gsub pat_anchor rep_anchor (x ++ struct_header' ++ y) =
  gsub pat_anchor rep_anchor x ++ struct_header'
    ++ gsub pat_anchor rep_anchor y.
Proof.
  apply (lit_frame _ _ _ anchor_scans); vm_compute; reflexivity.
Qed.

Lemma clean_struct (x : text) :
  clean AddInternerToStruct x ->
  gsub pat_struct rep_struct x = x /\ gsub pat_anchor rep_anchor x = x.
Proof.
  intros H. inversion H as [|p1 l1 H1 H']; subst.
  inversion H' as [|p2 l2 H2 _]; subst. split.
  - exact (gsub_absent _ _ _ wf_struct H1).
  - exact (gsub_absent _ _ _ wf_anchor H2).
Qed.

(** C3. A stage applied to a text in which none of its patterns occurs
    returns that text unchanged and raises no error; this holds for each of
    the five stages. *)
Theorem stage_without_its_patterns_is_identity (st : stage_name) (x : text) :
  clean st x -> run_stage st x = Some x.
Proof.
  unfold clean. destruct st; cbn [run_stage stage_patterns]; intros H.
  - destruct (clean_struct x H) as [E1 E2].
    now rewrite add_interner_to_struct_eq, E1, E2.
  - inversion H as [|p1 l1 H1 H']; subst.
    inversion H' as [|p2 l2 H2 _]; subst.
    rewrite update_constructor_eq.
    rewrite (gsub_absent _ _ _ wf_sig H1).
    now rewrite (gsub_absent _ _ _ wf_init H2).
  - inversion H as [|p1 l1 H1 H']; subst.
    inversion H' as [|p2 l2 H2 _]; subst.
    rewrite fix_lexer_parser_calls_eq.
    rewrite (gsub_absent _ _ _ wf_lexer H1).
    now rewrite (gsub_absent _ _ _ wf_parser H2).
  - inversion H as [|p1 l1 H1 H']; subst.
    inversion H' as [|p2 l2 H2 H'']; subst.
    inversion H'' as [|p3 l3 H3 _]; subst.
    rewrite fix_stringid_conversions_eq.
    rewrite (gsub_absent _ _ _ wf_two H1).
    rewrite (gsub_absent _ _ _ wf_one H2).
    now rewrite (gsub_absent _ _ _ wf_lookup H3).
  - inversion H as [|p1 l1 H1 _]; subst.
    rewrite fix_impl_block_eq.
    now rewrite (gsub_absent _ _ _ wf_impl H1).
Qed.

Lemma stage_without_its_patterns_witness :
  clean FixStringidConversions (T "exports.add_named(name, symbol);") /\
  run_stage FixStringidConversions (T "exports.add_named(name, symbol);")
  = Some (T "exports.add_named(name, symbol);").
Proof.
  assert (H : clean FixStringidConversions
                (T "exports.add_named(name, symbol);"))
    by (repeat constructor; vm_compute; reflexivity).
  split; [exact H|].
  exact (stage_without_its_patterns_is_identity _ _ H).
Defined.

(** C6. Struct Augmentation and Generic Parameter Propagation rewrite every
    occurrence of their header: in a text where the header stands twice,
    both occurrences get the same replacement, and the texts before, between
    and after them are rewritten as they would be on their own. *)
Theorem headers_are_rewritten_globally (a b c : text) :
  (exists a' b' c',
     add_interner_to_struct a = Some a' /\
     add_interner_to_struct b = Some b' /\
     add_interner_to_struct c = Some c' /\
     add_interner_to_struct
       (a ++ struct_header ++ b ++ struct_header ++ c)
     = Some (a' ++ struct_header' ++ b' ++ struct_header' ++ c')) /\
  (exists a' b' c',
     fix_impl_block a = Some a' /\
     fix_impl_block b = Some b' /\
     fix_impl_block c = Some c' /\
     fix_impl_block (a ++ impl_header ++ b ++ impl_header ++ c)
     = Some (a' ++ impl_header' ++ b' ++ impl_header' ++ c')).
Proof.
  split.
  - do 3 eexists. rewrite !add_interner_to_struct_eq.
    repeat split; try reflexivity.
    now rewrite !struct_replace, !anchor_frame_header'.
  - do 3 eexists. rewrite !fix_impl_block_eq.
    repeat split; try reflexivity.
    now rewrite !impl_replace.
Qed.



(* ================================================================== *)
(** ** Greedy repetition and the patterns with character sets *)

Lemma span_ext (f g : ascii -> bool) (s : text) :
  (forall c, f c = g c) -> span f s = span g s.
Proof.
  intros E. induction s as [|c s IH]; cbn; [reflexivity|].
  now rewrite E, IH.
Qed.

Lemma span_spec (f : ascii -> bool) (s w r : text) :
  span f s = (w, r) ->
  s = w ++ r /\ forallb f w = true /\
  match r with [] => True | c :: _ => f c = false end.
Proof.
  revert w r. induction s as [|c s IH]; cbn; intros w r H.
  - inversion H; subst. auto.
  - destruct (f c) eqn:Ec.
    + destruct (span f s) as [w' r'] eqn:E. inversion H; subst.
      destruct (IH _ _ eq_refl) as (-> & Hw & Hr).
      cbn. rewrite Ec. auto.
    + inversion H; subst. cbn. auto.
Qed.

(** A span that stopped inside [t] is not changed by what follows [t]. *)
Lemma span_app_stop (f : ascii -> bool) (t z w r : text) (c : ascii) :
  span f t = (w, c :: r) -> span f (t ++ z) = (w, c :: r ++ z).
Proof.
  revert w. induction t as [|d t IH]; cbn; intros w H; [discriminate|].
  destruct (f d).
  - destruct (span f t) as [w' r'] eqn:E. inversion H; subst.
    now rewrite (IH w' eq_refl).
  - now inversion H; subst.
Qed.

(** A span over a run of matching characters goes on into what follows. *)
Lemma span_app_all (f : ascii -> bool) (w z : text) :
  forallb f w = true ->
  span f (w ++ z) = (w ++ fst (span f z), snd (span f z)).
Proof.
  induction w as [|c w IH]; cbn; intros H.
  - now destruct (span f z).
  - apply andb_true_iff in H. destruct H as [Hc Hw].
    now rewrite Hc, (IH Hw).
Qed.

Lemma span_stop (f : ascii -> bool) (w z : text) (c : ascii) :
  forallb f w = true -> f c = false -> span f (w ++ c :: z) = (w, c :: z).
Proof.
  intros Hw Hc. rewrite (span_app_all _ _ _ Hw). cbn. rewrite Hc. cbn.
  now rewrite app_nil_r.
Qed.

(** Followed by something that refuses the set's characters, a greedy
    repetition stops exactly where the span stops: no backtracking. *)
Lemma match_star_span {A} (cs : charset) (s : text) (g : captures)
    (k : text -> captures -> option A) :
  (forall c s', in_charset cs c = true -> k (c :: s') g = None) ->
  match_star cs s g k = k (snd (span (in_charset cs) s)) g.
Proof.
  intros Hk. induction s as [|c s IH]; cbn; [reflexivity|].
  destruct (in_charset cs c) eqn:Ec; [|reflexivity].
  rewrite IH. destruct (span (in_charset cs) s) as [w r]. cbn.
  destruct (k r g); [reflexivity|]. now apply Hk.
Qed.

Lemma consumed_span (f : ascii -> bool) (s w r : text) :
  span f s = (w, r) -> consumed s r = w.
Proof.
  intros H. apply span_spec in H. destruct H as (-> & _). apply consumed_app.
Qed.

Lemma rmatch_group_plus {A} (n : nat) (cs : charset) (s : text)
    (g : captures) (k : text -> captures -> option A) :
  (forall c s' g', in_charset cs c = true -> k (c :: s') g' = None) ->
  rmatch (Group n (Seq (Plus cs) Eps)) s g k =
  match span (in_charset cs) s with
  | ([], _) => None
  | (w, rest) => k rest ((n, w) :: g)
  end.
Proof.
  intros Hk. cbn [rmatch]. destruct s as [|c s]; [reflexivity|].
  cbn [span]. destruct (in_charset cs c) eqn:Ec; [|reflexivity].
  rewrite match_star_span by (intros; apply Hk; assumption).
  destruct (span (in_charset cs) s) as [w r] eqn:E. cbn [snd].
  f_equal. f_equal. f_equal.
  apply (consumed_span (in_charset cs)). cbn. now rewrite Ec, E.
Qed.

Lemma in_word_cs (c : ascii) : in_charset word_cs c = is_word c.
Proof. cbn. now rewrite orb_false_r. Qed.

Lemma in_space_cs (c : ascii) : in_charset space_cs c = is_space c.
Proof. cbn. now rewrite orb_false_r. Qed.

Lemma in_not_comma_cs (c : ascii) : in_charset not_comma_cs c = not_comma c.
Proof. cbn. unfold not_comma. now rewrite orb_false_r. Qed.

(** A literal that starts with a character outside the set refuses the
    set's characters. *)
Lemma lits_refuses {A} (f : ascii -> bool) (d : ascii) (l : text) (r : regex)
    (c : ascii) (s : text) (g : captures) (k : text -> captures -> option A) :
  f d = false -> f c = true -> rmatch (lits (d :: l) r) (c :: s) g k = None.
Proof.
  intros Hd Hc. cbn. destruct (Ascii.eqb_spec d c); [|reflexivity].
  subst. congruence.
Qed.

Lemma rmatch_seq {A} (r1 r2 : regex) (s : text) (g : captures)
    (k : text -> captures -> option A) :
  rmatch (Seq r1 r2) s g k = rmatch r1 s g (fun s' g' => rmatch r2 s' g' k).
Proof. reflexivity. Qed.

Lemma rmatch_star {A} (cs : charset) (s : text) (g : captures)
    (k : text -> captures -> option A) :
  rmatch (Star cs) s g k = match_star cs s g k.
Proof. reflexivity. Qed.

Lemma rmatch_eps {A} (s : text) (g : captures)
    (k : text -> captures -> option A) :
  rmatch Eps s g k = k s g.
Proof. reflexivity. Qed.

(** The call-site patterns are the direct reading. *)
Lemma call_rule (head tail : text) (s : text) :
  rule_matcher (call_re head) (map TChar head ++ TGroup 1 :: map TChar tail) s
  = call_matcher head tail s.
Proof.
  unfold rule_matcher, re_match, call_re, call_matcher.
  unfold lit, some_of, many_of, done.
  rewrite rmatch_lits. destruct (strip head s) as [s1|]; [|reflexivity].
  rewrite rmatch_seq, rmatch_group_plus.
  2:{ intros c s' g' Hc. rewrite in_not_comma_cs in Hc.
      apply (lits_refuses not_comma); [reflexivity|exact Hc]. }
  rewrite (span_ext _ not_comma) by apply in_not_comma_cs.
  destruct (span not_comma s1) as [[|a0 a] s2]; [reflexivity|].
  rewrite rmatch_lits. destruct (strip [","] s2) as [s3|]; [|reflexivity].
  rewrite rmatch_seq, rmatch_star, match_star_span.
  2:{ intros c s' Hc. rewrite in_space_cs in Hc.
      apply (lits_refuses is_space); [reflexivity|exact Hc]. }
  rewrite (span_ext _ is_space) by apply in_space_cs.
  destruct (span is_space s3) as [ws s4]. cbn [snd].
  rewrite rmatch_lits.
  destruct (strip handler_clone_close s4) as [rest|]; [|reflexivity].
  rewrite rmatch_eps, expand_app, expand_chars.
  cbn [expand capture Nat.eqb]. now rewrite expand_chars.
Qed.

Lemma lexer_rule (s : text) :
  matcher_of pat_lexer rep_lexer s = call_matcher lexer_head lexer_tail s.
Proof.
  assert (Hc : compile pat_lexer = Some (call_re lexer_head, 1))
    by (vm_compute; reflexivity).
  assert (Ht : parse_template (T rep_lexer) 1
               = Some (map TChar lexer_head ++ TGroup 1 :: map TChar lexer_tail))
    by (vm_compute; reflexivity).
  unfold matcher_of. rewrite Hc, Ht. apply call_rule.
Qed.

Lemma parser_rule (s : text) :
  matcher_of pat_parser rep_parser s = call_matcher parser_head parser_tail s.
Proof.
  assert (Hc : compile pat_parser = Some (call_re parser_head, 1))
    by (vm_compute; reflexivity).
  assert (Ht : parse_template (T rep_parser) 1
               = Some (map TChar parser_head
                         ++ TGroup 1 :: map TChar parser_tail))
    by (vm_compute; reflexivity).
  unfold matcher_of. rewrite Hc, Ht. apply call_rule.
Qed.

(** Patterns 1 and 2 are the direct reading. *)
Lemma two_rule (s : text) :
  matcher_of pat_two rep_two s = two_matcher s.
Proof.
  assert (Hc : compile pat_two = Some (two_re, 2))
    by (vm_compute; reflexivity).
  assert (Ht : parse_template (T rep_two) 2
               = Some (map TChar (T "self.interner.resolve(")
                         ++ TGroup 1 :: TChar "." :: TGroup 2
                         :: map TChar (T ".node).to_string()")))
    by (vm_compute; reflexivity).
  unfold matcher_of. rewrite Hc, Ht.
  unfold rule_matcher, re_match, two_re, two_matcher.
  unfold lit, some_of, done.
  rewrite rmatch_seq, rmatch_group_plus.
  2:{ intros c s' g' Hw. rewrite in_word_cs in Hw.
      apply (lits_refuses is_word); [reflexivity|exact Hw]. }
  rewrite (span_ext _ is_word) by apply in_word_cs.
  destruct (span is_word s) as [[|a0 a] s1]; [reflexivity|].
  rewrite rmatch_lits. destruct (strip ["."] s1) as [s2|]; [|reflexivity].
  rewrite rmatch_seq, rmatch_group_plus.
  2:{ intros c s' g' Hw. rewrite in_word_cs in Hw.
      apply (lits_refuses is_word); [reflexivity|exact Hw]. }
  rewrite (span_ext _ is_word) by apply in_word_cs.
  destruct (span is_word s2) as [[|b0 b] s3]; [reflexivity|].
  rewrite rmatch_lits.
  destruct (strip dot_node_clone s3) as [rest|]; [|reflexivity].
  rewrite rmatch_eps. unfold resolved.
  rewrite expand_app, expand_chars.
  cbn [expand capture Nat.eqb]. rewrite expand_chars.
  now rewrite <- !app_assoc.
Qed.

Lemma one_rule (s : text) :
  matcher_of pat_one rep_one s = one_matcher s.
Proof.
  assert (Hc : compile pat_one = Some (one_re, 1))
    by (vm_compute; reflexivity).
  assert (Ht : parse_template (T rep_one) 1
               = Some (map TChar (T "self.interner.resolve(")
                         ++ TGroup 1 :: map TChar (T ".node).to_string()")))
    by (vm_compute; reflexivity).
  unfold matcher_of. rewrite Hc, Ht.
  unfold rule_matcher, re_match, one_re, one_matcher.
  unfold lit, some_of, done.
  rewrite rmatch_seq, rmatch_group_plus.
  2:{ intros c s' g' Hw. rewrite in_word_cs in Hw.
      apply (lits_refuses is_word); [reflexivity|exact Hw]. }
  rewrite (span_ext _ is_word) by apply in_word_cs.
  destruct (span is_word s) as [[|a0 a] s1]; [reflexivity|].
  rewrite rmatch_lits.
  destruct (strip dot_node_clone s1) as [rest|]; [|reflexivity].
  rewrite rmatch_eps. unfold resolved.
  rewrite expand_app, expand_chars.
  cbn [expand capture Nat.eqb]. now rewrite expand_chars.
Qed.

(* ================================================================== *)
(** ** Where matches cannot straddle *)

Lemma done_loc0 (rp z : text) : loc0 (done rp) z.
Proof. intros t. reflexivity. Qed.

Lemma loc0_locp (k : matcher) (z : text) : loc0 k z -> locp k z.
Proof. intros H t _. apply H. Qed.

Lemma locp_local (m : matcher) (x z : text) : locp m z -> local m x z.
Proof. intros H u t _ Ht. now apply H. Qed.

Lemma tails_miss_at (lo : nat) (l z : text) (i : nat) :
  tails_miss lo l z = true -> lo <= i < length l ->
  strip (skipn i l) z = None.
Proof.
  intros H Hi. unfold tails_miss in H.
  assert (E := forallb_seq _ _ _ i H ltac:(lia)). cbn in E.
  now destruct (strip (skipn i l) z).
Qed.

(** A literal that does not begin [t] does not begin [t ++ z] either, when
    no tail of the literal begins [z]. *)
Lemma strip_app_stable (lo : nat) (l t z : text) :
  tails_miss lo l z = true -> lo <= length t ->
  strip l t = None -> strip l (t ++ z) = None.
Proof.
  intros H Hlo E. destruct (strip l (t ++ z)) as [r|] eqn:E'; [|reflexivity].
  destruct (strip_app_None _ _ _ _ E E') as (v & Hv & -> & Hz).
  rewrite <- (skipn_app_length t v) in Hz.
  rewrite (tails_miss_at lo _ _ _ H) in Hz; [discriminate|].
  rewrite length_app. destruct v; [contradiction|]. cbn [length]. lia.
Qed.

Lemma lit_loc0 (l : text) (k : matcher) (z : text) :
  loc0 k z -> tails_miss 0 l z = true -> loc0 (lit l k) z.
Proof.
  intros Hk Hl t. unfold lit. destruct (strip l t) as [r|] eqn:E.
  - rewrite (strip_app_Some _ _ _ _ E). apply Hk.
  - rewrite (strip_app_stable 0 _ _ _ Hl); [reflexivity|lia|exact E].
Qed.

Lemma lit_locp (l : text) (k : matcher) (z : text) :
  loc0 k z -> tails_miss 1 l z = true -> locp (lit l k) z.
Proof.
  intros Hk Hl t Ht. unfold lit. destruct (strip l t) as [r|] eqn:E.
  - rewrite (strip_app_Some _ _ _ _ E). apply Hk.
  - rewrite (strip_app_stable 1 _ _ _ Hl); [reflexivity| |exact E].
    destruct t; [contradiction|cbn; lia].
Qed.

(** A run that ends inside [t] is the same run when [z] follows. *)
Lemma some_stop (f : ascii -> bool) (k : text -> matcher) (z t : text) :
  (forall a, locp (k a) z) -> snd (span f t) <> [] ->
  some_of f k (t ++ z) = extend z (some_of f k t).
Proof.
  intros Hk Hs. unfold some_of.
  destruct (span f t) as [a [|c r]] eqn:E; [now elim Hs|].
  rewrite (span_app_stop _ _ z _ _ _ E).
  destruct a; [reflexivity|].
  change (c :: r ++ z) with ((c :: r) ++ z). apply Hk. discriminate.
Qed.

Lemma some_loc0 (f : ascii -> bool) (k : text -> matcher) (z : text) :
  (forall a, locp (k a) z) ->
  (forall a, k a [] = None) ->
  (forall a, k a (snd (span f z)) = None) ->
  loc0 (some_of f k) z.
Proof.
  intros Hk Hn Hz t.
  destruct (span f t) as [a [|c r]] eqn:E.
  - unfold some_of. rewrite E.
    destruct (span_spec _ _ _ _ E) as (Ht & Ha & _).
    rewrite app_nil_r in Ht. subst t.
    rewrite (span_app_all _ _ _ Ha).
    destruct (a ++ fst (span f z)); rewrite ?Hz; destruct a;
      rewrite ?Hn; reflexivity.
  - apply some_stop; [exact Hk|]. rewrite E. discriminate.
Qed.

Lemma many_loc0 (f : ascii -> bool) (k : matcher) (z : text) :
  locp k z -> k [] = None -> k (snd (span f z)) = None ->
  loc0 (many_of f k) z.
Proof.
  intros Hk Hn Hz t. unfold many_of.
  destruct (span f t) as [a [|c r]] eqn:E.
  - destruct (span_spec _ _ _ _ E) as (Ht & Ha & _).
    rewrite app_nil_r in Ht. subst t.
    rewrite (span_app_all _ _ _ Ha). cbn [snd]. now rewrite Hz, Hn.
  - rewrite (span_app_stop _ _ z _ _ _ E). cbn [snd].
    change (c :: r ++ z) with ((c :: r) ++ z). apply Hk. discriminate.
Qed.

(** Stretches in which no match starts. *)
Lemma inert_app (m : matcher) (a b y : text) :
  inert m a (b ++ y) -> inert m b y -> inert m (a ++ b) y.
Proof.
  intros Ha Hb u t E Ht. apply app_eq_app in E.
  destruct E as (l & [[-> ->]|[-> ->]]).
  - destruct l as [|c l].
    + apply (Hb [] b); [reflexivity|exact Ht].
    + rewrite <- app_assoc. apply (Ha u (c :: l)); [reflexivity|discriminate].
  - apply (Hb l t); [reflexivity|exact Ht].
Qed.

Lemma inert_check (m : matcher) (a y : text) :
  forallb (fun j => fails (m (skipn j a ++ y))) (seq 0 (length a)) = true ->
  inert m a y.
Proof.
  intros H u t -> Ht.
  assert (E := forallb_seq _ _ _ (length u) H). cbn beta in E.
  rewrite skipn_app_length in E.
  destruct (m (t ++ y)); [|reflexivity].
  rewrite length_app in E. destruct t; [contradiction|].
  cbn [length] in E. discriminate E. lia.
Qed.

(** Inside a run of the set's characters no match starts, if the rest of
    the pattern fails where the run ends. *)
Lemma some_inert (f : ascii -> bool) (k : text -> matcher) (w y : text) :
  forallb f w = true ->
  (forall a, k a (snd (span f y)) = None) ->
  inert (some_of f k) w y.
Proof.
  intros Hw Hk u t -> Ht. unfold some_of.
  rewrite forallb_app in Hw. apply andb_true_iff in Hw. destruct Hw as [_ Hw].
  rewrite (span_app_all _ _ _ Hw).
  destruct (t ++ fst (span f y)); [reflexivity|apply Hk].
Qed.

(* ------------------------------------------------------------------ *)
(** *** Literals against words *)

Lemma text_eqb_eq (a b : text) : text_eqb a b = true -> a = b.
Proof.
  revert b. induction a as [|c a IH]; intros [|d b]; cbn; try discriminate.
  - reflexivity.
  - intros H. apply andb_true_iff in H. destruct H as [H1 H2].
    apply Ascii.eqb_eq in H1. subst. f_equal. now apply IH.
Qed.

(** Stripping a literal off a run of a class followed by a character
    outside it: the literal's leading run must be that run and be followed
    by that character. *)
Lemma strip_run_step (P : ascii -> bool) (v w : text) (d : ascii)
    (rest : text) :
  forallb P w = true -> P d = false ->
  strip v (w ++ d :: rest) =
  match span P v with
  | (a, e :: b) =>
    if text_eqb a w then (if Ascii.eqb e d then strip b rest else None)
    else None
  | (_, []) => strip v (w ++ d :: rest)
  end.
Proof.
  intros Hw Hd. destruct (span P v) as [a [|e b]] eqn:E; [reflexivity|].
  destruct (span_spec _ _ _ _ E) as (-> & Ha & He). clear E.
  revert w Hw. induction a as [|x a IH]; intros w Hw.
  - destruct w as [|c w]; cbn; [reflexivity|].
    cbn in Hw. apply andb_true_iff in Hw. destruct Hw as [Hc _].
    destruct (Ascii.eqb_spec e c); [subst; congruence|reflexivity].
  - cbn in Ha. apply andb_true_iff in Ha. destruct Ha as [Hx Ha].
    destruct w as [|c w]; cbn.
    + destruct (Ascii.eqb_spec x d); [subst; congruence|reflexivity].
    + cbn in Hw. apply andb_true_iff in Hw. destruct Hw as [Hc Hw].
      destruct (Ascii.eqb x c); cbn; [now apply IH|reflexivity].
Qed.

Lemma strip_word_step (v w : text) (d : ascii) (rest : text) :
  forallb is_word w = true -> is_word d = false ->
  strip v (w ++ d :: rest) =
  match span is_word v with
  | (a, e :: b) =>
    if text_eqb a w then (if Ascii.eqb e d then strip b rest else None)
    else None
  | (_, []) => strip v (w ++ d :: rest)
  end.
Proof. apply strip_run_step. Qed.

Lemma is_ident_word (w : text) : is_ident w = true -> forallb is_word w = true.
Proof. destruct w; [discriminate|auto]. Qed.

Lemma is_ident_cons (w : text) :
  is_ident w = true ->
  exists c w', w = c :: w' /\ is_word c = true /\ forallb is_word w' = true.
Proof.
  destruct w as [|c w]; [discriminate|]. cbn. intros H.
  apply andb_true_iff in H. destruct H. eauto.
Qed.

(* ------------------------------------------------------------------ *)
(** *** Pattern 3 *)

Lemma rmatch_plus {A} (cs : charset) (s : text) (g : captures)
    (k : text -> captures -> option A) :
  (forall c s', in_charset cs c = true -> k (c :: s') g = None) ->
  rmatch (Plus cs) s g k =
  match span (in_charset cs) s with
  | ([], _) => None
  | (_, rest) => k rest g
  end.
Proof.
  intros Hk. cbn [rmatch]. destruct s as [|c s]; [reflexivity|].
  cbn [span]. destruct (in_charset cs c) eqn:Ec; [|reflexivity].
  rewrite match_star_span by exact Hk.
  now destruct (span (in_charset cs) s) as [w r].
Qed.

Lemma in_lower_cs (c : ascii) : in_charset lower_cs c = is_lower_ c.
Proof. cbn. unfold is_lower_. now rewrite orb_false_r. Qed.

Lemma rmatch_group {A} (n : nat) (r : regex) (s : text) (g : captures)
    (k : text -> captures -> option A) :
  rmatch (Group n r) s g k =
  rmatch r s g (fun s' g' => k s' ((n, consumed s s') :: g')).
Proof. reflexivity. Qed.

Lemma rmatch_alt {A} (r1 r2 : regex) (s : text) (g : captures)
    (k : text -> captures -> option A) :
  rmatch (Alt r1 r2) s g k =
  match rmatch r1 s g k with
  | Some x => Some x
  | None => rmatch r2 s g k
  end.
Proof. reflexivity. Qed.

(** The three field names exclude one another, so trying them in order with
    backtracking is choosing the one that begins the text. *)
Lemma rmatch_fields {A} (s : text) (g : captures)
    (k : text -> captures -> option A) :
  rmatch (Alt (lits (T "name") Eps)
            (Alt (lits (T "local") Eps) (lits (T "key") Eps))) s g k =
  match strip (T "name") s with
  | Some s' => k s' g
  | None =>
    match strip (T "local") s with
    | Some s' => k s' g
    | None =>
      match strip (T "key") s with
      | Some s' => k s' g
      | None => None
      end
    end
  end.
Proof.
  rewrite !rmatch_alt, !rmatch_lits.
  destruct (strip (T "name") s) as [s1|] eqn:E1.
  - rewrite rmatch_eps. destruct (k s1 g); [reflexivity|].
    rewrite (clash_excl (T "name") (T "local") s s1 eq_refl E1).
    now rewrite (clash_excl (T "name") (T "key") s s1 eq_refl E1).
  - destruct (strip (T "local") s) as [s1|] eqn:E2; [|reflexivity].
    rewrite rmatch_eps. destruct (k s1 g); [reflexivity|].
    now rewrite (clash_excl (T "local") (T "key") s s1 eq_refl E2).
Qed.

Lemma lookup_rule (s : text) :
  matcher_of pat_lookup rep_lookup s = lookup_matcher s.
Proof.
  assert (Hc : compile pat_lookup = Some (lookup_re, 1))
    by (vm_compute; reflexivity).
  assert (Ht : parse_template (T rep_lookup) 1
               = Some (map TChar
                         (T "self.symbol_table.lookup(self.interner.resolve(")
                         ++ TGroup 1 :: map TChar (T "))")))
    by (vm_compute; reflexivity).
  unfold matcher_of. rewrite Hc, Ht.
  unfold rule_matcher, re_match, lookup_re, lookup_matcher.
  unfold lit at 1. rewrite rmatch_lits.
  destruct (strip lookup_head s) as [s1|]; [|reflexivity].
  rewrite rmatch_seq, rmatch_group, rmatch_seq, rmatch_plus.
  2:{ intros c s' Hl. rewrite in_lower_cs in Hl.
      apply (lits_refuses is_lower_); [reflexivity|exact Hl]. }
  rewrite (span_ext _ is_lower_) by apply in_lower_cs.
  unfold some_of.
  destruct (span is_lower_ s1) as [[|a0 a] s2] eqn:Es; [reflexivity|].
  apply span_spec in Es. destruct Es as (-> & _).
  unfold lit at 1. rewrite rmatch_lits.
  destruct (strip ["."] s2) as [s3|] eqn:E3; [|reflexivity].
  apply strip_Some in E3. subst s2.
  rewrite rmatch_seq, rmatch_fields.
  unfold lookup_fields, one_of, lit, done.
  assert (Hfin : forall fld s4,
    s3 = fld ++ s4 ->
    match
      rmatch (lits (T ".node") Eps) s4 []
        (fun s' g' =>
           rmatch (lits [")"] Eps) s'
             ((1, consumed ((a0 :: a) ++ ["."] ++ s3) s') :: g')
             (fun s'' g'' => Some (g'', s'')))
    with
    | Some (g, rest) =>
      Some (expand
              (map TChar
                 (T "self.symbol_table.lookup(self.interner.resolve(")
                 ++ TGroup 1 :: map TChar (T "))")) g, rest)
    | None => None
    end =
    match strip (T ".node)") s4 with
    | Some s' =>
      Some (lookup_resolved ((a0 :: a) ++ "." :: fld ++ T ".node"), s')
    | None => None
    end).
  { intros fld s4 ->. rewrite rmatch_lits.
    change (T ".node)") with (T ".node" ++ [")"]).
    destruct (strip (T ".node") s4) as [s5|] eqn:E5.
    - apply strip_Some in E5. subst s4.
      rewrite rmatch_eps. cbv beta. rewrite rmatch_lits.
      replace (strip (T ".node" ++ [")"]) (T ".node" ++ s5))
        with (strip [")"] s5).
      2:{ clear. induction (T ".node") as [|x l IH]; cbn; [reflexivity|].
          now rewrite Ascii.eqb_refl. }
      destruct (strip [")"] s5) as [rest|] eqn:E6; [|reflexivity].
      apply strip_Some in E6. subst s5.
      rewrite rmatch_eps, expand_app, expand_chars.
      cbn [expand capture Nat.eqb]. rewrite expand_chars.
      unfold lookup_resolved. do 3 f_equal.
      replace ((a0 :: a) ++ ["."] ++ fld ++ T ".node" ++ [")"] ++ rest)
        with (((a0 :: a) ++ "." :: fld ++ T ".node") ++ [")"] ++ rest)
        by (rewrite <- !app_assoc; cbn [app]; rewrite <- ?app_assoc;
            reflexivity).
      replace (consumed (((a0 :: a) ++ "." :: fld ++ T ".node") ++ [")"] ++ rest)
                 ([")"] ++ rest))
        with ((a0 :: a) ++ "." :: fld ++ T ".node")
        by (symmetry; apply consumed_app).
      reflexivity.
    - replace (strip (T ".node" ++ [")"]) s4) with (@None text); [reflexivity|].
      symmetry. destruct (strip (T ".node" ++ [")"]) s4) as [r|] eqn:E; auto.
      apply strip_Some in E. subst s4. rewrite <- app_assoc in E5.
      now rewrite strip_app in E5. }
  destruct (strip (T "name") s3) as [s4|] eqn:E4.
  { apply strip_Some in E4. now apply Hfin. }
  destruct (strip (T "local") s3) as [s4|] eqn:E4'.
  { apply strip_Some in E4'. now apply Hfin. }
  destruct (strip (T "key") s3) as [s4|] eqn:E4''.
  { apply strip_Some in E4''. now apply Hfin. }
  reflexivity.
Qed.

Lemma wf_scans_two : scans two_matcher (gsub pat_two rep_two).
Proof. exact (scans_ext _ _ _ two_rule (gsub_scans _ _ wf_two)). Qed.

Lemma wf_scans_one : scans one_matcher (gsub pat_one rep_one).
Proof. exact (scans_ext _ _ _ one_rule (gsub_scans _ _ wf_one)). Qed.

Lemma wf_scans_lookup : scans lookup_matcher (gsub pat_lookup rep_lookup).
Proof. exact (scans_ext _ _ _ lookup_rule (gsub_scans _ _ wf_lookup)). Qed.

Lemma wf_scans_lexer :
  scans (call_matcher lexer_head lexer_tail) (gsub pat_lexer rep_lexer).
Proof. exact (scans_ext _ _ _ lexer_rule (gsub_scans _ _ wf_lexer)). Qed.

Lemma wf_scans_parser :
  scans (call_matcher parser_head parser_tail) (gsub pat_parser rep_parser).
Proof. exact (scans_ext _ _ _ parser_rule (gsub_scans _ _ wf_parser)). Qed.

(** Decide, by stepping over words and computing on literals, that a
    literal does not begin a text made of words, separators and literals. *)
Ltac strip_none :=
  repeat first
    [ reflexivity
    | match goal with
      | |- context [Ascii.eqb ?x ?y] =>
        let v := eval vm_compute in (Ascii.eqb x y) in
        change (Ascii.eqb x y) with v; cbv iota
      end
    | match goal with
      | |- context [text_eqb ?a ?w] => destruct (text_eqb a w)
      end
    | match goal with
      | |- context [strip ?a (T ?b ++ ?y)] =>
        let v := eval vm_compute in (strip a (T b ++ y)) in
        change (strip a (T b ++ y)) with v
      end
    | progress
        (rewrite strip_word_step by (first [assumption | reflexivity]);
         match goal with
         | |- context [span is_word ?v] =>
           let x := eval vm_compute in (span is_word v) in
           change (span is_word v) with x; cbv iota beta
         end) ].

Ltac norm_app := repeat (rewrite <- app_assoc || rewrite <- app_comm_cons).

Lemma tails_miss_intro (lo : nat) (l z : text) :
  (forall i, lo <= i < length l -> strip (skipn i l) z = None) ->
  tails_miss lo l z = true.
Proof.
  intros H. unfold tails_miss. apply forallb_forall. intros i Hi.
  apply in_seq in Hi. rewrite H; [reflexivity|lia].
Qed.

Lemma one_of_loc0 (ls : list text) (k : text -> matcher) (z : text) :
  (forall l, In l ls -> loc0 (k l) z /\ tails_miss 0 l z = true) ->
  loc0 (one_of ls k) z.
Proof.
  induction ls as [|l ls IH]; intros H t; [reflexivity|].
  destruct (H l (or_introl eq_refl)) as [Hk Hl]. cbn [one_of].
  destruct (strip l t) as [r|] eqn:E.
  - rewrite (strip_app_Some _ _ _ _ E). apply Hk.
  - rewrite (strip_app_stable 0 _ _ _ Hl); [|lia|exact E].
    apply IH. intros l' Hl'. apply H. now right.
Qed.

Lemma ends_clear_stop (t : text) :
  t <> [] -> ends_clear t = true -> snd (span is_word t) <> [].
Proof.
  intros Ht He Hs. destruct (span is_word t) as [a r] eqn:E.
  cbn in Hs. subst r. destruct (span_spec _ _ _ _ E) as (Ha & Hw & _).
  rewrite app_nil_r in Ha. subst a. unfold ends_clear in He.
  destruct (rev t) as [|c l] eqn:Er.
  - apply (f_equal (@rev ascii)) in Er. rewrite rev_involutive in Er.
    now subst t.
  - rewrite forallb_forall in Hw. rewrite Hw in He; [discriminate|].
    apply in_rev. rewrite Er. now left.
Qed.

Lemma ends_clear_tail (u t : text) :
  t <> [] -> ends_clear (u ++ t) = true -> ends_clear t = true.
Proof.
  intros Ht. unfold ends_clear. rewrite rev_app_distr.
  destruct (rev t) as [|c l] eqn:Er; [|auto].
  apply (f_equal (@rev ascii)) in Er. rewrite rev_involutive in Er.
  now subst t.
Qed.

Lemma lit_inert_word (l : text) (k : matcher) (w rest : text) :
  forallb is_word w = true ->
  (forall t, forallb is_word t = true -> strip l (t ++ rest) = None) ->
  inert (lit l k) w rest.
Proof.
  intros Hw H u t -> _. unfold lit.
  rewrite forallb_app in Hw. apply andb_true_iff in Hw.
  now rewrite H.
Qed.

(* ------------------------------------------------------------------ *)
(** *** The rules of Identifier Resolution around a resolver call *)

(** Patterns 2 and 3 do not match across the start of a resolver call. *)
Lemma one_loc0_resolved (c y : text) : loc0 one_matcher (resolved c ++ y).
Proof.
  apply some_loc0; intros a.
  - apply lit_locp; [apply done_loc0|vm_compute; reflexivity].
  - reflexivity.
  - vm_compute; reflexivity.
Qed.

Lemma lookup_loc0_resolved (c y : text) :
  loc0 lookup_matcher (resolved c ++ y).
Proof.
  apply lit_loc0; [|vm_compute; reflexivity].
  apply some_loc0; intros a.
  - apply lit_locp; [|vm_compute; reflexivity].
    apply one_of_loc0. intros l Hl. split.
    + apply lit_loc0; [apply done_loc0|vm_compute; reflexivity].
    + destruct Hl as [<-|[<-|[<-|[]]]]; vm_compute; reflexivity.
  - reflexivity.
  - vm_compute; reflexivity.
Qed.

(** Patterns 2 and 3 do not match inside the resolver call of a two-level
    chain. *)
Lemma one_inert_resolved (w1 w2 y : text) :
  forallb is_word w1 = true -> forallb is_word w2 = true ->
  inert one_matcher (resolved (w1 ++ "." :: w2)) y.
Proof.
  intros H1 H2. unfold resolved.
  rewrite <- !app_assoc. apply inert_app.
  { apply inert_check. vm_compute. reflexivity. }
  apply inert_app.
  { apply some_inert; [exact H1|]. intros a. cbn [app].
    change (span is_word ("." :: ?x)) with (@nil ascii, "." :: x).
    cbn [snd]. unfold lit, dot_node_clone.
    change (T ".node.clone()") with ("." :: T "node.clone()").
    change (T ".node).to_string()") with ("." :: T "node).to_string()").
    norm_app. cbn [strip]. strip_none. }
  change ("." :: w2) with (["."] ++ w2). rewrite <- !app_assoc.
  apply inert_app.
  { apply inert_check. vm_compute. reflexivity. }
  apply inert_app.
  { apply some_inert; [exact H2|]. intros a. vm_compute. reflexivity. }
  apply inert_check. vm_compute. reflexivity.
Qed.

Lemma lookup_inert_resolved (w1 w2 y : text) :
  forallb is_word w1 = true -> forallb is_word w2 = true ->
  inert lookup_matcher (resolved (w1 ++ "." :: w2)) y.
Proof.
  intros H1 H2. unfold resolved.
  rewrite <- !app_assoc. apply inert_app.
  { apply inert_check. vm_compute. reflexivity. }
  apply inert_app.
  { apply lit_inert_word; [exact H1|]. intros t Ht. cbn [app].
    change (T ".node).to_string()") with ("." :: T "node).to_string()").
    norm_app. unfold lookup_head. strip_none. }
  change ("." :: w2) with (["."] ++ w2). rewrite <- !app_assoc.
  apply inert_app.
  { apply inert_check. vm_compute. reflexivity. }
  apply inert_app.
  { apply lit_inert_word; [exact H2|]. intros t Ht.
    change (T ".node).to_string()") with ("." :: T "node).to_string()").
    norm_app. unfold lookup_head. strip_none. }
  apply inert_check. vm_compute. reflexivity.
Qed.

(* ------------------------------------------------------------------ *)
(** *** Pattern 1 on a two-level chain *)

(** The text of a two-level field-chain clone. *)
Lemma two_hit (w1 w2 y : text) :
  is_ident w1 = true -> is_ident w2 = true ->
  two_matcher (w1 ++ "." :: w2 ++ "." :: T "node.clone()" ++ y)
  = Some (resolved (w1 ++ "." :: w2), y).
Proof.
  intros H1 H2.
  destruct (is_ident_cons _ H1) as (c1 & v1 & -> & Hc1 & Hv1).
  destruct (is_ident_cons _ H2) as (c2 & v2 & -> & Hc2 & Hv2).
  unfold two_matcher, some_of, lit, done.
  rewrite (span_stop is_word (c1 :: v1)); [|exact (is_ident_word _ H1)|reflexivity].
  cbn [strip]. change (Ascii.eqb "." ".") with true. cbv iota.
  rewrite (span_stop is_word (c2 :: v2)); [|exact (is_ident_word _ H2)|reflexivity].
  change ("." :: T "node.clone()" ++ y) with (dot_node_clone ++ y).
  now rewrite strip_app.
Qed.

(** In front of a two-level chain, a match of pattern 1 that starts in a
    text not ending with a word character stays within that text. *)
Lemma two_local_chain (x w1 w2 y : text) :
  ends_clear x = true ->
  forallb is_word w1 = true -> forallb is_word w2 = true ->
  local two_matcher x (w1 ++ "." :: w2 ++ "." :: T "node.clone()" ++ y).
Proof.
  intros Hx H1 H2 u t -> Ht. unfold two_matcher. apply some_stop.
  - intros a. apply lit_locp; [|reflexivity].
    apply some_loc0; intros b.
    + apply lit_locp; [apply done_loc0|].
      apply tails_miss_intro. intros i Hi.
      change (length dot_node_clone) with 13 in Hi.
      assert (Hc : i = 1 \/ i = 2 \/ i = 3 \/ i = 4 \/ i = 5 \/ i = 6 \/ i = 7
                   \/ i = 8 \/ i = 9 \/ i = 10 \/ i = 11 \/ i = 12) by lia.
      repeat destruct Hc as [->|Hc]; try subst i;
        match goal with
        | |- strip ?v _ = None =>
          let x := eval vm_compute in v in change v with x
        end; strip_none.
    + reflexivity.
    + rewrite (span_stop is_word w1); [|exact H1|reflexivity].
      cbn [snd]. unfold lit.
      change dot_node_clone with ("." :: T "node.clone()").
      cbn [strip]. strip_none.
  - apply ends_clear_stop; [exact Ht|].
    now apply (ends_clear_tail u).
Qed.

(** The three substitutions of Identifier Resolution leave the parts before
    and after a two-level chain to themselves and put the resolver call in
    its place. *)
Lemma stringid_around_chain (x w1 w2 y : text) :
  ends_clear x = true -> is_ident w1 = true -> is_ident w2 = true ->
  gsub pat_lookup rep_lookup (gsub pat_one rep_one (gsub pat_two rep_two
    (x ++ w1 ++ "." :: w2 ++ "." :: T "node.clone()" ++ y)))
  = gsub pat_lookup rep_lookup (gsub pat_one rep_one (gsub pat_two rep_two x))
    ++ resolved (w1 ++ "." :: w2)
    ++ gsub pat_lookup rep_lookup (gsub pat_one rep_one (gsub pat_two rep_two y)).
Proof.
  intros Hx H1 H2.
  pose proof (is_ident_word _ H1) as W1.
  pose proof (is_ident_word _ H2) as W2.
  rewrite (scan_app _ _ wf_scans_two) by now apply two_local_chain.
  rewrite (scan_hit _ _ wf_scans_two _ _ _ (two_hit w1 w2 y H1 H2)).
  rewrite (scan_app _ _ wf_scans_one)
    by apply locp_local, loc0_locp, one_loc0_resolved.
  rewrite (scan_keep _ _ wf_scans_one) by now apply one_inert_resolved.
  rewrite (scan_app _ _ wf_scans_lookup)
    by apply locp_local, loc0_locp, lookup_loc0_resolved.
  now rewrite (scan_keep _ _ wf_scans_lookup) by now apply lookup_inert_resolved.
Qed.

(** C4. A two-level field-chain clone [a.b.node.clone()], wherever it
    stands after a text that does not end with a word character, becomes
    [self.interner.resolve(a.b.node).to_string()]: the two-level rule takes
    the whole chain, the single-level rule finds nothing left of it to
    rewrite, and the texts around it are rewritten on their own. *)
Theorem two_level_chain_is_resolved (pre a b post : text) :
  ends_clear pre = true -> is_ident a = true -> is_ident b = true ->
  exists pre' post',
    fix_stringid_conversions pre = Some pre' /\
    fix_stringid_conversions post = Some post' /\
    fix_stringid_conversions
      (pre ++ a ++ T "." ++ b ++ T ".node.clone()" ++ post)
    = Some (pre' ++ T "self.interner.resolve(" ++ a ++ T "." ++ b
              ++ T ".node).to_string()" ++ post').
Proof.
  intros Hx H1 H2. do 2 eexists. rewrite !fix_stringid_conversions_eq.
  split; [reflexivity|]. split; [reflexivity|]. f_equal.
  change (T "." ++ b ++ T ".node.clone()" ++ post)
    with ("." :: b ++ "." :: T "node.clone()" ++ post).
  rewrite (stringid_around_chain pre a b post Hx H1 H2).
  unfold resolved. now rewrite <- !app_assoc.
Qed.

Lemma two_level_chain_witness :
  ends_clear [] = true /\ is_ident (T "foo") = true /\
  is_ident (T "bar") = true /\
  fix_stringid_conversions (T "foo.bar.node.clone()")
  = Some (T "self.interner.resolve(foo.bar.node).to_string()").
Proof.
  split; [reflexivity|]. split; [reflexivity|]. split; [reflexivity|].
  destruct (two_level_chain_is_resolved [] (T "foo") (T "bar") []
              eq_refl eq_refl eq_refl)
    as (pre' & post' & E1 & E2 & E).
  vm_compute in E1, E2. inversion E1; inversion E2; subst. exact E.
Defined.

(** A word followed by a dot, with nothing after it, holds no match. *)
Lemma stringid_word_dot (w : text) :
  forallb is_word w = true ->
  gsub pat_lookup rep_lookup (gsub pat_one rep_one (gsub pat_two rep_two
    (w ++ ["."]))) = w ++ ["."].
Proof.
  intros Hw.
  assert (E : forall m f, scans m f ->
            inert m w ["."] -> inert m ["."] [] -> f (w ++ ["."]) = w ++ ["."]).
  { intros m f Hs Ha Hb.
    rewrite <- (app_nil_r (w ++ ["."])) at 1.
    rewrite (scan_keep _ _ Hs) by (apply inert_app; assumption).
    now rewrite (scan_nil _ _ Hs), app_nil_r. }
  rewrite (E _ _ wf_scans_two), (E _ _ wf_scans_one), (E _ _ wf_scans_lookup);
    try reflexivity;
    try (apply inert_check; vm_compute; reflexivity).
  - apply lit_inert_word; [exact Hw|]. intros t Ht.
    unfold lookup_head. cbn [app]. strip_none.
  - apply some_inert; [exact Hw|]. intros a. vm_compute. reflexivity.
  - apply some_inert; [exact Hw|]. intros a. vm_compute. reflexivity.
Qed.

(** C9. In a chain of three components ending in [.node.clone()], only the
    last two components are wrapped: the resolver call is spliced in after
    the first component and its dot.  This holds in any context, and for
    the chain on its own the output is [a.self.interner.resolve(b.c.node)
    .to_string()]. *)
Theorem three_level_chain_is_spliced (pre a b c post : text) :
  is_ident a = true -> is_ident b = true -> is_ident c = true ->
  (exists pre' post',
     fix_stringid_conversions (pre ++ a ++ T ".") = Some pre' /\
     fix_stringid_conversions post = Some post' /\
     fix_stringid_conversions
       (pre ++ a ++ T "." ++ b ++ T "." ++ c ++ T ".node.clone()" ++ post)
     = Some (pre' ++ T "self.interner.resolve(" ++ b ++ T "." ++ c
               ++ T ".node).to_string()" ++ post')) /\
  fix_stringid_conversions
    (a ++ T "." ++ b ++ T "." ++ c ++ T ".node.clone()")
  = Some (a ++ T "." ++ T "self.interner.resolve(" ++ b ++ T "." ++ c
            ++ T ".node).to_string()").
Proof.
  intros Ha Hb Hc.
  assert (Hx : forall x, ends_clear (x ++ a ++ ["."]) = true).
  { intros x. unfold ends_clear. rewrite !rev_app_distr. reflexivity. }
  split.
  - do 2 eexists. rewrite !fix_stringid_conversions_eq.
    split; [reflexivity|]. split; [reflexivity|]. f_equal.
    change (T ".") with ["."].
    replace (pre ++ a ++ ["."] ++ b ++ ["."] ++ c ++ T ".node.clone()" ++ post)
      with ((pre ++ a ++ ["."]) ++ b ++ "." :: c ++ "." :: T "node.clone()" ++ post)
      by (now rewrite <- !app_assoc).
    rewrite (stringid_around_chain _ b c post (Hx pre) Hb Hc).
    unfold resolved. now rewrite <- !app_assoc.
  - rewrite !fix_stringid_conversions_eq. f_equal.
    change (T ".") with ["."].
    replace (a ++ ["."] ++ b ++ ["."] ++ c ++ T ".node.clone()")
      with (([] ++ a ++ ["."]) ++ b ++ "." :: c ++ "." :: T "node.clone()" ++ [])
      by (cbn [app]; now rewrite <- !app_assoc).
    rewrite (stringid_around_chain _ b c [] (Hx []) Hb Hc).
    cbn [app]. rewrite (stringid_word_dot a (is_ident_word _ Ha)).
    change (gsub pat_lookup rep_lookup
              (gsub pat_one rep_one (gsub pat_two rep_two [])))
      with (@nil ascii).
    unfold resolved. rewrite <- !app_assoc. cbn [app].
    now rewrite !app_nil_r.
Qed.

Lemma three_level_chain_witness :
  is_ident (T "a") = true /\ is_ident (T "b") = true /\
  is_ident (T "c") = true /\
  fix_stringid_conversions (T "a.b.c.node.clone()")
  = Some (T "a.self.interner.resolve(b.c.node).to_string()").
Proof.
  split; [reflexivity|]. split; [reflexivity|]. split; [reflexivity|].
  exact (proj2 (three_level_chain_is_spliced [] (T "a") (T "b") (T "c") []
                  eq_refl eq_refl eq_refl)).
Defined.

(* ================================================================== *)
(** ** The call-site rules *)

Lemma span_all (f : ascii -> bool) (w : text) :
  forallb f w = true -> span f w = (w, []).
Proof.
  intros H. rewrite <- (app_nil_r w) at 1.
  rewrite (span_app_all _ _ _ H). cbn. now rewrite app_nil_r.
Qed.

(** A call-site rule needs a comma. *)
Lemma call_needs_comma (head tail t : text) :
  forallb not_comma t = true -> call_matcher head tail t = None.
Proof.
  intros H. unfold call_matcher, lit at 1.
  destruct (strip head t) as [s1|] eqn:E; [|reflexivity].
  apply strip_Some in E. subst t.
  rewrite forallb_app in H. apply andb_true_iff in H. destruct H as [_ H].
  unfold some_of. rewrite (span_all _ _ H). now destruct s1.
Qed.

Lemma open_call_false (head x u t s1 : text) :
  open_call head x = false -> x = u ++ t -> t <> [] ->
  strip head t = Some s1 -> forallb not_comma s1 = false.
Proof.
  revert x. induction u as [|c u IH]; intros x H -> Ht E.
  - cbn [app] in H. destruct t as [|c t]; [contradiction|].
    cbn [open_call] in H. rewrite E in H.
    now apply orb_false_iff in H.
  - cbn [app open_call] in H. apply orb_false_iff in H.
    destruct H as [_ H]. now apply (IH (u ++ t)).
Qed.

Lemma span_not_all (f : ascii -> bool) (s : text) :
  forallb f s = false -> snd (span f s) <> [].
Proof.
  intros H E. destruct (span f s) as [a r] eqn:Es. cbn in E. subst r.
  destruct (span_spec _ _ _ _ Es) as (-> & Ha & _).
  rewrite app_nil_r in H. congruence.
Qed.

Lemma lit_cases (l : text) (k : matcher) (t z : text) :
  (forall s1, strip l t = Some s1 -> k (s1 ++ z) = extend z (k s1)) ->
  (strip l t = None -> strip l (t ++ z) = None) ->
  lit l k (t ++ z) = extend z (lit l k t).
Proof.
  intros H1 H2. unfold lit. destruct (strip l t) as [s1|] eqn:E.
  - rewrite (strip_app_Some _ _ _ _ E). now apply H1.
  - now rewrite H2.
Qed.

(** The shape a call-site rule matches, and what it puts in its place. *)
Lemma call_hit (head tail s ws y : text) :
  s <> [] -> forallb not_comma s = true -> forallb is_space ws = true ->
  call_matcher head tail (head ++ s ++ "," :: ws ++ handler_clone_close ++ y)
  = Some (head ++ s ++ tail, y).
Proof.
  intros Hne Hs Hws. unfold call_matcher, lit at 1.
  rewrite strip_app. unfold some_of.
  rewrite span_stop; [|exact Hs|reflexivity].
  destruct s as [|c0 l0]; [contradiction|].
  unfold lit at 1. cbn [strip].
  change (Ascii.eqb "," ",") with true. cbv iota.
  unfold many_of.
  change (ws ++ handler_clone_close ++ y)
    with (ws ++ "h" :: T "andler.clone())" ++ y).
  rewrite (span_stop is_space ws _ "h" Hws eq_refl). cbn [snd].
  change ("h" :: T "andler.clone())" ++ y) with (handler_clone_close ++ y).
  unfold lit, done. now rewrite strip_app.
Qed.

Lemma call_shape (head tail s rp rest : text) :
  call_matcher head tail s = Some (rp, rest) ->
  exists a ws,
    s = head ++ a ++ "," :: ws ++ handler_clone_close ++ rest /\
    a <> [] /\ forallb not_comma a = true /\ forallb is_space ws = true /\
    rp = head ++ a ++ tail.
Proof.
  unfold call_matcher, lit at 1. intros H.
  destruct (strip head s) as [s1|] eqn:E1; [|discriminate].
  apply strip_Some in E1. subst s. unfold some_of in H.
  destruct (span not_comma s1) as [a s2] eqn:E2.
  destruct (span_spec _ _ _ _ E2) as (-> & Ha & _).
  destruct a as [|a0 a]; [discriminate|].
  unfold lit at 1 in H.
  destruct (strip [","] s2) as [s3|] eqn:E3; [|discriminate].
  apply strip_Some in E3. subst s2. unfold many_of in H.
  destruct (span is_space s3) as [ws s4] eqn:E4.
  destruct (span_spec _ _ _ _ E4) as (-> & Hws & _).
  cbn [snd] in H. unfold lit, done in H.
  destruct (strip handler_clone_close s4) as [r|] eqn:E5; [|discriminate].
  apply strip_Some in E5. subst s4. inversion H; subst.
  exists (a0 :: a), ws. repeat split; auto. discriminate.
Qed.

Section Call.

Variables (head tail : text) (f : text -> text).
Hypothesis Hscan : scans (call_matcher head tail) f.

(** What follows the comma of a call, before a text [z] that none of its
    parts can run into. *)
Lemma call_rest_loc0 (z : text) (a : text) :
  tails_miss 1 handler_clone_close z = true ->
  lit handler_clone_close (done (head ++ a ++ tail))
      (snd (span is_space z)) = None ->
  loc0 (many_of is_space
          (lit handler_clone_close (done (head ++ a ++ tail)))) z.
Proof.
  intros H1 H2. apply many_loc0.
  - apply lit_locp; [apply done_loc0|exact H1].
  - reflexivity.
  - exact H2.
Qed.

(** Matches of the rule do not straddle the start of [z], except those
    of a call that is still within its first argument where [z]
    begins. *)
Lemma call_local (x z : text) :
  tails_miss 1 head z = true ->
  tails_miss 1 handler_clone_close z = true ->
  strip handler_clone_close (snd (span is_space z)) = None ->
  open_call head x = false ->
  local (call_matcher head tail) x z.
Proof.
  intros Hh Hc Hz Ho u t -> Ht. unfold call_matcher.
  apply lit_cases.
  - intros s1 E. apply some_stop.
    + intros a. apply lit_locp; [|reflexivity].
      apply call_rest_loc0; [exact Hc|]. unfold lit. now rewrite Hz.
    + apply span_not_all.
      exact (open_call_false _ _ _ _ _ Ho eq_refl Ht E).
  - intros E. apply (strip_app_stable 1 _ _ _ Hh); [|exact E].
    destruct t; [contradiction|cbn; lia].
Qed.

(** The same without the exception, before a text whose own first
    comma-free stretch is not followed by the call's ending. *)
Lemma call_loc0 (z : text) :
  tails_miss 0 head z = true ->
  tails_miss 1 handler_clone_close z = true ->
  strip handler_clone_close (snd (span is_space z)) = None ->
  (forall a,
     lit [","] (many_of is_space
                  (lit handler_clone_close (done (head ++ a ++ tail))))
         (snd (span not_comma z)) = None) ->
  loc0 (call_matcher head tail) z.
Proof.
  intros Hh Hc Hz Hn. apply lit_loc0; [|exact Hh].
  apply some_loc0; intros a.
  - apply lit_locp; [|reflexivity].
    apply call_rest_loc0; [exact Hc|]. unfold lit. now rewrite Hz.
  - reflexivity.
  - apply Hn.
Qed.

(** A call [head arg, handler.clone())] is rewritten wherever it stands:
    if an earlier call of the same kind is still within its first argument,
    that call takes it along and copies everything up to its ending. *)
Lemma call_replace (x arg ws y : text) :
  let occ := head ++ arg ++ "," :: ws ++ handler_clone_close in
  arg <> [] ->
  forallb not_comma (head ++ arg) = true ->
  forallb is_space ws = true ->
  tails_miss 1 head (occ ++ y) = true ->
  tails_miss 1 handler_clone_close (occ ++ y) = true ->
  strip handler_clone_close (snd (span is_space (occ ++ y))) = None ->
  f (x ++ occ ++ y) = f x ++ (head ++ arg ++ tail) ++ f y.
Proof.
  intros occ Harg Hnc Hws Hh Hc Hz.
  assert (Hnc' := Hnc). rewrite forallb_app in Hnc'.
  apply andb_true_iff in Hnc'. destruct Hnc' as [Hn1 Hn2].
  assert (Hspan : forall s, s <> [] -> forallb not_comma s = true ->
            call_matcher head tail
              (head ++ s ++ "," :: ws ++ handler_clone_close ++ y)
            = Some (head ++ s ++ tail, y))
    by (intros s Hne Hs; now apply call_hit).
  assert (Hocc : forall s,
            (head ++ s) ++ occ ++ y
            = head ++ (s ++ head ++ arg)
                ++ "," :: ws ++ handler_clone_close ++ y).
  { intros s. unfold occ. rewrite <- !app_assoc. cbn [app].
    now rewrite <- !app_assoc. }
  assert (Hz0 : call_matcher head tail (occ ++ y)
                = Some (head ++ arg ++ tail, y)).
  { unfold occ. rewrite <- !app_assoc. cbn [app]. rewrite <- !app_assoc.
    now apply Hspan. }
  rewrite (scan_app_swallow _ _ Hscan x (occ ++ y)
             (head ++ arg ++ tail) y).
  - now rewrite (scan_hit _ _ Hscan _ _ _ Hz0).
  - exact Hz0.
  - intros u t -> Ht.
    destruct (strip head t) as [s1|] eqn:E.
    + destruct (forallb not_comma s1) eqn:Es.
      * right. apply strip_Some in E. subst t. split.
        { rewrite Hocc, Hspan.
          - now rewrite <- !app_assoc.
          - intros En. apply app_eq_nil in En. destruct En as [_ En].
            apply app_eq_nil in En. now destruct En.
          - rewrite !forallb_app. now rewrite Es, Hn1, Hn2. }
        intros u' t' Et. apply call_needs_comma.
        assert (Hall : forallb not_comma (head ++ s1) = true)
          by (rewrite forallb_app; now rewrite Hn1, Es).
        rewrite Et, forallb_app in Hall.
        now apply andb_true_iff in Hall.
      * left. unfold call_matcher. apply lit_cases.
        { intros s1' E'. rewrite E in E'. inversion E'; subst s1'.
          apply some_stop.
          - intros a. apply lit_locp; [|reflexivity].
            apply call_rest_loc0; [exact Hc|]. unfold lit. now rewrite Hz.
          - now apply span_not_all. }
        intros E'. congruence.
    + left. unfold call_matcher. apply lit_cases.
      * intros s1 E'. congruence.
      * intros _. apply (strip_app_stable 1 _ _ _ Hh); [|exact E].
        destruct t; [contradiction|cbn; lia].
Qed.

End Call.

(** The two call texts of the scenarios, and their rewritten forms. *)
Lemma lexer_call_replace (x y : text) :
  gsub pat_lexer rep_lexer
    (x ++ T "Lexer::new(tokens, handler.clone())" ++ y)
  = gsub pat_lexer rep_lexer x
    ++ T "Lexer::new(tokens, handler.clone(), &self.interner)"
    ++ gsub pat_lexer rep_lexer y.
Proof.
  apply (call_replace _ _ _ wf_scans_lexer x (T "tokens") (T " ") y);
    first [discriminate | vm_compute; reflexivity].
Qed.

Lemma parser_call_replace (x y : text) :
  gsub pat_parser rep_parser
    (x ++ T "Parser::new(tokens, handler.clone())" ++ y)
  = gsub pat_parser rep_parser x
    ++ T "Parser::new(tokens, handler.clone(), &self.interner, &self.common)"
    ++ gsub pat_parser rep_parser y.
Proof.
  apply (call_replace _ _ _ wf_scans_parser x (T "tokens") (T " ") y);
    first [discriminate | vm_compute; reflexivity].
Qed.

(** The Parser rule passes over a rewritten Lexer call. *)
Lemma parser_frame_lexer_call (x y : text) :
  gsub pat_parser rep_parser
    (x ++ T "Lexer::new(tokens, handler.clone(), &self.interner)" ++ y)
  = gsub pat_parser rep_parser x
    ++ T "Lexer::new(tokens, handler.clone(), &self.interner)"
    ++ gsub pat_parser rep_parser y.
Proof.
  rewrite (scan_app _ _ wf_scans_parser).
  - rewrite (scan_keep _ _ wf_scans_parser); [reflexivity|].
    apply inert_check. vm_compute. reflexivity.
  - apply locp_local, loc0_locp, call_loc0; vm_compute; reflexivity.
Qed.

(** The Lexer rule passes over a Parser call, unless a Lexer call is still
    within its first argument where the Parser call begins. *)
Lemma lexer_frame_parser_call (x y : text) :
  open_call lexer_head x = false ->
  gsub pat_lexer rep_lexer
    (x ++ T "Parser::new(tokens, handler.clone())" ++ y)
  = gsub pat_lexer rep_lexer x
    ++ T "Parser::new(tokens, handler.clone())"
    ++ gsub pat_lexer rep_lexer y.
Proof.
  intros Ho. rewrite (scan_app _ _ wf_scans_lexer).
  - rewrite (scan_keep _ _ wf_scans_lexer); [reflexivity|].
    apply inert_check. vm_compute. reflexivity.
  - apply call_local; try (vm_compute; reflexivity). exact Ho.
Qed.

(** C5, as the code has it.  Every occurrence of
    [Lexer::new(tokens, handler.clone())] gets [&self.interner] as third
    argument.  Every occurrence of [Parser::new(tokens, handler.clone())]
    gets [&self.interner, &self.common], provided no [Lexer::new(] before
    it is still within its first argument (no comma since its opening
    parenthesis).  The texts around the occurrence are rewritten on their
    own. *)
Theorem call_sites_get_their_arguments (pre post : text) :
  (exists pre' post',
     fix_lexer_parser_calls pre = Some pre' /\
     fix_lexer_parser_calls post = Some post' /\
     fix_lexer_parser_calls
       (pre ++ T "Lexer::new(tokens, handler.clone())" ++ post)
     = Some (pre' ++ T "Lexer::new(tokens, handler.clone(), &self.interner)"
               ++ post')) /\
  (open_call (T "Lexer::new(") pre = false ->
   exists pre' post',
     fix_lexer_parser_calls pre = Some pre' /\
     fix_lexer_parser_calls post = Some post' /\
     fix_lexer_parser_calls
       (pre ++ T "Parser::new(tokens, handler.clone())" ++ post)
     = Some (pre'
               ++ T "Parser::new(tokens, handler.clone(), &self.interner, &self.common)"
               ++ post')).
Proof.
  split; [|intros Ho]; do 2 eexists; rewrite !fix_lexer_parser_calls_eq;
    (split; [reflexivity|]); (split; [reflexivity|]); f_equal.
  - now rewrite lexer_call_replace, parser_frame_lexer_call.
  - now rewrite (lexer_frame_parser_call _ _ Ho), parser_call_replace.
Qed.

Lemma call_sites_witness :
  open_call (T "Lexer::new(") (T "let mut parser = ") = false /\
  fix_lexer_parser_calls
    (T "let mut parser = Parser::new(tokens, handler.clone());")
  = Some (T "let mut parser = Parser::new(tokens, handler.clone(), &self.interner, &self.common);").
Proof.
  split; [reflexivity|].
  destruct (proj2 (call_sites_get_their_arguments
                     (T "let mut parser = ") (T ";")) eq_refl)
    as (pre' & post' & E1 & E2 & E).
  vm_compute in E1, E2. inversion E1; inversion E2; subst. exact E.
Defined.

(** C5 as stated fails: a Parser call in the first argument of a Lexer call
    is taken by the Lexer rule and gets one extra argument, not two. *)
Lemma parser_call_inside_lexer_call :
  occursb (T "Parser::new(tokens, handler.clone())")
          (T "Lexer::new(Parser::new(tokens, handler.clone()))") = true /\
  fix_lexer_parser_calls (T "Lexer::new(Parser::new(tokens, handler.clone()))")
  = Some (T "Lexer::new(Parser::new(tokens, handler.clone(), &self.interner))")
  /\
  occursb
    (T "Parser::new(tokens, handler.clone(), &self.interner, &self.common)")
    (T "Lexer::new(Parser::new(tokens, handler.clone(), &self.interner))")
  = false.
Proof. repeat split. Qed.

Lemma fires_matcher (pattern repl : string) (s : text) :
  well_formed pattern repl = true ->
  fires pattern s = negb (fails (matcher_of pattern repl s)).
Proof.
  intros H. destruct (well_formed_inv _ _ H) as (r & n & t & Hc & Ht & _).
  unfold fires, matcher_of, rule_matcher. rewrite Hc, Ht.
  now destruct (re_match r s) as [[g rest]|].
Qed.

Lemma call_fires (head tail s : text) :
  negb (fails (call_matcher head tail s)) = true <-> call_shape_at head s.
Proof.
  split.
  - destruct (call_matcher head tail s) as [[rp rest]|] eqn:E; [|discriminate].
    intros _. destruct (call_shape _ _ _ _ _ E) as (a & ws & -> & Ha & Hc & Hw & _).
    exists a, ws, rest. repeat split; auto.
  - intros (a & ws & rest & -> & Ha & Hc & Hw).
    change (T "," ++ ws ++ T "handler.clone())" ++ rest)
      with ("," :: ws ++ handler_clone_close ++ rest).
    now rewrite (call_hit head tail a ws rest Ha Hc Hw).
Qed.

(** C10 as stated fails: the first argument of this call contains a comma,
    and the call is rewritten all the same, inside that argument. *)
Lemma call_with_comma_in_first_argument_is_rewritten :
  fix_lexer_parser_calls
    (T "Lexer::new(wrap(src, handler.clone()), handler.clone())")
  = Some
      (T "Lexer::new(wrap(src, handler.clone(), &self.interner), handler.clone())").
Proof. reflexivity. Qed.

(* ================================================================== *)
(** ** The driver *)

Lemma pipeline_as_run_eq (content : text) :
  pipeline_as_run content =
  Some (gsub pat_lookup rep_lookup (gsub pat_one rep_one (gsub pat_two rep_two
         (gsub pat_parser rep_parser (gsub pat_lexer rep_lexer
           (gsub pat_impl rep_impl
             (gsub pat_init rep_init (gsub old_sig new_sig
               (gsub pat_anchor rep_anchor
                 (gsub pat_struct rep_struct content)))))))))).
Proof.
  unfold pipeline_as_run.
  rewrite add_interner_to_struct_eq. cbn [opt_bind].
  rewrite update_constructor_eq. cbn [opt_bind].
  rewrite fix_impl_block_eq. cbn [opt_bind].
  rewrite fix_lexer_parser_calls_eq. cbn [opt_bind].
  now rewrite fix_stringid_conversions_eq.
Qed.

(** A run on a world that has the input file completes: it prints the seven
    lines and leaves the pipeline's output in the file. *)
Lemma main_run (w : world) (content out : text) :
  files w input_file = Some content ->
  pipeline_as_run content = Some out ->
  main w =
  (inr tt,
   World (fun p => if String.eqb p input_file then Some out else files w p)
         (stdout w ++ progress_lines)).
Proof.
  intros Hf Hp. rewrite pipeline_as_run_eq in Hp. inversion Hp as [Ho].
  unfold main, io_bind, read_file, print, stage, write_file.
  rewrite Hf. cbn [files stdout].
  rewrite add_interner_to_struct_eq, update_constructor_eq, fix_impl_block_eq,
    fix_lexer_parser_calls_eq, fix_stringid_conversions_eq.
  cbn [files stdout]. rewrite <- !app_assoc. reflexivity.
Qed.

(* ================================================================== *)
(** ** What a literal rule cannot bring about *)

Lemma prefixb_strip (p s : text) :
  prefixb p s = negb (fails (lit p (done []) s)).
Proof.
  unfold lit, done. revert s.
  induction p as [|a p IH]; intros [|b s]; cbn; try reflexivity.
  destruct (Ascii.eqb a b); cbn; [apply IH|reflexivity].
Qed.

Lemma strip_prefixb (p s : text) :
  prefixb p s = true <-> exists r, strip p s = Some r.
Proof.
  rewrite prefixb_strip. unfold lit, done.
  destruct (strip p s) as [r|]; cbn; split; eauto; try discriminate.
  now intros [r Hr].
Qed.

Lemma occursb_tail (q u t : text) :
  occursb q t = true -> occursb q (u ++ t) = true.
Proof.
  induction u as [|c u IH]; intros H; [exact H|].
  cbn [app occursb]. rewrite (IH H). apply orb_true_r.
Qed.

Lemma untouched_cons (q : text) (c : ascii) (rp : text) :
  untouched q (c :: rp) = true ->
  clash q (c :: rp) = true /\ untouched q rp = true.
Proof.
  unfold untouched. intros H. split.
  - apply (forallb_seq _ _ _ 0 H). cbn. lia.
  - apply forallb_forall. intros j Hj. apply in_seq in Hj.
    apply (forallb_seq _ _ _ (S j) H). cbn [length]. lia.
Qed.

(** An occurrence of [q] in [rp ++ z] lies in [z] when [q] cannot begin
    inside [rp]. *)
Lemma occursb_skip (q rp z : text) :
  untouched q rp = true -> occursb q (rp ++ z) = occursb q z.
Proof.
  induction rp as [|c rp IH]; intros H; [reflexivity|].
  destruct (untouched_cons _ _ _ H) as [H0 H1].
  cbn [app occursb]. rewrite (IH H1).
  replace (prefixb q (c :: rp ++ z)) with false; [reflexivity|].
  symmetry. rewrite prefixb_strip. unfold lit.
  change (c :: rp ++ z) with ((c :: rp) ++ z).
  now rewrite (clash_strip _ _ z H0).
Qed.

Section LiteralEffects.

Variables (p rp : text) (f : text -> text).
Hypothesis Hscan : scans (lit_matcher p rp) f.

(** If a tail of [q] begins the output, it begins the input, when the
    replacement cannot begin inside [q]. *)
Lemma lit_prefix_stable (q : text) :
  untouched rp q = true ->
  forall s j r, j < length q ->
    strip (skipn j q) (f s) = Some r ->
    exists r', strip (skipn j q) s = Some r'.
Proof.
  intros Hq. induction s as [|c s IH]; intros j r Hj H.
  - rewrite (scan_nil _ _ Hscan) in H.
    destruct (skipn j q) as [|x v] eqn:E; [|discriminate].
    apply (f_equal (@length ascii)) in E. rewrite length_skipn in E.
    cbn in E. lia.
  - destruct (lit_matcher p rp (c :: s)) as [[rp' rest]|] eqn:Em.
    + rewrite (scan_hit _ _ Hscan _ _ _ Em) in H.
      unfold lit_matcher in Em.
      destruct (strip p (c :: s)); [|discriminate]. inversion Em; subst.
      assert (Hc : clash rp' (skipn j q) = true)
        by (apply (forallb_seq _ _ _ _ Hq); lia).
      rewrite clash_sym in Hc. rewrite (clash_strip _ _ _ Hc) in H.
      discriminate.
    + rewrite (scan_miss _ _ Hscan _ _ Em) in H.
      destruct (skipn j q) as [|x v] eqn:E.
      { apply (f_equal (@length ascii)) in E. rewrite length_skipn in E.
        cbn in E. lia. }
      cbn [strip] in *. destruct (Ascii.eqb x c); [|discriminate].
      assert (Ev : skipn (S j) q = v).
      { replace (S j) with (1 + j) by lia.
        rewrite <- skipn_skipn, E. reflexivity. }
      destruct v as [|y v']; [cbn; eauto|].
      assert (Hj' : S j < length q).
      { apply (f_equal (@length ascii)) in Ev. rewrite length_skipn in Ev.
        cbn in Ev. lia. }
      rewrite <- Ev. apply (IH (S j) r Hj'). rewrite Ev. exact H.
Qed.

Lemma lit_head_stable (q s : text) :
  q <> [] -> untouched rp q = true ->
  prefixb q (f s) = true -> prefixb q s = true.
Proof.
  intros Hne Hq H. apply strip_prefixb in H. destruct H as [r H].
  apply strip_prefixb.
  apply (lit_prefix_stable q Hq s 0 r); [|exact H].
  destruct q; [contradiction|cbn; lia].
Qed.

(** The rule creates no occurrence of a text that cannot overlap the
    replacement. *)
Lemma lit_no_new_occurrence (q s : text) :
  q <> [] -> apart q rp = true ->
  occursb q (f s) = true -> occursb q s = true.
Proof.
  intros Hne Ha. apply andb_true_iff in Ha. destruct Ha as [H1 H2].
  remember (length s) as n eqn:Hn. revert s Hn.
  induction n as [n IH] using lt_wf_ind. intros s Hn H.
  destruct s as [|c s].
  - now rewrite (scan_nil _ _ Hscan) in H.
  - destruct (lit_matcher p rp (c :: s)) as [[rp' rest]|] eqn:Em.
    + rewrite (scan_hit _ _ Hscan _ _ _ Em) in H.
      destruct (scan_productive _ _ Hscan _ _ _ Em) as (c0 & u & Hs).
      unfold lit_matcher in Em.
      destruct (strip p (c :: s)); [|discriminate]. inversion Em; subst rp' t.
      rewrite (occursb_skip _ _ _ H1) in H.
      rewrite Hs. change (c0 :: u ++ rest) with ((c0 :: u) ++ rest).
      apply occursb_tail. apply (IH (length rest)); [|reflexivity|exact H].
      subst n. rewrite Hs. cbn [length]. rewrite length_app. lia.
    + rewrite (scan_miss _ _ Hscan _ _ Em) in H.
      cbn [occursb] in H. apply orb_true_iff in H. destruct H as [H|H].
      * cbn [occursb].
        rewrite <- (scan_miss _ _ Hscan _ _ Em) in H.
        now rewrite (lit_head_stable q (c :: s) Hne H2 H).
      * cbn [occursb].
        rewrite (IH (length s)) with (s := s);
          [apply orb_true_r|subst n; cbn; lia|reflexivity|exact H].
Qed.

(** After the rule has run, its own pattern occurs nowhere, when pattern
    and replacement cannot overlap. *)
Lemma lit_none_left (s : text) :
  p <> [] -> apart p rp = true -> occursb p (f s) = false.
Proof.
  intros Hne Ha. assert (Ha' := Ha).
  apply andb_true_iff in Ha'. destruct Ha' as [H1 H2].
  remember (length s) as n eqn:Hn. revert s Hn.
  induction n as [n IH] using lt_wf_ind. intros s Hn.
  destruct s as [|c s].
  - rewrite (scan_nil _ _ Hscan). destruct p; [contradiction|reflexivity].
  - destruct (lit_matcher p rp (c :: s)) as [[rp' rest]|] eqn:Em.
    + rewrite (scan_hit _ _ Hscan _ _ _ Em).
      destruct (scan_productive _ _ Hscan _ _ _ Em) as (c0 & u & Hs).
      unfold lit_matcher in Em.
      destruct (strip p (c :: s)); [|discriminate]. inversion Em; subst rp' t.
      rewrite (occursb_skip _ _ _ H1).
      apply (IH (length rest)); [|reflexivity].
      subst n. rewrite Hs. cbn [length]. rewrite length_app. lia.
    + rewrite (scan_miss _ _ Hscan _ _ Em). cbn [occursb].
      rewrite (IH (length s)) by (subst n; cbn; lia || reflexivity).
      rewrite orb_false_r.
      destruct (prefixb p (c :: f s)) eqn:E; [|reflexivity].
      rewrite <- (scan_miss _ _ Hscan _ _ Em) in E.
      apply (lit_head_stable p (c :: s) Hne H2) in E.
      apply strip_prefixb in E. destruct E as [r E].
      unfold lit_matcher in Em. now rewrite E in Em.
Qed.

(** Where the pattern does not occur, the rule changes nothing. *)
Lemma lit_absent_id (s : text) : occursb p s = false -> f s = s.
Proof.
  intros H. apply (scan_id _ _ Hscan). intros u t ->.
  unfold lit_matcher. destruct (strip p t) as [r|] eqn:E; [|reflexivity].
  assert (Ho : occursb p (u ++ t) = true).
  { apply occursb_tail. destruct t; cbn [occursb];
      (replace (prefixb p _) with true
         by (symmetry; apply strip_prefixb; eauto)); reflexivity. }
  congruence.
Qed.

End LiteralEffects.

(* ================================================================== *)
(** ** Struct Augmentation applied twice *)

Lemma struct_header_gone (s : text) :
  occursb struct_header
    (gsub pat_anchor rep_anchor (gsub pat_struct rep_struct s)) = false.
Proof.
  destruct (occursb struct_header
              (gsub pat_anchor rep_anchor (gsub pat_struct rep_struct s)))
    eqn:E; [|reflexivity].
  apply (lit_no_new_occurrence _ _ _ anchor_scans) in E;
    [|discriminate|vm_compute; reflexivity].
  rewrite (lit_none_left _ _ _ struct_scans) in E;
    [discriminate|discriminate|vm_compute; reflexivity].
Qed.

(** The anchor rule passes over the two field lines. *)
Lemma anchor_frame_fields (y : text) :
  gsub pat_anchor rep_anchor ((interner_line ++ common_line) ++ y)
  = (interner_line ++ common_line) ++ gsub pat_anchor rep_anchor y.
Proof.
  change (gsub pat_anchor rep_anchor ((interner_line ++ common_line) ++ y))
    with (gsub pat_anchor rep_anchor
            ([] ++ (interner_line ++ common_line) ++ y)).
  rewrite (lit_frame _ _ _ anchor_scans) by (vm_compute; reflexivity).
  now rewrite (scan_nil _ _ anchor_scans).
Qed.

(** C2, as the code has it.  The output of the stage never contains the
    unmarked header, so a second application leaves every header as the
    first one marked it (the header rule returns the text unchanged); what
    it does again is insert the two field lines after every anchor line, so
    that an anchor line of the input is followed by four field lines after
    two applications. *)
Theorem second_struct_augmentation (a c : text) :
  (forall x, exists y,
     add_interner_to_struct x = Some y /\
     occursb struct_header y = false /\
     re_sub pat_struct rep_struct y = Some y) /\
  (exists p q p2 q2,
     add_interner_to_struct (a ++ anchor_line ++ c)
     = Some (p ++ anchor_line ++ interner_line ++ common_line ++ q) /\
     re_sub pat_anchor rep_anchor p = Some p2 /\
     re_sub pat_anchor rep_anchor q = Some q2 /\
     add_interner_to_struct
       (p ++ anchor_line ++ interner_line ++ common_line ++ q)
     = Some (p2 ++ anchor_line ++ interner_line ++ common_line
               ++ interner_line ++ common_line ++ q2)).
Proof.
  assert (H1 : forall x,
            gsub pat_struct rep_struct
              (gsub pat_anchor rep_anchor (gsub pat_struct rep_struct x))
            = gsub pat_anchor rep_anchor (gsub pat_struct rep_struct x)).
  { intros x. apply (lit_absent_id _ _ _ struct_scans).
    apply struct_header_gone. }
  split.
  - intros x. eexists. rewrite add_interner_to_struct_eq.
    split; [reflexivity|]. split; [apply struct_header_gone|].
    now rewrite (re_sub_gsub _ _ _ wf_struct), H1.
  - exists (gsub pat_anchor rep_anchor (gsub pat_struct rep_struct a)),
           (gsub pat_anchor rep_anchor (gsub pat_struct rep_struct c)).
    do 2 eexists.
    assert (E : gsub pat_anchor rep_anchor
                  (gsub pat_struct rep_struct (a ++ anchor_line ++ c))
                = gsub pat_anchor rep_anchor (gsub pat_struct rep_struct a)
                  ++ anchor_line ++ interner_line ++ common_line
                  ++ gsub pat_anchor rep_anchor (gsub pat_struct rep_struct c)).
    { rewrite struct_frame_anchor, anchor_replace.
      now rewrite <- !app_assoc. }
    split; [now rewrite add_interner_to_struct_eq, E|].
    split; [apply (re_sub_gsub _ _ _ wf_anchor)|].
    split; [apply (re_sub_gsub _ _ _ wf_anchor)|].
    rewrite add_interner_to_struct_eq, <- E, H1, E.
    rewrite anchor_replace.
    replace (interner_line ++ common_line
               ++ gsub pat_anchor rep_anchor (gsub pat_struct rep_struct c))
      with ((interner_line ++ common_line)
              ++ gsub pat_anchor rep_anchor (gsub pat_struct rep_struct c))
      by (now rewrite <- app_assoc).
    rewrite anchor_frame_fields. now rewrite <- !app_assoc.
Qed.

(** C2 as stated fails: on the output of a first application, the second
    one inserts the field lines again but does not mark the header again. *)
Lemma second_application_keeps_single_marker :
  add_interner_to_struct
    (struct_header ++ [newline] ++ anchor_line ++ T "}")
  = Some (struct_header' ++ [newline] ++ anchor_line
            ++ interner_line ++ common_line ++ T "}") /\
  add_interner_to_struct
    (struct_header' ++ [newline] ++ anchor_line
       ++ interner_line ++ common_line ++ T "}")
  = Some (struct_header' ++ [newline] ++ anchor_line
            ++ interner_line ++ common_line
            ++ interner_line ++ common_line ++ T "}") /\
  occursb (T "pub struct TypeChecker<'a><'a> {")
    (struct_header' ++ [newline] ++ anchor_line
       ++ interner_line ++ common_line
       ++ interner_line ++ common_line ++ T "}") = false.
Proof. repeat split. Qed.

(* ================================================================== *)
(** ** The order of the stages *)


(* ================================================================== *)
(** ** A literal rule and another rule in either order *)

(** If a tail of [q] begins the output of a scan, it begins the input, when
    no replacement of the rule can begin with a tail of [q]. *)
Lemma scan_prefix_stable (m : matcher) (f : text -> text) (q : text) :
  scans m f ->
  (forall s r rest j z, m s = Some (r, rest) -> j < length q ->
     strip (skipn j q) (r ++ z) = None) ->
  forall s j r, j < length q ->
    strip (skipn j q) (f s) = Some r ->
    exists r', strip (skipn j q) s = Some r'.
Proof.
  intros Hs Hq. induction s as [|c s IH]; intros j r Hj H.
  - rewrite (scan_nil _ _ Hs) in H.
    destruct (skipn j q) as [|x v] eqn:E; [|discriminate].
    apply (f_equal (@length ascii)) in E. rewrite length_skipn in E.
    cbn in E. lia.
  - destruct (m (c :: s)) as [[rp' rest]|] eqn:Em.
    + rewrite (scan_hit _ _ Hs _ _ _ Em) in H.
      rewrite (Hq _ _ _ j _ Em Hj) in H. discriminate.
    + rewrite (scan_miss _ _ Hs _ _ Em) in H.
      destruct (skipn j q) as [|x v] eqn:E.
      { apply (f_equal (@length ascii)) in E. rewrite length_skipn in E.
        cbn in E. lia. }
      cbn [strip] in *. destruct (Ascii.eqb x c); [|discriminate].
      assert (Ev : skipn (S j) q = v).
      { replace (S j) with (1 + j) by lia.
        rewrite <- skipn_skipn, E. reflexivity. }
      destruct v as [|y v']; [cbn; eauto|].
      assert (Hj' : S j < length q).
      { apply (f_equal (@length ascii)) in Ev. rewrite length_skipn in Ev.
        cbn in Ev. lia. }
      rewrite <- Ev. apply (IH (S j) r Hj'). rewrite Ev. exact H.
Qed.

(** Replacements that begin with [rhead] cannot begin with a tail of [q]
    when [rhead] clashes with every tail of [q]. *)
Lemma head_clashes (q rhead r' z : text) (j : nat) :
  untouched rhead q = true -> j < length q ->
  strip (skipn j q) ((rhead ++ r') ++ z) = None.
Proof.
  intros H Hj. rewrite <- app_assoc. apply clash_strip.
  rewrite clash_sym. apply (forallb_seq _ _ _ _ H). lia.
Qed.

Section Commute.

Variables (p rp : text) (fI : text -> text).
Variables (mR : matcher) (fR : text -> text).
Hypothesis HI : scans (lit_matcher p rp) fI.
Hypothesis HR : scans mR fR.
Hypothesis Hp : p <> [].

(** The other rule sees the rewritten text as it sees the text. *)
Hypothesis Hmirror : forall s,
  mR (fI s) = match mR s with
              | Some (r, rest) => Some (fI r, fI rest)
              | None => None
              end.
(** The literal does not straddle the end of a replacement. *)
Hypothesis Hrep : forall s r rest z,
  mR s = Some (r, rest) -> fI (r ++ z) = fI r ++ fI z.
(** The other rule does not start inside the literal or its replacement. *)
Hypothesis Hinert : forall y, inert mR p y /\ inert mR rp y.
(** The other rule does not complete an occurrence of the literal. *)
Hypothesis Hstable : forall s, prefixb p (fR s) = true -> prefixb p s = true.

Lemma scans_commute (s : text) : fI (fR s) = fR (fI s).
Proof.
  remember (length s) as n eqn:Hn. revert s Hn.
  induction n as [n IH] using lt_wf_ind. intros s Hn.
  destruct s as [|c s].
  - now rewrite (scan_nil _ _ HI), (scan_nil _ _ HR), (scan_nil _ _ HI).
  - destruct (mR (c :: s)) as [[r rest]|] eqn:Em.
    + pose proof (Hmirror (c :: s)) as Hm. rewrite Em in Hm.
      destruct (scan_productive _ _ HR _ _ _ Em) as (c0 & u & Hs).
      rewrite (scan_hit _ _ HR _ _ _ Em), (scan_hit _ _ HR _ _ _ Hm).
      rewrite (Hrep _ _ _ _ Em). f_equal.
      apply (IH (length rest)); [|reflexivity].
      subst n. rewrite Hs. cbn [length]. rewrite length_app. lia.
    + pose proof (Hmirror (c :: s)) as Hm. rewrite Em in Hm.
      destruct (strip p (c :: s)) as [rest|] eqn:Ep.
      * apply strip_Some in Ep. rewrite Ep.
        rewrite (scan_keep _ _ HR) by apply Hinert.
        rewrite !(scan_hit _ _ HI _ _ _ (lit_hit p rp _)).
        rewrite (scan_keep _ _ HR) by apply Hinert.
        f_equal. apply (IH (length rest)); [|reflexivity].
        subst n. rewrite Ep, length_app. destruct p; [contradiction|].
        cbn [length]. lia.
      * assert (Ei : lit_matcher p rp (c :: s) = None)
          by (unfold lit_matcher; now rewrite Ep).
        rewrite (scan_miss _ _ HR _ _ Em).
        rewrite (scan_miss _ _ HI _ _ Ei) in Hm |- *.
        rewrite (scan_miss _ _ HR _ _ Hm).
        assert (Eo : lit_matcher p rp (c :: fR s) = None).
        { unfold lit_matcher.
          destruct (strip p (c :: fR s)) as [r|] eqn:E; [|reflexivity].
          assert (Hpre : prefixb p (fR (c :: s)) = true).
          { rewrite (scan_miss _ _ HR _ _ Em).
            apply strip_prefixb. eauto. }
          apply Hstable, strip_prefixb in Hpre.
          destruct Hpre as [r' Hr']. congruence. }
        rewrite (scan_miss _ _ HI _ _ Eo). f_equal.
        apply (IH (length s)); [subst n; cbn; lia|reflexivity].
Qed.

End Commute.

Section LiteralMore.

Variables (p rp : text) (f : text -> text).
Hypothesis Hscan : scans (lit_matcher p rp) f.

(** The literal does not straddle the end of a text whose last character
    it does not contain. *)
Lemma lit_local_last (x0 : text) (d : ascii) (z : text) :
  existsb (Ascii.eqb d) p = false ->
  local (lit_matcher p rp) (x0 ++ [d]) z.
Proof.
  intros Hd u t E Ht. unfold lit_matcher.
  destruct (strip p t) as [r|] eqn:Es.
  - now rewrite (strip_app_Some _ _ _ _ Es).
  - destruct (strip p (t ++ z)) as [r|] eqn:Es'; [|reflexivity].
    exfalso. destruct (strip_app_None _ _ _ _ Es Es') as (v & Hv & Hpv & _).
    assert (Hin : In d t).
    { destruct (exists_last Ht) as (t0 & d0 & ->).
      rewrite app_assoc in E. apply app_inj_tail in E. destruct E as [_ <-].
      apply in_or_app. right. now left. }
    assert (Hinp : In d p) by (rewrite Hpv; apply in_or_app; now left).
    assert (Hex : existsb (Ascii.eqb d) p = true).
    { apply existsb_exists. exists d. split; [exact Hinp|].
      apply Ascii.eqb_refl. }
    congruence.
Qed.

Lemma lit_app_last (x0 : text) (d : ascii) (z : text) :
  existsb (Ascii.eqb d) p = false ->
  f ((x0 ++ [d]) ++ z) = f (x0 ++ [d]) ++ f z.
Proof.
  intros Hd. apply (scan_app _ _ Hscan). now apply lit_local_last.
Qed.

(** A literal apart from pattern and replacement begins the output exactly
    when it begins the input, and the rest is the rewritten rest. *)
Lemma lit_strip_mirror (q s : text) :
  q <> [] -> untouched p q = true -> untouched rp q = true ->
  strip q (f s) = option_map f (strip q s).
Proof.
  intros Hq H1 H2. destruct (strip q s) as [r|] eqn:E; cbn [option_map].
  - apply strip_Some in E. subst s.
    rewrite (scan_keep _ _ Hscan) by now apply lit_inert.
    apply strip_app.
  - destruct (strip q (f s)) as [r|] eqn:E'; [|reflexivity].
    destruct (lit_prefix_stable _ _ _ Hscan q H2 s 0 r) as [r' Hr'].
    + destruct q; [contradiction|cbn; lia].
    + exact E'.
    + cbn [skipn] in Hr'. congruence.
Qed.

(** A text without a character of the pattern is left as it is. *)
Lemma lit_id_without (d : ascii) (x : text) :
  existsb (Ascii.eqb d) p = true ->
  forallb (fun c => negb (Ascii.eqb d c)) x = true ->
  f x = x.
Proof.
  intros Hd Hx. apply (scan_id _ _ Hscan). intros u t ->.
  unfold lit_matcher. destruct (strip p t) as [r|] eqn:E; [|reflexivity].
  exfalso. apply strip_Some in E. subst t.
  apply existsb_exists in Hd. destruct Hd as (c & Hc & Ec).
  apply Ascii.eqb_eq in Ec. subst c.
  rewrite !forallb_app in Hx.
  apply andb_true_iff in Hx. destruct Hx as [_ Hx].
  apply andb_true_iff in Hx. destruct Hx as [Hx _].
  rewrite forallb_forall in Hx. specialize (Hx d Hc).
  now rewrite Ascii.eqb_refl in Hx.
Qed.

(** The rule keeps a property that all characters of the replacement
    have. *)
Lemma lit_keeps (P : ascii -> bool) (x : text) :
  forallb P rp = true -> forallb P x = true -> forallb P (f x) = true.
Proof.
  intros Hrp. remember (length x) as n eqn:Hn. revert x Hn.
  induction n as [n IH] using lt_wf_ind. intros x Hn Hx.
  destruct x as [|c x]; [now rewrite (scan_nil _ _ Hscan)|].
  destruct (lit_matcher p rp (c :: x)) as [[r rest]|] eqn:Em.
  - rewrite (scan_hit _ _ Hscan _ _ _ Em).
    destruct (scan_productive _ _ Hscan _ _ _ Em) as (c0 & u & Hs).
    unfold lit_matcher in Em. destruct (strip p (c :: x)); [|discriminate].
    inversion Em; subst r t.
    rewrite forallb_app, Hrp. cbn [andb].
    apply (IH (length rest)); [|reflexivity|].
    + subst n. rewrite Hs. cbn [length]. rewrite length_app. lia.
    + rewrite Hs in Hx. change (c0 :: u ++ rest) with ((c0 :: u) ++ rest) in Hx.
      rewrite forallb_app in Hx. now apply andb_true_iff in Hx.
  - rewrite (scan_miss _ _ Hscan _ _ Em). cbn [forallb] in *.
    apply andb_true_iff in Hx. destruct Hx as [Hc Hx]. rewrite Hc.
    apply (IH (length x)); [subst n; cbn; lia|reflexivity|exact Hx].
Qed.

Lemma lit_nonempty (x : text) : rp <> [] -> x <> [] -> f x <> [].
Proof.
  intros Hrp Hx. destruct x as [|c x]; [contradiction|].
  destruct (lit_matcher p rp (c :: x)) as [[r rest]|] eqn:Em.
  - rewrite (scan_hit _ _ Hscan _ _ _ Em).
    unfold lit_matcher in Em. destruct (strip p (c :: x)); [|discriminate].
    inversion Em; subst. destruct r; [contradiction|discriminate].
  - rewrite (scan_miss _ _ Hscan _ _ Em). discriminate.
Qed.

(** The first character of the output has a class that neither the first
    character of the input nor that of the replacement has. *)
Lemma lit_head_outside (P : ascii -> bool) (d : ascii) (r : text) :
  (match rp with [] => false | e :: _ => negb (P e) end) = true ->
  P d = false ->
  match f (d :: r) with
  | [] => False
  | d' :: _ => P d' = false
  end.
Proof.
  intros Hrp Hd.
  destruct (lit_matcher p rp (d :: r)) as [[r' rest]|] eqn:Em.
  - rewrite (scan_hit _ _ Hscan _ _ _ Em).
    unfold lit_matcher in Em. destruct (strip p (d :: r)); [|discriminate].
    inversion Em; subst. destruct r' as [|e r']; [discriminate|].
    cbn. now apply negb_true_iff.
  - now rewrite (scan_miss _ _ Hscan _ _ Em).
Qed.

(** A run of characters that cannot begin the pattern is copied. *)
Lemma lit_keep_run (P : ascii -> bool) (ws y : text) :
  (match p with [] => false | e :: _ => negb (P e) end) = true ->
  forallb P ws = true -> f (ws ++ y) = ws ++ f y.
Proof.
  intros Hp Hws. apply (scan_keep _ _ Hscan). intros u t -> Ht.
  rewrite forallb_app in Hws. apply andb_true_iff in Hws.
  destruct Hws as [_ Hws]. destruct t as [|c t]; [contradiction|].
  cbn in Hws. apply andb_true_iff in Hws. destruct Hws as [Hc _].
  unfold lit_matcher. destruct p as [|e p']; [discriminate|].
  cbn. destruct (Ascii.eqb_spec e c); [|reflexivity].
  subst. apply negb_true_iff in Hp. congruence.
Qed.

End LiteralMore.

(* ------------------------------------------------------------------ *)
(** *** Rules that see a rewritten text as they see the text *)

Lemma done_mirrors (f : text -> text) (r r' : text) :
  f r = r' -> mirrors f (done r) (done r').
Proof. intros <- s. reflexivity. Qed.

Section Mirrors.

Variables (p rp : text) (f : text -> text).
Hypothesis Hscan : scans (lit_matcher p rp) f.

Lemma lit_mirrors (q : text) (k k' : matcher) :
  q <> [] -> untouched p q = true -> untouched rp q = true ->
  mirrors f k k' -> mirrors f (lit q k) (lit q k').
Proof.
  intros Hq H1 H2 Hk s. unfold lit.
  rewrite (lit_strip_mirror _ _ _ Hscan q s Hq H1 H2).
  destruct (strip q s); cbn [option_map]; [apply Hk|reflexivity].
Qed.

Lemma one_of_mirrors (ls : list text) (k k' : text -> matcher) :
  Forall (fun q => q <> [] /\ untouched p q = true /\ untouched rp q = true
                   /\ mirrors f (k q) (k' q)) ls ->
  mirrors f (one_of ls k) (one_of ls k').
Proof.
  induction 1 as [|q ls (Hq & H1 & H2 & Hk) _ IH]; intros s; cbn [one_of];
    [reflexivity|].
  rewrite (lit_strip_mirror _ _ _ Hscan q s Hq H1 H2).
  destruct (strip q s); cbn [option_map]; [apply Hk|apply IH].
Qed.

Lemma many_mirrors (P : ascii -> bool) (k k' : matcher) :
  (match p with [] => false | e :: _ => negb (P e) end) = true ->
  (match rp with [] => false | e :: _ => negb (P e) end) = true ->
  mirrors f k k' -> mirrors f (many_of P k) (many_of P k').
Proof.
  intros Hp Hrp Hk s. unfold many_of.
  destruct (span P s) as [ws r] eqn:E.
  destruct (span_spec _ _ _ _ E) as (-> & Hws & Hr). cbn [snd].
  rewrite (lit_keep_run _ _ _ Hscan P ws r Hp Hws).
  assert (Es : span P (ws ++ f r) = (ws, f r)).
  { destruct r as [|d r].
    - rewrite (scan_nil _ _ Hscan), app_nil_r. now apply span_all.
    - pose proof (lit_head_outside _ _ _ Hscan P d r Hrp Hr) as Hh.
      destruct (f (d :: r)) as [|d' X]; [contradiction|].
      now apply span_stop. }
  rewrite Es. cbn [snd]. apply Hk.
Qed.

(** A rule that begins with a literal does not start where the literal
    cannot. *)
Lemma lit_head_inert (head : text) (k : matcher) (mid y : text) :
  untouched head mid = true -> inert (lit head k) mid y.
Proof.
  intros Hu u t -> Ht. unfold lit.
  assert (Hc : clash head (skipn (length u) (u ++ t)) = true).
  { apply (forallb_seq _ _ _ _ Hu). rewrite length_app.
    destruct t; [contradiction|]. cbn [length]. lia. }
  rewrite skipn_app_length in Hc. now rewrite (clash_strip _ _ y Hc).
Qed.

End Mirrors.

(* ------------------------------------------------------------------ *)
(** *** The impl rule against the rules of stages 4.3 and 4.4 *)

Lemma class_without_space (P : ascii -> bool) (x : text) :
  P " " = false -> forallb P x = true ->
  forallb (fun c => negb (Ascii.eqb " " c)) x = true.
Proof.
  intros Hs Hx. apply forallb_forall. intros c Hc.
  rewrite forallb_forall in Hx. specialize (Hx c Hc).
  destruct (Ascii.eqb_spec " " c); [subst; congruence|reflexivity].
Qed.

(** A text without a space has no impl header. *)
Lemma impl_id_nospace (x : text) :
  forallb (fun c => negb (Ascii.eqb " " c)) x = true ->
  gsub pat_impl rep_impl x = x.
Proof. apply (lit_id_without _ _ _ impl_scans " "). reflexivity. Qed.

(** Where a run of a class that has [impl] but neither the space nor [<]
    ends, the impl rule leaves the run, and the character after it stays
    outside the class: it is kept, or a space becomes [<]. *)
Lemma impl_run_boundary (P : ascii -> bool) (w : text) (d : ascii)
    (r1 : text) :
  forallb P (T "impl") = true -> P " " = false -> P "<" = false ->
  forallb P w = true -> P d = false ->
  exists d' X,
    gsub pat_impl rep_impl (w ++ d :: r1) = w ++ d' :: X /\ P d' = false /\
    (d = "." -> d' = "." /\ X = gsub pat_impl rep_impl r1) /\
    (d <> "." -> d' <> ".").
Proof.
  intros Hi Hs Hl Hw Hd. induction w as [|c w IH].
  - cbn [app].
    assert (Em : lit_matcher impl_header impl_header' (d :: r1) = None).
    { unfold lit_matcher.
      change (strip impl_header (d :: r1))
        with (if Ascii.eqb "i" d then strip (T "mpl TypeChecker {") r1
              else None).
      destruct (Ascii.eqb_spec "i" d); [|reflexivity].
      subst d. cbn in Hi. rewrite Hd in Hi. discriminate. }
    rewrite (scan_miss _ _ impl_scans _ _ Em).
    exists d, (gsub pat_impl rep_impl r1).
    split; [reflexivity|]. split; [exact Hd|]. split; auto.
  - pose proof Hw as Hw0.
    cbn in Hw. apply andb_true_iff in Hw. destruct Hw as [Hc Hw].
    destruct (lit_matcher impl_header impl_header' ((c :: w) ++ d :: r1))
      as [[r rest]|] eqn:Em.
    + rewrite (scan_hit _ _ impl_scans _ _ _ Em).
      unfold lit_matcher in Em.
      destruct (strip impl_header ((c :: w) ++ d :: r1)) as [rest'|] eqn:Es;
        [|discriminate].
      inversion Em; subst r rest'. clear Em.
      rewrite (strip_run_step P) in Es by assumption.
      assert (Esp : span P impl_header = (T "impl", " " :: T "TypeChecker {")).
      { change impl_header with (T "impl" ++ " " :: T "TypeChecker {").
        now apply span_stop. }
      rewrite Esp in Es.
      destruct (text_eqb (T "impl") (c :: w)) eqn:Et; [|discriminate].
      apply text_eqb_eq in Et.
      destruct (Ascii.eqb_spec " " d) as [<-|]; [|discriminate].
      rewrite <- Et.
      exists "<", (T "'a> TypeChecker<'a> {" ++ gsub pat_impl rep_impl rest).
      split; [reflexivity|]. split; [exact Hl|].
      split; [intros; discriminate|intros _; discriminate].
    + change ((c :: w) ++ d :: r1) with (c :: (w ++ d :: r1)) in Em |- *.
      rewrite (scan_miss _ _ impl_scans _ _ Em).
      destruct (IH Hw) as (d' & X & E & H1 & H2 & H3).
      exists d', X. rewrite E. repeat split; auto; now apply H2.
Qed.

(** A rule that reads a run of such a class and then a dot. *)
Lemma impl_some_dot_mirrors (P : ascii -> bool) (q : text)
    (k k' : text -> matcher) :
  forallb P (T "impl") = true -> P " " = false -> P "<" = false ->
  (forall a, forallb P a = true ->
     mirrors (gsub pat_impl rep_impl) (lit q (k a)) (lit q (k' a))) ->
  mirrors (gsub pat_impl rep_impl)
    (some_of P (fun a => lit ("." :: q) (k a)))
    (some_of P (fun a => lit ("." :: q) (k' a))).
Proof.
  intros Hi Hs Hl Hk s. unfold some_of.
  destruct (span P s) as [w r] eqn:E.
  destruct (span_spec _ _ _ _ E) as (-> & Hw & Hr).
  destruct r as [|d r1].
  - rewrite app_nil_r.
    rewrite (impl_id_nospace w (class_without_space P w Hs Hw)).
    rewrite (span_all _ _ Hw). destruct w; reflexivity.
  - destruct (impl_run_boundary P w d r1 Hi Hs Hl Hw Hr)
      as (d' & X & EfI & Hd' & H1 & H2).
    rewrite EfI. rewrite (span_stop _ _ _ _ Hw Hd').
    destruct w as [|c w]; [reflexivity|].
    pose proof (Hk (c :: w) Hw r1) as Hk1.
    unfold lit in *. cbn [strip].
    destruct (Ascii.eqb_spec "." d) as [<-|Hn].
    + destruct (H1 eq_refl) as [-> ->]. rewrite Ascii.eqb_refl. exact Hk1.
    + destruct (Ascii.eqb_spec "." d') as [<-|_]; [|reflexivity].
      exfalso. apply H2; [|reflexivity]. intros e. apply Hn. now rewrite e.
Qed.

Lemma lit_nil_mirrors (f : text -> text) (k k' : matcher) :
  mirrors f k k' -> mirrors f (lit [] k) (lit [] k').
Proof. intros H s. exact (H s). Qed.

Lemma resolved_nospace (a : text) :
  forallb (fun c => negb (Ascii.eqb " " c)) a = true ->
  gsub pat_impl rep_impl (resolved a) = resolved a.
Proof.
  intros H. apply impl_id_nospace. unfold resolved.
  rewrite !forallb_app, H. reflexivity.
Qed.

Lemma one_mirrors :
  mirrors (gsub pat_impl rep_impl) one_matcher one_matcher.
Proof.
  unfold one_matcher.
  change dot_node_clone with ("." :: T "node.clone()").
  apply impl_some_dot_mirrors; try reflexivity.
  intros a Ha. apply (lit_mirrors _ _ _ impl_scans);
    [discriminate|reflexivity|reflexivity|].
  apply done_mirrors, resolved_nospace.
  now apply (class_without_space is_word).
Qed.

Lemma two_mirrors :
  mirrors (gsub pat_impl rep_impl) two_matcher two_matcher.
Proof.
  unfold two_matcher.
  apply impl_some_dot_mirrors; try reflexivity.
  intros a Ha. apply lit_nil_mirrors.
  change dot_node_clone with ("." :: T "node.clone()").
  apply impl_some_dot_mirrors; try reflexivity.
  intros b Hb. apply (lit_mirrors _ _ _ impl_scans);
    [discriminate|reflexivity|reflexivity|].
  apply done_mirrors, resolved_nospace.
  rewrite forallb_app. cbn [forallb].
  rewrite (class_without_space is_word a eq_refl Ha).
  rewrite (class_without_space is_word b eq_refl Hb). reflexivity.
Qed.

Lemma lookup_mirrors :
  mirrors (gsub pat_impl rep_impl) lookup_matcher lookup_matcher.
Proof.
  unfold lookup_matcher.
  apply (lit_mirrors _ _ _ impl_scans);
    [discriminate|reflexivity|reflexivity|].
  apply impl_some_dot_mirrors; try reflexivity.
  intros a Ha. apply lit_nil_mirrors.
  apply (one_of_mirrors _ _ _ impl_scans).
  pose proof (class_without_space is_lower_ a eq_refl Ha) as Hn.
  unfold lookup_fields.
  repeat constructor; try discriminate;
    (apply (lit_mirrors _ _ _ impl_scans);
       [discriminate|reflexivity|reflexivity|];
     apply done_mirrors, impl_id_nospace; unfold lookup_resolved;
     rewrite !forallb_app; cbn [forallb]; rewrite !forallb_app, Hn;
     reflexivity).
Qed.

Section CallMirror.

Variables (head tail : text).
Hypothesis Hhead : head <> [].
Hypothesis Hhead1 : untouched impl_header head = true.
Hypothesis Hhead2 : untouched impl_header' head = true.
Hypothesis Htail1 : no_straddle impl_header tail = true.
Hypothesis Htail2 : untouched impl_header tail = true.

(** The impl rule rewrites the first argument inside the rewritten call. *)
Lemma impl_in_call (a : text) :
  gsub pat_impl rep_impl (head ++ a ++ tail)
  = head ++ gsub pat_impl rep_impl a ++ tail.
Proof.
  rewrite (scan_keep _ _ impl_scans)
    by now apply lit_inert.
  f_equal.
  rewrite <- (app_nil_r tail) at 1.
  rewrite (lit_frame _ _ _ impl_scans a tail [] Htail1 Htail2).
  now rewrite (scan_nil _ _ impl_scans), app_nil_r.
Qed.

Lemma call_mirrors :
  mirrors (gsub pat_impl rep_impl)
    (call_matcher head tail) (call_matcher head tail).
Proof.
  unfold call_matcher.
  apply (lit_mirrors _ _ _ impl_scans); [exact Hhead|exact Hhead1|exact Hhead2|].
  intros s. unfold some_of.
  destruct (span not_comma s) as [a r] eqn:E.
  destruct (span_spec _ _ _ _ E) as (-> & Ha & Hr).
  pose proof (lit_keeps _ _ _ impl_scans not_comma a eq_refl Ha) as Hfa.
  destruct r as [|d r1].
  - rewrite app_nil_r. rewrite (span_all _ _ Hfa).
    destruct a as [|c a]; [now rewrite (scan_nil _ _ impl_scans)|].
    destruct (gsub pat_impl rep_impl (c :: a)) as [|c' a'] eqn:Ea;
      reflexivity.
  - assert (d = ",") as ->.
    { unfold not_comma in Hr. apply negb_false_iff in Hr.
      symmetry. now apply Ascii.eqb_eq. }
    change (a ++ "," :: r1) with (a ++ [","] ++ r1).
    rewrite (lit_frame _ _ _ impl_scans a [","] r1 eq_refl eq_refl).
    cbn [app].
    rewrite (span_stop not_comma _ (gsub pat_impl rep_impl r1) "," Hfa eq_refl).
    destruct a as [|c a]; [now rewrite (scan_nil _ _ impl_scans)|].
    destruct (gsub pat_impl rep_impl (c :: a)) as [|c' a'] eqn:Ea.
    { exfalso. revert Ea.
      apply (lit_nonempty _ _ _ impl_scans); discriminate. }
    rewrite <- Ea.
    change (lit [","] ?k ("," :: ?x)) with (k x).
    apply (many_mirrors _ _ _ impl_scans); [reflexivity|reflexivity|].
    apply (lit_mirrors _ _ _ impl_scans);
      [discriminate|reflexivity|reflexivity|].
    apply done_mirrors, impl_in_call.
Qed.

End CallMirror.

(** What the rules of Identifier Resolution put in place of a match. *)
Lemma one_yields (s r rest : text) :
  one_matcher s = Some (r, rest) -> exists b, r = resolved b.
Proof.
  unfold one_matcher, some_of, lit, done. intros H.
  destruct (span is_word s) as [[|c w] r0]; [discriminate|].
  destruct (strip dot_node_clone r0); [|discriminate].
  inversion H; eauto.
Qed.

Lemma two_yields (s r rest : text) :
  two_matcher s = Some (r, rest) -> exists b, r = resolved b.
Proof.
  unfold two_matcher, some_of, lit, done. intros H.
  destruct (span is_word s) as [[|c w] r0]; [discriminate|].
  destruct (strip ["."] r0) as [r1|]; [|discriminate].
  destruct (span is_word r1) as [[|c2 w2] r2]; [discriminate|].
  destruct (strip dot_node_clone r2); [|discriminate].
  inversion H; eauto.
Qed.

Lemma lookup_yields (s r rest : text) :
  lookup_matcher s = Some (r, rest) -> exists arg, r = lookup_resolved arg.
Proof.
  unfold lookup_matcher, some_of, lit, done, lookup_fields.
  cbn [one_of]. intros H.
  destruct (strip lookup_head s) as [s1|]; [|discriminate].
  destruct (span is_lower_ s1) as [[|c w] r0]; [discriminate|].
  destruct (strip ["."] r0) as [r1|]; [|discriminate].
  destruct (strip (T "name") r1) as [r2|].
  { destruct (strip (T ".node)") r2); [|discriminate]. inversion H; eauto. }
  destruct (strip (T "local") r1) as [r2|].
  { destruct (strip (T ".node)") r2); [|discriminate]. inversion H; eauto. }
  destruct (strip (T "key") r1) as [r2|]; [|discriminate].
  destruct (strip (T ".node)") r2); [|discriminate]. inversion H; eauto.
Qed.

Section ImplCommutes.

Variables (mR : matcher) (fR : text -> text) (rhead : text).
Hypothesis HR : scans mR fR.
Hypothesis Hm : mirrors (gsub pat_impl rep_impl) mR mR.
Hypothesis Hin : forall y, inert mR impl_header y /\ inert mR impl_header' y.
(** Replacements begin with [rhead] and end with a closing parenthesis. *)
Hypothesis Hshape : forall s r rest,
  mR s = Some (r, rest) -> exists r0, r = rhead ++ r0 ++ [")"].
Hypothesis Hrhead : untouched rhead impl_header = true.

(** The impl rule and such a rule give the same text in either order. *)
Lemma impl_commutes (s : text) :
  gsub pat_impl rep_impl (fR s) = fR (gsub pat_impl rep_impl s).
Proof.
  apply (scans_commute impl_header impl_header' _ mR fR impl_scans HR).
  - discriminate.
  - exact Hm.
  - intros s0 r rest z E. destruct (Hshape _ _ _ E) as (r0 & ->).
    rewrite (app_assoc rhead r0 [")"]).
    apply (lit_app_last _ _ _ impl_scans). reflexivity.
  - exact Hin.
  - intros s0 H. apply strip_prefixb in H. destruct H as [r H].
    apply strip_prefixb.
    apply (scan_prefix_stable mR fR impl_header HR) with (j := 0) (r := r).
    + intros s1 r1 rest j z E Hj. destruct (Hshape _ _ _ E) as (r0 & ->).
      now apply head_clashes.
    + cbn. lia.
    + exact H.
Qed.

End ImplCommutes.

Lemma resolved_shape (b : text) :
  exists r0, resolved b = T "self.interner.resolve(" ++ r0 ++ [")"].
Proof.
  exists (b ++ T ".node).to_string("). unfold resolved.
  now rewrite <- app_assoc.
Qed.

Lemma impl_commutes_two (s : text) :
  gsub pat_impl rep_impl (gsub pat_two rep_two s)
  = gsub pat_two rep_two (gsub pat_impl rep_impl s).
Proof.
  apply (impl_commutes two_matcher _ (T "self.interner.resolve(")
           wf_scans_two two_mirrors).
  - intros y. split; apply inert_check; vm_compute; reflexivity.
  - intros s0 r rest E. destruct (two_yields _ _ _ E) as [b ->].
    apply resolved_shape.
  - reflexivity.
Qed.

Lemma impl_commutes_one (s : text) :
  gsub pat_impl rep_impl (gsub pat_one rep_one s)
  = gsub pat_one rep_one (gsub pat_impl rep_impl s).
Proof.
  apply (impl_commutes one_matcher _ (T "self.interner.resolve(")
           wf_scans_one one_mirrors).
  - intros y. split; apply inert_check; vm_compute; reflexivity.
  - intros s0 r rest E. destruct (one_yields _ _ _ E) as [b ->].
    apply resolved_shape.
  - reflexivity.
Qed.

Lemma impl_commutes_lookup (s : text) :
  gsub pat_impl rep_impl (gsub pat_lookup rep_lookup s)
  = gsub pat_lookup rep_lookup (gsub pat_impl rep_impl s).
Proof.
  apply (impl_commutes lookup_matcher _
           (T "self.symbol_table.lookup(self.interner.resolve(")
           wf_scans_lookup lookup_mirrors).
  - intros y. split; apply inert_check; vm_compute; reflexivity.
  - intros s0 r rest E. destruct (lookup_yields _ _ _ E) as [arg ->].
    exists (arg ++ [")"]). unfold lookup_resolved.
    now rewrite <- app_assoc.
  - reflexivity.
Qed.

Lemma impl_commutes_lexer (s : text) :
  gsub pat_impl rep_impl (gsub pat_lexer rep_lexer s)
  = gsub pat_lexer rep_lexer (gsub pat_impl rep_impl s).
Proof.
  apply (impl_commutes (call_matcher lexer_head lexer_tail) _ lexer_head
           wf_scans_lexer).
  - apply call_mirrors; first [discriminate|reflexivity].
  - intros y. split; apply lit_head_inert; reflexivity.
  - intros s0 r rest E.
    destruct (call_shape _ _ _ _ _ E) as (a & ws & _ & _ & _ & _ & ->).
    exists (a ++ T ", handler.clone(), &self.interner").
    now rewrite <- app_assoc.
  - reflexivity.
Qed.

Lemma impl_commutes_parser (s : text) :
  gsub pat_impl rep_impl (gsub pat_parser rep_parser s)
  = gsub pat_parser rep_parser (gsub pat_impl rep_impl s).
Proof.
  apply (impl_commutes (call_matcher parser_head parser_tail) _ parser_head
           wf_scans_parser).
  - apply call_mirrors; first [discriminate|reflexivity].
  - intros y. split; apply lit_head_inert; reflexivity.
  - intros s0 r rest E.
    destruct (call_shape _ _ _ _ _ E) as (a & ws & _ & _ & _ & _ & ->).
    exists (a ++ T ", handler.clone(), &self.interner, &self.common").
    now rewrite <- app_assoc.
  - reflexivity.
Qed.

(** The composition in the order of the specification's sections gives the
    text the run gives: Generic Parameter Propagation can be moved past
    Call-Site Parameter Injection and Identifier Resolution. *)
Lemma pipeline_orders_agree (content : text) :
  pipeline_as_specified content = pipeline_as_run content.
Proof.
  rewrite pipeline_as_run_eq. unfold pipeline_as_specified, run_stage.
  rewrite add_interner_to_struct_eq. cbn [opt_bind].
  rewrite update_constructor_eq. cbn [opt_bind].
  rewrite fix_lexer_parser_calls_eq. cbn [opt_bind].
  rewrite fix_stringid_conversions_eq. cbn [opt_bind].
  rewrite fix_impl_block_eq. cbn [opt_bind]. f_equal.
  now rewrite impl_commutes_lookup, impl_commutes_one, impl_commutes_two,
    impl_commutes_parser, impl_commutes_lexer.
Qed.

(** C1, as the code has it.  On a world that has the input file, [main]
    completes; it applies the five stages in the order Struct Augmentation,
    Constructor Augmentation, Generic Parameter Propagation, Call-Site
    Parameter Injection, Identifier Resolution, each on the output of the
    one before, and the lines it prints name the stages in that order; the
    text it writes back is that composition, and it is also the composition
    in the order of the specification's sections 4.1 to 4.5. *)
Theorem main_applies_the_stages_in_its_order (w : world) (content : text) :
  files w input_file = Some content ->
  exists out,
    (content <- add_interner_to_struct content ;;
     content <- update_constructor content ;;
     content <- fix_impl_block content ;;
     content <- fix_lexer_parser_calls content ;;
     fix_stringid_conversions content) = Some out /\
    pipeline_as_specified content = Some out /\
    main w =
    (inr tt,
     World (fun p => if String.eqb p input_file then Some out else files w p)
           (stdout w ++ progress_lines)).
Proof.
  intros Hf.
  destruct (pipeline_as_run content) as [out|] eqn:E;
    [|rewrite pipeline_as_run_eq in E; discriminate].
  exists out. split; [|split].
  - rewrite <- E. unfold pipeline_as_run.
    destruct (add_interner_to_struct content) as [c1|]; [|reflexivity].
    cbn [opt_bind].
    destruct (update_constructor c1) as [c2|]; [|reflexivity]. cbn [opt_bind].
    destruct (fix_impl_block c2) as [c3|]; [|reflexivity]. cbn [opt_bind].
    destruct (fix_lexer_parser_calls c3) as [c4|]; [|reflexivity].
    cbn [opt_bind].
    now destruct (fix_stringid_conversions c4).
  - now rewrite pipeline_orders_agree.
  - now apply (main_run w content out).
Qed.

Lemma main_order_witness :
  files (world_with (T "impl TypeChecker {}")) input_file
  = Some (T "impl TypeChecker {}") /\
  pipeline_as_specified (T "impl TypeChecker {}")
  = Some (T "impl<'a> TypeChecker<'a> {}") /\
  main (world_with (T "impl TypeChecker {}")) =
  (inr tt,
   World (fun p => if String.eqb p input_file
                   then Some (T "impl<'a> TypeChecker<'a> {}")
                   else files (world_with (T "impl TypeChecker {}")) p)
         progress_lines).
Proof.
  split; [reflexivity|].
  destruct (main_applies_the_stages_in_its_order
              (world_with (T "impl TypeChecker {}")) (T "impl TypeChecker {}")
              eq_refl) as (out & E & Es & Hm).
  vm_compute in E. inversion E; subst out. split; [exact Es|exact Hm].
Defined.

(** C1 as stated fails in the order it gives: the third stage [main] starts
    is Generic Parameter Propagation (the impl block), which the
    specification places fifth, and Call-Site Parameter Injection comes
    fourth. *)
Lemma main_runs_impl_block_third :
  nth_error (stdout (snd (main (world_with [])))) 2
  = Some "Step 3: Adding lifetime to impl block..."%string /\
  nth_error (stdout (snd (main (world_with [])))) 3
  = Some "Step 4: Adding interner parameters to Lexer::new and Parser::new..."%string.
Proof. split; reflexivity. Qed.

(* ================================================================== *)
(** ** The constructor stage *)

Lemma strip_app_split (a b s : text) :
  strip (a ++ b) s =
  match strip a s with
  | Some s' => strip b s'
  | None => None
  end.
Proof.
  revert s. induction a as [|c a IH]; intros s; cbn; [reflexivity|].
  destruct s as [|d s]; [reflexivity|].
  destruct (Ascii.eqb c d); [apply IH|reflexivity].
Qed.

(** The signature rule replaces the literal one-line signature. *)
Lemma sig_rule (s : text) :
  matcher_of old_sig new_sig s = lit_matcher sig_text sig_text' s.
Proof.
  assert (Hc : compile old_sig = Some (lits sig_text Eps, 0))
    by (vm_compute; reflexivity).
  assert (Ht : parse_template (T new_sig) 0 = Some (map TChar sig_text'))
    by (vm_compute; reflexivity).
  unfold matcher_of. rewrite Hc, Ht.
  unfold rule_matcher, re_match, lit_matcher. rewrite rmatch_lits.
  destruct (strip sig_text s); [|reflexivity].
  cbn [rmatch]. now rewrite expand_chars.
Qed.

(** The initialisation rule keeps the line of the handler (group 1) and
    the closing line (group 2) and puts the two fields between them. *)
Lemma init_rule (s : text) :
  matcher_of pat_init rep_init s = lit_matcher init_text init_text' s.
Proof.
  pose (A := T "            diagnostic_handler," ++ [newline]).
  pose (B := T "        };").
  pose (M := T "            interner," ++ [newline]
               ++ T "            common," ++ [newline]).
  assert (Hc : compile pat_init
               = Some (Seq (Group 1 (lits A Eps))
                         (Seq (Group 2 (lits B Eps)) Eps), 2))
    by (vm_compute; reflexivity).
  assert (Ht : parse_template (T rep_init) 2
               = Some (TGroup 1 :: map TChar M ++ [TGroup 2]))
    by (vm_compute; reflexivity).
  unfold matcher_of. rewrite Hc, Ht.
  unfold rule_matcher, re_match, lit_matcher.
  change init_text with (A ++ B). rewrite strip_app_split.
  cbn [rmatch]. rewrite rmatch_lits.
  destruct (strip A s) as [s1|] eqn:E1; [|reflexivity].
  apply strip_Some in E1. subst s. cbn [rmatch]. rewrite rmatch_lits.
  destruct (strip B s1) as [s2|] eqn:E2; [|reflexivity].
  apply strip_Some in E2. subst s1. cbn [rmatch].
  rewrite !consumed_app.
  change (TGroup 1 :: map TChar M ++ [TGroup 2])
    with ([TGroup 1] ++ map TChar M ++ [TGroup 2]).
  rewrite !expand_app, expand_chars. cbn [expand capture Nat.eqb].
  rewrite !app_nil_r. reflexivity.
Qed.

Lemma sig_scans :
  scans (lit_matcher sig_text sig_text') (gsub old_sig new_sig).
Proof. exact (scans_ext _ _ _ sig_rule (gsub_scans _ _ wf_sig)). Qed.

Lemma init_scans :
  scans (lit_matcher init_text init_text') (gsub pat_init rep_init).
Proof. exact (scans_ext _ _ _ init_rule (gsub_scans _ _ wf_init)). Qed.

(** X1.  Both rewrites of the constructor, wherever they stand: the one-line
    signature becomes the three-parameter signature, and the two fields are
    added to the initialisation; the text around is rewritten on its own. *)
Theorem constructor_is_augmented (x y : text) :
  exists x' y',
    update_constructor x = Some x' /\
    update_constructor y = Some y' /\
    update_constructor (x ++ sig_text ++ y) = Some (x' ++ sig_text' ++ y') /\
    update_constructor (x ++ init_text ++ y)
    = Some (x' ++ init_text' ++ y').
Proof.
  do 2 eexists. rewrite !update_constructor_eq.
  split; [reflexivity|]. split; [reflexivity|]. split; f_equal.
  - rewrite (lit_replace _ _ _ sig_scans) by (vm_compute; reflexivity).
    now rewrite (lit_frame _ _ _ init_scans)
      by (vm_compute; reflexivity).
  - rewrite (lit_frame _ _ _ sig_scans) by (vm_compute; reflexivity).
    now rewrite (lit_replace _ _ _ init_scans) by (vm_compute; reflexivity).
Qed.

(* ================================================================== *)
(** ** What a stage leaves behind *)

Lemma search_none (r : regex) (s : text) :
  (forall u t, s = u ++ t -> re_match r t = None) -> search r s = false.
Proof.
  induction s as [|c s IH]; intros H.
  - cbn. now rewrite (H [] [] eq_refl).
  - cbn [search]. rewrite (H [] (c :: s) eq_refl).
    apply IH. intros u t ->. apply (H (c :: u) t). reflexivity.
Qed.

(** A pattern is absent from a text in which its rule is quiet. *)
Lemma absent_intro (pattern repl : string) (s : text) :
  well_formed pattern repl = true ->
  quiet (matcher_of pattern repl) s -> absent pattern s.
Proof.
  intros H Hq. destruct (well_formed_inv _ _ H) as (r & n & t & Hc & Ht & _).
  unfold absent, re_search. rewrite Hc. cbn [opt_bind]. f_equal.
  apply search_none. intros u v E. specialize (Hq u v E).
  unfold matcher_of, rule_matcher in Hq. rewrite Hc, Ht in Hq.
  now destruct (re_match r v) as [[g rest]|].
Qed.

Lemma quiet_ext (m m' : matcher) (s : text) :
  (forall t, m t = m' t) -> quiet m' s -> quiet m s.
Proof. intros E H u t Hs. rewrite E. now apply (H u t). Qed.

Lemma lit_quiet (p rp s : text) :
  occursb p s = false -> quiet (lit_matcher p rp) s.
Proof.
  intros H u t ->. unfold lit_matcher.
  destruct (strip p t) as [r|] eqn:E; [|reflexivity].
  assert (Hp : prefixb p t = true) by (apply strip_prefixb; eauto).
  rewrite (occursb_tail p u t) in H; [discriminate|].
  destruct t; cbn [occursb]; now rewrite Hp.
Qed.

(** A quiet rule changes nothing. *)
Lemma quiet_id (m : matcher) (f : text -> text) (s : text) :
  scans m f -> quiet m s -> f s = s.
Proof. intros Hs Hq. now apply (scan_id _ _ Hs). Qed.

(** X2.  The constructor stage leaves none of its two patterns behind, so
    that applying it again changes nothing. *)
Theorem update_constructor_is_idempotent (x : text) :
  exists y,
    update_constructor x = Some y /\
    clean UpdateConstructor y /\
    update_constructor y = Some y.
Proof.
  eexists. split; [apply update_constructor_eq|].
  set (y := gsub pat_init rep_init (gsub old_sig new_sig x)).
  assert (H1 : occursb sig_text y = false).
  { destruct (occursb sig_text y) eqn:E; [|reflexivity].
    apply (lit_no_new_occurrence _ _ _ init_scans) in E;
      [|discriminate|vm_compute; reflexivity].
    rewrite (lit_none_left _ _ _ sig_scans) in E;
      [discriminate|discriminate|vm_compute; reflexivity]. }
  assert (H2 : occursb init_text y = false).
  { apply (lit_none_left _ _ _ init_scans);
      [discriminate|vm_compute; reflexivity]. }
  split.
  - repeat constructor.
    + apply (absent_intro _ new_sig _ wf_sig).
      apply (quiet_ext _ _ _ sig_rule), lit_quiet, H1.
    + apply (absent_intro pat_init rep_init _ wf_init).
      apply (quiet_ext _ _ _ init_rule), lit_quiet, H2.
  - rewrite update_constructor_eq. f_equal.
    rewrite (lit_absent_id _ _ _ sig_scans _ H1).
    exact (lit_absent_id _ _ _ init_scans _ H2).
Qed.

(** X3.  The impl stage leaves no unmarked impl header behind, so that
    applying it again changes nothing. *)
Theorem fix_impl_block_is_idempotent (x : text) :
  exists y,
    fix_impl_block x = Some y /\
    occursb impl_header y = false /\
    clean FixImplBlock y /\
    fix_impl_block y = Some y.
Proof.
  eexists. split; [apply fix_impl_block_eq|].
  set (y := gsub pat_impl rep_impl x).
  assert (H1 : occursb impl_header y = false).
  { apply (lit_none_left _ _ _ impl_scans);
      [discriminate|vm_compute; reflexivity]. }
  split; [exact H1|]. split.
  - repeat constructor.
    apply (absent_intro pat_impl rep_impl _ wf_impl).
    apply (quiet_ext _ _ _ impl_rule), lit_quiet, H1.
  - rewrite fix_impl_block_eq. f_equal.
    exact (lit_absent_id _ _ _ impl_scans _ H1).
Qed.

(* ================================================================== *)
(** ** The struct stage on the output of the constructor stage *)

Lemma sig_text'_parts : sig_text' = sig_open ++ anchor_line ++ sig_rest.
Proof. reflexivity. Qed.

(** X5.  The struct stage finds its anchor line inside the new constructor
    signature and inserts the two field lines there, wherever the signature
    stands. *)
Theorem struct_stage_rewrites_new_signature (x y : text) :
  exists x' y',
    add_interner_to_struct x = Some x' /\
    add_interner_to_struct y = Some y' /\
    add_interner_to_struct (x ++ sig_text' ++ y)
    = Some (x' ++ sig_open ++ anchor_line ++ interner_line ++ common_line
               ++ sig_rest ++ y').
Proof.
  do 2 eexists. rewrite !add_interner_to_struct_eq.
  split; [reflexivity|]. split; [reflexivity|]. f_equal.
  rewrite (lit_frame _ _ _ struct_scans) by (vm_compute; reflexivity).
  rewrite sig_text'_parts, <- !app_assoc.
  set (X := gsub pat_struct rep_struct x).
  set (Y := gsub pat_struct rep_struct y).
  rewrite (scan_app _ _ anchor_scans)
    by (apply lit_local; vm_compute; reflexivity).
  f_equal.
  rewrite (scan_keep _ _ anchor_scans)
    by (apply inert_check; vm_compute; reflexivity).
  f_equal.
  rewrite (scan_hit _ _ anchor_scans _ _ _ (lit_hit _ _ _)).
  rewrite <- !app_assoc. do 3 apply f_equal.
  apply (scan_keep _ _ anchor_scans).
  apply lit_inert. vm_compute. reflexivity.
Qed.

(* ================================================================== *)
(** ** The impl stage against the other stages *)

Section LiteralsCommute.

Variables (p rp q rq : text) (fI fR : text -> text).
Hypothesis HI : scans (lit_matcher p rp) fI.
Hypothesis HR : scans (lit_matcher q rq) fR.
Hypothesis Hp : p <> [].
Hypothesis Hq : q <> [].
Hypothesis Hpq : apart p q = true.
Hypothesis Hprq : apart p rq = true.
Hypothesis Hrpq : apart rp q = true.
Hypothesis Hfree : occursb p rq = false.

(** Two literal rules whose patterns and replacements cannot overlap give
    the same text in either order. *)
Lemma literals_commute (s : text) : fI (fR s) = fR (fI s).
Proof.
  apply andb_true_iff in Hpq, Hprq, Hrpq.
  destruct Hpq as [A1 A2], Hprq as [B1 B2], Hrpq as [C1 C2].
  assert (Eq : fI rq = rq) by now apply (lit_absent_id _ _ _ HI).
  apply (scans_commute p rp fI _ fR HI HR Hp).
  - intros s0. unfold lit_matcher.
    rewrite (lit_strip_mirror _ _ _ HI q s0 Hq A1 C1).
    destruct (strip q s0); cbn [option_map]; [now rewrite Eq|reflexivity].
  - intros s0 r rest z E. unfold lit_matcher in E.
    destruct (strip q s0); [|discriminate]. inversion E; subst r t.
    rewrite Eq. apply (scan_keep _ _ HI). now apply lit_inert.
  - intros z. split; now apply lit_inert.
  - intros s0. now apply (lit_head_stable _ _ _ HR p s0 Hp).
Qed.

End LiteralsCommute.

Lemma impl_commutes_struct (s : text) :
  gsub pat_impl rep_impl (gsub pat_struct rep_struct s)
  = gsub pat_struct rep_struct (gsub pat_impl rep_impl s).
Proof.
  apply (literals_commute _ _ _ _ _ _ impl_scans struct_scans);
    first [discriminate | vm_compute; reflexivity].
Qed.

Lemma impl_commutes_anchor (s : text) :
  gsub pat_impl rep_impl (gsub pat_anchor rep_anchor s)
  = gsub pat_anchor rep_anchor (gsub pat_impl rep_impl s).
Proof.
  apply (literals_commute _ _ _ _ _ _ impl_scans anchor_scans);
    first [discriminate | vm_compute; reflexivity].
Qed.

Lemma impl_commutes_sig (s : text) :
  gsub pat_impl rep_impl (gsub old_sig new_sig s)
  = gsub old_sig new_sig (gsub pat_impl rep_impl s).
Proof.
  apply (literals_commute _ _ _ _ _ _ impl_scans sig_scans);
    first [discriminate | vm_compute; reflexivity].
Qed.

Lemma impl_commutes_init (s : text) :
  gsub pat_impl rep_impl (gsub pat_init rep_init s)
  = gsub pat_init rep_init (gsub pat_impl rep_impl s).
Proof.
  apply (literals_commute _ _ _ _ _ _ impl_scans init_scans);
    first [discriminate | vm_compute; reflexivity].
Qed.

(** X6.  The impl stage can run before or after any other stage: the text is
    the same. *)
Theorem impl_stage_commutes_with_every_stage (st : stage_name) (x : text) :
  opt_bind (run_stage st x) fix_impl_block
  = opt_bind (fix_impl_block x) (run_stage st).
Proof.
  rewrite fix_impl_block_eq. cbn [opt_bind].
  destruct st; cbn [run_stage].
  - rewrite !add_interner_to_struct_eq. cbn [opt_bind].
    rewrite fix_impl_block_eq. f_equal.
    now rewrite impl_commutes_anchor, impl_commutes_struct.
  - rewrite !update_constructor_eq. cbn [opt_bind].
    rewrite fix_impl_block_eq. f_equal.
    now rewrite impl_commutes_init, impl_commutes_sig.
  - rewrite !fix_lexer_parser_calls_eq. cbn [opt_bind].
    rewrite fix_impl_block_eq. f_equal.
    now rewrite impl_commutes_parser, impl_commutes_lexer.
  - rewrite !fix_stringid_conversions_eq. cbn [opt_bind].
    rewrite fix_impl_block_eq. f_equal.
    now rewrite impl_commutes_lookup, impl_commutes_one, impl_commutes_two.
  - rewrite !fix_impl_block_eq. reflexivity.
Qed.

(* ================================================================== *)
(** ** Pattern 3: the symbol-table lookup *)

Lemma lookup_hit (a fld y : text) :
  a <> [] -> forallb is_lower_ a = true -> In fld lookup_fields ->
  lookup_matcher (lookup_head ++ a ++ "." :: fld ++ T ".node)" ++ y)
  = Some (lookup_resolved (a ++ "." :: fld ++ T ".node"), y).
Proof.
  intros Ha Hl Hf. unfold lookup_matcher, lit at 1.
  rewrite strip_app. unfold some_of.
  rewrite (span_stop is_lower_ a _ "." Hl eq_refl).
  destruct a as [|c0 a0]; [contradiction|].
  unfold lit at 1. cbn [strip].
  change (Ascii.eqb "." ".") with true. cbv iota.
  destruct Hf as [<-|[<-|[<-|[]]]]; cbn [one_of lookup_fields];
    unfold lit, done.
  - rewrite strip_app. now rewrite strip_app.
  - change (strip (T "name") (T "local" ++ ?x)) with (@None text).
    rewrite strip_app. now rewrite strip_app.
  - change (strip (T "name") (T "key" ++ ?x)) with (@None text).
    change (strip (T "local") (T "key" ++ ?x)) with (@None text).
    rewrite strip_app. now rewrite strip_app.
Qed.

Lemma lookup_shape (s r rest : text) :
  lookup_matcher s = Some (r, rest) ->
  exists a fld,
    s = lookup_head ++ a ++ "." :: fld ++ T ".node)" ++ rest /\
    a <> [] /\ forallb is_lower_ a = true /\ In fld lookup_fields /\
    r = lookup_resolved (a ++ "." :: fld ++ T ".node").
Proof.
  unfold lookup_matcher, lit at 1. intros H.
  destruct (strip lookup_head s) as [s1|] eqn:E1; [|discriminate].
  apply strip_Some in E1. subst s. unfold some_of in H.
  destruct (span is_lower_ s1) as [a s2] eqn:E2.
  destruct (span_spec _ _ _ _ E2) as (-> & Ha & _).
  destruct a as [|a0 a]; [discriminate|].
  unfold lit at 1 in H.
  destruct (strip ["."] s2) as [s3|] eqn:E3; [|discriminate].
  apply strip_Some in E3. subst s2.
  assert (Hk : forall fld,
            In fld lookup_fields ->
            lit (T ".node)")
              (done (lookup_resolved ((a0 :: a) ++ "." :: fld ++ T ".node")))
              (match strip fld s3 with Some x => x | None => [] end)
            = Some (r, rest) ->
            strip fld s3 <> None ->
            exists a1 fld1,
              lookup_head ++ (a0 :: a) ++ ["."] ++ s3
              = lookup_head ++ a1 ++ "." :: fld1 ++ T ".node)" ++ rest /\
              a1 <> [] /\ forallb is_lower_ a1 = true /\
              In fld1 lookup_fields /\
              r = lookup_resolved (a1 ++ "." :: fld1 ++ T ".node")).
  { intros fld Hin Hl Hs.
    destruct (strip fld s3) as [s4|] eqn:E4; [|congruence].
    apply strip_Some in E4. subst s3. unfold lit, done in Hl.
    destruct (strip (T ".node)") s4) as [s5|] eqn:E5; [|discriminate].
    apply strip_Some in E5. subst s4. inversion Hl; subst.
    exists (a0 :: a), fld. repeat split; auto. discriminate. }
  cbn [one_of lookup_fields] in H.
  destruct (strip (T "name") s3) as [s4|] eqn:En.
  { apply (Hk (T "name")); [now left|now rewrite En|now rewrite En]. }
  destruct (strip (T "local") s3) as [s4|] eqn:El.
  { apply (Hk (T "local")); [right; now left|now rewrite El|now rewrite El]. }
  destruct (strip (T "key") s3) as [s4|] eqn:Ek; [|discriminate].
  apply (Hk (T "key")); [right; right; now left|now rewrite Ek|now rewrite Ek].
Qed.

Lemma lookup_fires (s : text) :
  negb (fails (lookup_matcher s)) = true <-> lookup_shape_at s.
Proof.
  split.
  - destruct (lookup_matcher s) as [[r rest]|] eqn:E; [|discriminate].
    intros _. destruct (lookup_shape _ _ _ E) as (a & fld & -> & H1 & H2 & H3 & _).
    exists a, fld, rest. repeat split; auto.
  - intros (a & fld & rest & -> & H1 & H2 & H3).
    change (T "." ++ fld ++ T ".node)" ++ rest)
      with ("." :: fld ++ T ".node)" ++ rest).
    now rewrite (lookup_hit a fld rest H1 H2 H3).
Qed.

(** X7.  Pattern 3 matches at the head of a text exactly when the text
    begins with [self.symbol_table.lookup(&], a nonempty name of lower-case
    letters and underscores, a dot, one of [name], [local], [key], and
    [.node)]. *)
Theorem lookup_rule_fires_exactly_on_its_shape (s : text) :
  fires "self\.symbol_table\.lookup\(&([a-z_]+\.(?:name|local|key)\.node)\)" s
  = true <-> lookup_shape_at s.
Proof.
  change (fires _ s) with (fires pat_lookup s).
  rewrite (fires_matcher _ _ s wf_lookup), lookup_rule. apply lookup_fires.
Qed.

Lemma lower_is_word (c : ascii) : is_lower_ c = true -> is_word c = true.
Proof.
  destruct c as [[] [] [] [] [] [] [] []]; vm_compute; congruence.
Qed.

Lemma lower_run_is_word (a : text) :
  forallb is_lower_ a = true -> forallb is_word a = true.
Proof.
  intros H. apply forallb_forall. intros c Hc.
  rewrite forallb_forall in H. now apply lower_is_word, H.
Qed.

(** Patterns 1 and 2 do not match across the start of a lookup call, nor
    inside one. *)
Lemma two_loc0_lookup (y : text) : loc0 two_matcher (lookup_head ++ y).
Proof.
  apply some_loc0; intros a.
  - apply lit_locp; [|reflexivity].
    apply some_loc0; intros b.
    + apply lit_locp; [apply done_loc0|vm_compute; reflexivity].
    + reflexivity.
    + vm_compute; reflexivity.
  - reflexivity.
  - vm_compute; reflexivity.
Qed.

Lemma one_loc0_lookup (y : text) : loc0 one_matcher (lookup_head ++ y).
Proof.
  apply some_loc0; intros a.
  - apply lit_locp; [apply done_loc0|vm_compute; reflexivity].
  - reflexivity.
  - vm_compute; reflexivity.
Qed.

Lemma two_inert_lookup (a fld y : text) :
  forallb is_lower_ a = true -> In fld lookup_fields ->
  inert two_matcher (lookup_head ++ a ++ "." :: fld ++ T ".node)") y.
Proof.
  intros Ha Hf. apply lower_run_is_word in Ha.
  change ("." :: fld ++ T ".node)") with (["."] ++ fld ++ T ".node)").
  apply inert_app.
  { apply inert_check. vm_compute. reflexivity. }
  apply inert_app.
  { apply some_inert; [exact Ha|]. intros b.
    destruct Hf as [<-|[<-|[<-|[]]]]; vm_compute; reflexivity. }
  apply inert_app.
  { apply inert_check. vm_compute. reflexivity. }
  destruct Hf as [<-|[<-|[<-|[]]]]; apply inert_check; vm_compute;
    reflexivity.
Qed.

Lemma one_inert_lookup (a fld y : text) :
  forallb is_lower_ a = true -> In fld lookup_fields ->
  inert one_matcher (lookup_head ++ a ++ "." :: fld ++ T ".node)") y.
Proof.
  intros Ha Hf. apply lower_run_is_word in Ha.
  change ("." :: fld ++ T ".node)") with (["."] ++ fld ++ T ".node)").
  apply inert_app.
  { apply inert_check. vm_compute. reflexivity. }
  apply inert_app.
  { apply some_inert; [exact Ha|]. intros b.
    destruct Hf as [<-|[<-|[<-|[]]]]; vm_compute; reflexivity. }
  apply inert_app.
  { apply inert_check. vm_compute. reflexivity. }
  destruct Hf as [<-|[<-|[<-|[]]]]; apply inert_check; vm_compute;
    reflexivity.
Qed.

(** A match of pattern 3 that starts before a lookup call ends before
    it. *)
Lemma lookup_locp_lookup (y : text) : locp lookup_matcher (lookup_head ++ y).
Proof.
  apply lit_locp; [|vm_compute; reflexivity].
  apply some_loc0; intros a.
  - apply lit_locp; [|vm_compute; reflexivity].
    apply one_of_loc0. intros l Hl. split.
    + apply lit_loc0; [apply done_loc0|vm_compute; reflexivity].
    + destruct Hl as [<-|[<-|[<-|[]]]]; vm_compute; reflexivity.
  - reflexivity.
  - vm_compute; reflexivity.
Qed.

(** X8.  A lookup of the shape of pattern 3 gets the resolver call and loses
    its [&], wherever it stands; the texts around it are rewritten on their
    own. *)
Theorem lookup_call_is_resolved (pre a fld post : text) :
  a <> [] -> forallb is_lower_ a = true -> In fld lookup_fields ->
  exists pre' post',
    fix_stringid_conversions pre = Some pre' /\
    fix_stringid_conversions post = Some post' /\
    fix_stringid_conversions
      (pre ++ T "self.symbol_table.lookup(&" ++ a ++ T "." ++ fld
           ++ T ".node)" ++ post)
    = Some (pre' ++ T "self.symbol_table.lookup(self.interner.resolve("
              ++ a ++ T "." ++ fld ++ T ".node))" ++ post').
Proof.
  intros Hne Ha Hf. do 2 eexists. rewrite !fix_stringid_conversions_eq.
  split; [reflexivity|]. split; [reflexivity|]. f_equal.
  change (T "self.symbol_table.lookup(&") with lookup_head.
  change (T "." ++ fld ++ T ".node)" ++ post)
    with ("." :: fld ++ T ".node)" ++ post).
  set (L := lookup_head ++ a ++ "." :: fld ++ T ".node)").
  assert (EL : forall y,
            lookup_head ++ a ++ "." :: fld ++ T ".node)" ++ y = L ++ y).
  { intros y. unfold L. rewrite <- !app_assoc. cbn [app].
    now rewrite <- !app_assoc. }
  rewrite EL.
  rewrite (scan_app _ _ wf_scans_two).
  2:{ unfold L. rewrite <- app_assoc.
      apply locp_local, loc0_locp, two_loc0_lookup. }
  rewrite (scan_keep _ _ wf_scans_two) by now apply two_inert_lookup.
  rewrite (scan_app _ _ wf_scans_one).
  2:{ unfold L. rewrite <- app_assoc.
      apply locp_local, loc0_locp, one_loc0_lookup. }
  rewrite (scan_keep _ _ wf_scans_one) by now apply one_inert_lookup.
  rewrite (scan_app _ _ wf_scans_lookup).
  2:{ unfold L. rewrite <- app_assoc.
      apply locp_local, lookup_locp_lookup. }
  rewrite <- EL.
  rewrite (scan_hit _ _ wf_scans_lookup _ _ _
             (lookup_hit a fld _ Hne Ha Hf)).
  unfold lookup_resolved. rewrite <- !app_assoc. cbn [app].
  now rewrite <- !app_assoc.
Qed.

Lemma lookup_call_witness :
  fix_stringid_conversions
    (T "let s = self.symbol_table.lookup(&decl.name.node);")
  = Some
      (T "let s = self.symbol_table.lookup(self.interner.resolve(decl.name.node));").
Proof.
  destruct (lookup_call_is_resolved (T "let s = ") (T "decl") (T "name")
              (T ";")) as (pre' & post' & E1 & E2 & E).
  - discriminate.
  - reflexivity.
  - now left.
  - vm_compute in E1, E2. inversion E1; inversion E2; subst. exact E.
Defined.

(* ================================================================== *)
(** ** Pattern 2: the single-level clone *)

Lemma ends_free_clear (t : text) : ends_free t = true -> ends_clear t = true.
Proof.
  unfold ends_free, ends_clear. destruct (rev t); [reflexivity|].
  intros H. now apply andb_true_iff in H.
Qed.

Lemma ends_free_tail (u t : text) :
  t <> [] -> ends_free (u ++ t) = true -> ends_free t = true.
Proof.
  intros Ht. unfold ends_free. rewrite rev_app_distr.
  destruct (rev t) as [|c l] eqn:Er; [|auto].
  apply (f_equal (@rev ascii)) in Er. rewrite rev_involutive in Er.
  now subst t.
Qed.

Lemma ends_clear_app (u t : text) :
  t <> [] -> ends_clear (u ++ t) = ends_clear t.
Proof.
  intros Ht. unfold ends_clear. rewrite rev_app_distr.
  destruct (rev t) as [|c l] eqn:Er; [|reflexivity].
  apply (f_equal (@rev ascii)) in Er. rewrite rev_involutive in Er.
  now subst t.
Qed.

(** A scan with nonempty replacements gives a nonempty text from a
    nonempty one. *)
Lemma scan_nonempty (m : matcher) (f : text -> text) (s : text) :
  scans m f ->
  (forall s r rest, m s = Some (r, rest) -> r <> []) ->
  s <> [] -> f s <> [].
Proof.
  intros Hs Hr Hne. destruct s as [|c s]; [contradiction|].
  destruct (m (c :: s)) as [[r rest]|] eqn:Em.
  - rewrite (scan_hit _ _ Hs _ _ _ Em). intros E.
    apply app_eq_nil in E. destruct E as [E _]. exact (Hr _ _ _ Em E).
  - rewrite (scan_miss _ _ Hs _ _ Em). discriminate.
Qed.

(** A scan whose replacements do not end with a word character keeps a
    text from ending with one. *)
Lemma scan_ends_clear (m : matcher) (f : text -> text) :
  scans m f ->
  (forall s r rest, m s = Some (r, rest) -> r <> [] /\ ends_clear r = true) ->
  forall s, ends_clear s = true -> ends_clear (f s) = true.
Proof.
  intros Hs Hr s. remember (length s) as n eqn:Hn. revert s Hn.
  induction n as [n IH] using lt_wf_ind. intros s Hn He.
  assert (Hne : forall t, t <> [] -> f t <> []).
  { intros t. apply (scan_nonempty m f t Hs).
    intros s0 r rest E. now destruct (Hr _ _ _ E). }
  destruct s as [|c s]; [now rewrite (scan_nil _ _ Hs)|].
  destruct (m (c :: s)) as [[r rest]|] eqn:Em.
  - rewrite (scan_hit _ _ Hs _ _ _ Em).
    destruct (scan_productive _ _ Hs _ _ _ Em) as (c0 & u & E).
    destruct rest as [|e rest'].
    + rewrite (scan_nil _ _ Hs), app_nil_r. now destruct (Hr _ _ _ Em).
    + rewrite ends_clear_app by (apply Hne; discriminate).
      apply (IH (length (e :: rest'))); [|reflexivity|].
      * subst n. rewrite E. cbn [length]. rewrite length_app. cbn. lia.
      * rewrite E in He.
        change (c0 :: u ++ e :: rest') with ((c0 :: u) ++ e :: rest') in He.
        now rewrite ends_clear_app in He by discriminate.
  - rewrite (scan_miss _ _ Hs _ _ Em).
    destruct s as [|e s'].
    + now rewrite (scan_nil _ _ Hs).
    + change (c :: f (e :: s')) with ([c] ++ f (e :: s')).
      rewrite ends_clear_app by (apply Hne; discriminate).
      apply (IH (length (e :: s'))); [subst n; cbn; lia|reflexivity|].
      change (c :: e :: s') with ([c] ++ e :: s') in He.
      now rewrite ends_clear_app in He by discriminate.
Qed.

Lemma resolved_ends_clear (b : text) :
  resolved b <> [] /\ ends_clear (resolved b) = true.
Proof.
  split; [discriminate|].
  unfold ends_clear, resolved. now rewrite !rev_app_distr.
Qed.

(** No tail of [.node.clone()] begins a single-level clone. *)
Lemma clone_tails_miss_single (a y : text) :
  forallb is_word a = true ->
  tails_miss 1 dot_node_clone (a ++ "." :: T "node.clone()" ++ y) = true.
Proof.
  intros Ha. apply tails_miss_intro. intros i Hi.
  change (length dot_node_clone) with 13 in Hi.
  assert (Hc : i = 1 \/ i = 2 \/ i = 3 \/ i = 4 \/ i = 5 \/ i = 6 \/ i = 7
               \/ i = 8 \/ i = 9 \/ i = 10 \/ i = 11 \/ i = 12) by lia.
  repeat destruct Hc as [->|Hc]; try subst i;
    match goal with
    | |- strip ?v _ = None =>
      let x := eval vm_compute in v in change v with x
    end; strip_none.
Qed.

(** In front of a single-level clone, a match of pattern 1 that starts in
    a text ending with neither a word character nor a dot stays within that
    text. *)
Lemma two_local_single (x a y : text) :
  ends_free x = true -> forallb is_word a = true ->
  local two_matcher x (a ++ "." :: T "node.clone()" ++ y).
Proof.
  intros Hx Ha u t -> Ht.
  pose proof (ends_free_tail u t Ht Hx) as Hf.
  unfold two_matcher, some_of.
  destruct (span is_word t) as [w0 [|c r]] eqn:E.
  { exfalso. apply (ends_clear_stop t Ht (ends_free_clear _ Hf)).
    now rewrite E. }
  rewrite (span_app_stop _ _ _ _ _ _ E).
  destruct w0 as [|c0 w0]; [reflexivity|].
  destruct (span_spec _ _ _ _ E) as (Et & _ & _).
  unfold lit at 1 3. cbn [strip].
  destruct (Ascii.eqb_spec "." c) as [<-|]; [|reflexivity].
  assert (Hr : r <> [] /\ ends_free r = true).
  { destruct r as [|d r'].
    - exfalso. rewrite Et in Hf. unfold ends_free in Hf.
      rewrite rev_app_distr in Hf. cbn in Hf.
      now rewrite andb_false_r in Hf.
    - split; [discriminate|].
      apply (ends_free_tail ((c0 :: w0) ++ ["."])); [discriminate|].
      replace (((c0 :: w0) ++ ["."]) ++ d :: r') with t; [exact Hf|].
      rewrite Et, <- app_assoc. reflexivity. }
  destruct Hr as [Hr1 Hr2].
  apply (some_stop is_word _ _ r).
  - intros b. apply lit_locp; [apply done_loc0|].
    now apply clone_tails_miss_single.
  - apply ends_clear_stop; [exact Hr1|now apply ends_free_clear].
Qed.

Lemma two_inert_single (a y : text) :
  forallb is_word a = true ->
  inert two_matcher (a ++ "." :: T "node.clone()") y.
Proof.
  intros Ha. apply inert_app.
  - apply some_inert; [exact Ha|]. intros b. vm_compute. reflexivity.
  - apply inert_check. vm_compute. reflexivity.
Qed.

Lemma one_hit (a y : text) :
  is_ident a = true ->
  one_matcher (a ++ "." :: T "node.clone()" ++ y) = Some (resolved a, y).
Proof.
  intros H. destruct (is_ident_cons _ H) as (c & v & -> & Hc & Hv).
  unfold one_matcher, some_of, lit, done.
  rewrite (span_stop is_word (c :: v));
    [|exact (is_ident_word _ H)|reflexivity].
  change ("." :: T "node.clone()" ++ y) with (dot_node_clone ++ y).
  now rewrite strip_app.
Qed.

Lemma one_local_single (x a y : text) :
  ends_clear x = true -> forallb is_word a = true ->
  local one_matcher x (a ++ "." :: T "node.clone()" ++ y).
Proof.
  intros Hx Ha u t -> Ht. unfold one_matcher. apply some_stop.
  - intros b. apply lit_locp; [apply done_loc0|].
    now apply clone_tails_miss_single.
  - apply ends_clear_stop; [exact Ht|]. now apply (ends_clear_tail u).
Qed.

Lemma lookup_inert_resolved_single (w y : text) :
  forallb is_word w = true -> inert lookup_matcher (resolved w) y.
Proof.
  intros H. unfold resolved. apply inert_app.
  { apply inert_check. vm_compute. reflexivity. }
  apply inert_app.
  { apply lit_inert_word; [exact H|]. intros t Ht.
    change (T ".node).to_string()") with ("." :: T "node).to_string()").
    norm_app. unfold lookup_head. strip_none. }
  apply inert_check. vm_compute. reflexivity.
Qed.

(** X9.  A single-level clone [a.node.clone()], wherever it stands after a
    text that ends with neither a word character nor a dot, becomes
    [self.interner.resolve(a.node).to_string()]; the texts around it are
    rewritten on their own. *)
Theorem single_level_clone_is_resolved (pre a post : text) :
  ends_free pre = true -> is_ident a = true ->
  exists pre' post',
    fix_stringid_conversions pre = Some pre' /\
    fix_stringid_conversions post = Some post' /\
    fix_stringid_conversions (pre ++ a ++ T ".node.clone()" ++ post)
    = Some (pre' ++ T "self.interner.resolve(" ++ a
              ++ T ".node).to_string()" ++ post').
Proof.
  intros Hx Ha. do 2 eexists. rewrite !fix_stringid_conversions_eq.
  split; [reflexivity|]. split; [reflexivity|]. f_equal.
  pose proof (is_ident_word _ Ha) as Hw.
  change (T ".node.clone()" ++ post) with ("." :: T "node.clone()" ++ post).
  rewrite (scan_app _ _ wf_scans_two) by now apply two_local_single.
  replace (a ++ "." :: T "node.clone()" ++ post)
    with ((a ++ "." :: T "node.clone()") ++ post)
    by now rewrite <- app_assoc.
  rewrite (scan_keep _ _ wf_scans_two) by now apply two_inert_single.
  rewrite <- app_assoc. cbn [app].
  rewrite (scan_app _ _ wf_scans_one).
  2:{ apply one_local_single; [|exact Hw].
      apply (scan_ends_clear _ _ wf_scans_two).
      - intros s r rest E. destruct (two_yields _ _ _ E) as [b ->].
        apply resolved_ends_clear.
      - now apply ends_free_clear. }
  rewrite (scan_hit _ _ wf_scans_one _ _ _ (one_hit a _ Ha)).
  rewrite (scan_app _ _ wf_scans_lookup)
    by apply locp_local, loc0_locp, lookup_loc0_resolved.
  rewrite (scan_keep _ _ wf_scans_lookup)
    by now apply lookup_inert_resolved_single.
  unfold resolved. now rewrite <- !app_assoc.
Qed.

Lemma single_level_clone_witness :
  ends_free (T "let n = ") = true /\ is_ident (T "ident") = true /\
  fix_stringid_conversions (T "let n = ident.node.clone();")
  = Some (T "let n = self.interner.resolve(ident.node).to_string();").
Proof.
  split; [reflexivity|]. split; [reflexivity|].
  destruct (single_level_clone_is_resolved (T "let n = ") (T "ident")
              (T ";") eq_refl eq_refl) as (pre' & post' & E1 & E2 & E).
  vm_compute in E1, E2. inversion E1; inversion E2; subst. exact E.
Defined.

(* ================================================================== *)
(** ** The call-site rules on any call of their shape *)

(** The rule starts nowhere in a comma-free stretch that ends at a comma
    not followed by the call's ending. *)
Lemma call_inert_arg (head tail arg z : text) :
  forallb not_comma head = true -> forallb not_comma arg = true ->
  (forall a, many_of is_space
               (lit handler_clone_close (done (head ++ a ++ tail))) z = None) ->
  inert (call_matcher head tail) arg ("," :: z).
Proof.
  intros Hh Ha Hz u t -> Ht. unfold call_matcher, lit at 1.
  destruct (strip head (t ++ "," :: z)) as [s1|] eqn:E; [|reflexivity].
  apply strip_Some in E. unfold some_of.
  rewrite forallb_app in Ha. apply andb_true_iff in Ha. destruct Ha as [_ Ha].
  assert (Es : span not_comma (head ++ s1) = (t, "," :: z)).
  { rewrite <- E. now apply span_stop. }
  rewrite (span_app_all _ _ _ Hh) in Es.
  destruct (span not_comma s1) as [a r]. cbn [fst snd] in Es.
  inversion Es; subst r. destruct a as [|a0 a]; [reflexivity|].
  unfold lit at 1. cbn [strip].
  change (Ascii.eqb "," ",") with true. cbv iota. apply Hz.
Qed.

(** A rule that begins with a literal starts nowhere in a run of
    characters other than the literal's first. *)
Lemma lit_inert_run (P : ascii -> bool) (head : text) (k : matcher)
    (ws y : text) :
  (match head with [] => false | e :: _ => negb (P e) end) = true ->
  forallb P ws = true -> inert (lit head k) ws y.
Proof.
  intros Hh Hws u t -> Ht. unfold lit.
  rewrite forallb_app in Hws. apply andb_true_iff in Hws.
  destruct Hws as [_ Hws]. destruct t as [|c t]; [contradiction|].
  cbn in Hws. apply andb_true_iff in Hws. destruct Hws as [Hc _].
  destruct head as [|e head']; [discriminate|]. cbn.
  destruct (Ascii.eqb_spec e c); [|reflexivity].
  subst. apply negb_true_iff in Hh. congruence.
Qed.

(** A rule that begins with a comma-free literal starts nowhere in a
    stretch that does not hold the literal and ends at a comma. *)
Lemma lit_inert_free (head : text) (k : matcher) (arg z : text) :
  forallb not_comma head = true -> occursb head arg = false ->
  inert (lit head k) arg ("," :: z).
Proof.
  intros Hh Ho u t -> Ht. unfold lit.
  destruct (strip head (t ++ "," :: z)) as [s1|] eqn:E; [|reflexivity].
  exfalso. destruct (strip head t) as [s2|] eqn:E2.
  - rewrite (occursb_tail head u t) in Ho; [discriminate|].
    assert (Hp : prefixb head t = true) by (apply strip_prefixb; eauto).
    destruct t; cbn [occursb]; now rewrite Hp.
  - destruct (strip_app_None _ _ _ _ E2 E) as (v & Hv & Hp & Hs).
    destruct v as [|c v]; [contradiction|]. cbn in Hs.
    destruct (Ascii.eqb_spec c ","); [|discriminate]. subst c.
    rewrite Hp, !forallb_app in Hh. cbn in Hh.
    now rewrite andb_false_r in Hh.
Qed.

(** X10.  A call of the shape the rules look for, with any first argument
    without comma and any white space after the comma: the first argument is
    kept, the white space becomes one space, and the new arguments are
    appended. A [Lexer::new] call is rewritten wherever it stands; a
    [Parser::new] call is rewritten if no [Lexer::new(] begins in its first
    argument or is still within its own first argument where the call
    begins. *)
Theorem call_with_any_first_argument (pre arg ws post : text) :
  arg <> [] -> forallb not_comma arg = true -> forallb is_space ws = true ->
  (exists pre' post',
     fix_lexer_parser_calls pre = Some pre' /\
     fix_lexer_parser_calls post = Some post' /\
     fix_lexer_parser_calls
       (pre ++ T "Lexer::new(" ++ arg ++ T "," ++ ws
            ++ T "handler.clone())" ++ post)
     = Some (pre' ++ T "Lexer::new(" ++ arg
               ++ T ", handler.clone(), &self.interner)" ++ post')) /\
  (open_call (T "Lexer::new(") pre = false ->
   occursb (T "Lexer::new(") arg = false ->
   exists pre' post',
     fix_lexer_parser_calls pre = Some pre' /\
     fix_lexer_parser_calls post = Some post' /\
     fix_lexer_parser_calls
       (pre ++ T "Parser::new(" ++ arg ++ T "," ++ ws
            ++ T "handler.clone())" ++ post)
     = Some (pre' ++ T "Parser::new(" ++ arg
               ++ T ", handler.clone(), &self.interner, &self.common)"
               ++ post')).
Proof.
  intros Hne Ha Hws.
  assert (Eocc : forall head y,
            head ++ arg ++ T "," ++ ws ++ T "handler.clone())" ++ y
            = (head ++ arg ++ "," :: ws ++ handler_clone_close) ++ y).
  { intros head y. rewrite <- !app_assoc. cbn [app].
    now rewrite <- !app_assoc. }
  split; [|intros Ho Hfree]; do 2 eexists;
    rewrite !fix_lexer_parser_calls_eq;
    (split; [reflexivity|]); (split; [reflexivity|]); f_equal.
  - change (T "Lexer::new(") with lexer_head.
    change (T ", handler.clone(), &self.interner)") with lexer_tail.
    rewrite Eocc.
    assert (EL : gsub pat_lexer rep_lexer
                   (pre ++ (lexer_head ++ arg ++ "," :: ws
                                ++ handler_clone_close) ++ post)
                 = gsub pat_lexer rep_lexer pre
                   ++ (lexer_head ++ arg ++ lexer_tail)
                   ++ gsub pat_lexer rep_lexer post).
    { apply (call_replace _ _ _ wf_scans_lexer pre arg ws post);
        first [assumption | vm_compute; reflexivity]. }
    rewrite EL. clear EL.
    set (X := gsub pat_lexer rep_lexer pre).
    set (Y := gsub pat_lexer rep_lexer post).
    rewrite (scan_app _ _ wf_scans_parser).
    + rewrite (scan_keep _ _ wf_scans_parser).
      * now rewrite <- !app_assoc.
      * apply inert_app; [apply lit_head_inert; reflexivity|].
        apply inert_app; [|apply lit_head_inert; reflexivity].
        change (lexer_tail ++ Y)
          with ("," :: T " handler.clone(), &self.interner)" ++ Y).
        apply call_inert_arg; [reflexivity|exact Ha|].
        intros a. vm_compute. reflexivity.
    + apply locp_local, loc0_locp, call_loc0;
        try (vm_compute; reflexivity).
      intros a.
      replace ((lexer_head ++ arg ++ lexer_tail) ++ Y)
        with ((lexer_head ++ arg)
                ++ "," :: T " handler.clone(), &self.interner)" ++ Y)
        by (rewrite <- !app_assoc; reflexivity).
      rewrite (span_stop not_comma (lexer_head ++ arg));
        [|rewrite forallb_app, Ha; reflexivity|reflexivity].
      vm_compute. reflexivity.
  - change (T "Parser::new(") with parser_head.
    change (T ", handler.clone(), &self.interner, &self.common)")
      with parser_tail.
    rewrite Eocc.
    rewrite (scan_app _ _ wf_scans_lexer).
    2:{ apply call_local; try (vm_compute; reflexivity). exact Ho. }
    rewrite (scan_keep _ _ wf_scans_lexer).
    2:{ apply inert_app; [apply lit_head_inert; reflexivity|].
        apply inert_app.
        { apply lit_inert_free; [reflexivity|exact Hfree]. }
        change ("," :: ws ++ handler_clone_close)
          with ([","] ++ ws ++ handler_clone_close).
        apply inert_app; [apply lit_head_inert; reflexivity|].
        apply inert_app; [|apply lit_head_inert; reflexivity].
        apply (lit_inert_run is_space); [reflexivity|exact Hws]. }
    set (X := gsub pat_lexer rep_lexer pre).
    set (Y := gsub pat_lexer rep_lexer post).
    assert (EP : gsub pat_parser rep_parser
                   (X ++ (parser_head ++ arg ++ "," :: ws
                              ++ handler_clone_close) ++ Y)
                 = gsub pat_parser rep_parser X
                   ++ (parser_head ++ arg ++ parser_tail)
                   ++ gsub pat_parser rep_parser Y).
    { apply (call_replace _ _ _ wf_scans_parser X arg ws Y);
        first [assumption | vm_compute; reflexivity]. }
    rewrite EP. now rewrite <- !app_assoc.
Qed.

Lemma call_with_any_first_argument_witness :
  fix_lexer_parser_calls
    (T "let l = Lexer::new(&src[..]," ++ [newline]
       ++ T "    handler.clone());")
  = Some (T "let l = Lexer::new(&src[..], handler.clone(), &self.interner);").
Proof.
  destruct (call_with_any_first_argument (T "let l = ") (T "&src[..]")
              ([newline] ++ T "    ") (T ";"))
    as [(pre' & post' & E1 & E2 & E) _];
    [discriminate|reflexivity|reflexivity|].
  vm_compute in E1, E2. inversion E1; inversion E2; subst. exact E.
Defined.

(* ================================================================== *)
(** ** Rules that find nothing in the output of a scan *)

Section ScanQuiet.

Variables (m : matcher) (f : text -> text).
Hypothesis Hscan : scans m f.

(** The output of a scan is quiet for a rule [m'] that starts nowhere in a
    replacement and that fails where the scan copies a character. *)
Lemma scan_quiet (m' : matcher) (s : text) :
  (forall s r rest z, m s = Some (r, rest) -> inert m' r z) ->
  reflects f m' m' ->
  (forall u t, s = u ++ t -> m t = None -> m' t = None) ->
  quiet m' (f s).
Proof.
  intros Hin Hre. remember (length s) as n eqn:Hn. revert s Hn.
  induction n as [n IH] using lt_wf_ind. intros s Hn Hg.
  destruct s as [|c s].
  - rewrite (scan_nil _ _ Hscan). intros u t E.
    symmetry in E. apply app_eq_nil in E. destruct E as [_ ->].
    rewrite <- (scan_nil _ _ Hscan). apply Hre.
    apply (Hg [] []); [reflexivity|].
    destruct (m []) as [[r rest]|] eqn:Em; [|reflexivity].
    destruct (scan_productive _ _ Hscan _ _ _ Em) as (c0 & u0 & E0).
    discriminate.
  - destruct (m (c :: s)) as [[r rest]|] eqn:Em.
    + rewrite (scan_hit _ _ Hscan _ _ _ Em).
      destruct (scan_productive _ _ Hscan _ _ _ Em) as (c0 & u0 & Es).
      assert (Hq : quiet m' (f rest)).
      { apply (IH (length rest)); [|reflexivity|].
        - subst n. rewrite Es. cbn [length]. rewrite length_app. lia.
        - intros u t E. apply (Hg ((c0 :: u0) ++ u) t).
          rewrite Es, E, <- app_assoc. reflexivity. }
      intros u t E. apply app_eq_app in E.
      destruct E as (l & [[-> ->]|[-> E]]).
      * destruct l as [|d l].
        { apply (Hq [] (f rest)). reflexivity. }
        apply (Hin _ _ _ (f rest) Em u (d :: l));
          [reflexivity|discriminate].
      * apply (Hq l t E).
    + rewrite (scan_miss _ _ Hscan _ _ Em).
      assert (Hq : quiet m' (f s)).
      { apply (IH (length s)); [subst n; cbn; lia|reflexivity|].
        intros u t E. apply (Hg (c :: u) t). now rewrite E. }
      intros u t E. destruct u as [|d u].
      * cbn in E. subst t. rewrite <- (scan_miss _ _ Hscan _ _ Em).
        apply Hre. now apply (Hg [] (c :: s)).
      * inversion E; subst. now apply (Hq u t).
Qed.

(** A text begins with a tail of [q] after the scan only if it did before,
    when a replacement begins with a tail of [q] only where the match
    did. *)
Lemma scan_prefix_kept (q : text) :
  (forall s r rest j z r', m s = Some (r, rest) -> j < length q ->
     strip (skipn j q) (r ++ z) = Some r' ->
     exists r'', strip (skipn j q) s = Some r'') ->
  forall s j r, j < length q ->
    strip (skipn j q) (f s) = Some r ->
    exists r', strip (skipn j q) s = Some r'.
Proof.
  intros Hq. induction s as [|c s IH]; intros j r Hj H.
  - rewrite (scan_nil _ _ Hscan) in H.
    destruct (skipn j q) as [|x v] eqn:E; [|discriminate].
    apply (f_equal (@length ascii)) in E. rewrite length_skipn in E.
    cbn in E. lia.
  - destruct (m (c :: s)) as [[rp' rest]|] eqn:Em.
    + rewrite (scan_hit _ _ Hscan _ _ _ Em) in H.
      exact (Hq _ _ _ j _ _ Em Hj H).
    + rewrite (scan_miss _ _ Hscan _ _ Em) in H.
      destruct (skipn j q) as [|x v] eqn:E.
      { apply (f_equal (@length ascii)) in E. rewrite length_skipn in E.
        cbn in E. lia. }
      cbn [strip] in *. destruct (Ascii.eqb x c); [|discriminate].
      assert (Ev : skipn (S j) q = v).
      { replace (S j) with (1 + j) by lia.
        rewrite <- skipn_skipn, E. reflexivity. }
      destruct v as [|y v']; [cbn; eauto|].
      assert (Hj' : S j < length q).
      { apply (f_equal (@length ascii)) in Ev. rewrite length_skipn in Ev.
        cbn in Ev. lia. }
      rewrite <- Ev. apply (IH (S j) r Hj'). rewrite Ev. exact H.
Qed.

(** The end of a pattern fails nowhere. *)
Lemma done_reflects (r : text) (k' : matcher) : reflects f (done r) k'.
Proof. intros s H. discriminate H. Qed.

(** A literal step: the literal begins the output only where it began the
    input, and is copied where the rest of the pattern fails. *)
Lemma lit_reflects (q : text) (k k' : matcher) :
  (forall s r rest j z r', m s = Some (r, rest) -> j < length q ->
     strip (skipn j q) (r ++ z) = Some r' ->
     exists r'', strip (skipn j q) s = Some r'') ->
  (forall y, k y = None -> f (q ++ y) = q ++ f y) ->
  reflects f k k' -> reflects f (lit q k) (lit q k').
Proof.
  intros H1 H2 Hk s H. unfold lit in *.
  destruct (strip q s) as [y|] eqn:E.
  - apply strip_Some in E. subst s.
    rewrite (H2 y H), strip_app. now apply Hk.
  - destruct (strip q (f s)) as [y|] eqn:E'; [|reflexivity].
    destruct q as [|c q']; [discriminate|].
    destruct (scan_prefix_kept (c :: q') H1 s 0 y) as [r' Hr'];
      [cbn; lia|exact E'|].
    cbn [skipn] in Hr'. congruence.
Qed.

Lemma one_of_reflects (ls : list text) (k k' : text -> matcher) :
  Forall (fun q =>
    (forall s r rest j z r', m s = Some (r, rest) -> j < length q ->
       strip (skipn j q) (r ++ z) = Some r' ->
       exists r'', strip (skipn j q) s = Some r'') /\
    (forall y, f (q ++ y) = q ++ f y) /\
    reflects f (k q) (k' q)) ls ->
  reflects f (one_of ls k) (one_of ls k').
Proof.
  induction 1 as [|q ls (H1 & H2 & Hk) _ IH]; intros s H; cbn [one_of] in *;
    [reflexivity|].
  destruct (strip q s) as [y|] eqn:E.
  - apply strip_Some in E. subst s.
    rewrite (H2 y), strip_app. now apply Hk.
  - destruct (strip q (f s)) as [y|] eqn:E'; [|now apply IH].
    destruct q as [|c q']; [discriminate|].
    destruct (scan_prefix_kept (c :: q') H1 s 0 y) as [r' Hr'];
      [cbn; lia|exact E'|].
    cbn [skipn] in Hr'. congruence.
Qed.

(** A nonempty run of a class: the scan does not match at a character
    outside the class, and the step fails on a run of the class followed by
    a replacement. *)
Lemma some_reflects (P : ascii -> bool) (k k' : text -> matcher) :
  (forall d s, P d = false -> m (d :: s) = None) ->
  (forall s r rest u z, m s = Some (r, rest) -> forallb P u = true ->
     some_of P k' (u ++ r ++ z) = None) ->
  (forall a, reflects f (k a) (k' a)) ->
  reflects f (some_of P k) (some_of P k').
Proof.
  intros Hv Hd Hk.
  assert (Claim : forall w u r,
            forallb P u = true -> forallb P w = true ->
            match r with [] => True | d :: _ => P d = false end ->
            some_of P k (u ++ w ++ r) = None ->
            some_of P k' (u ++ f (w ++ r)) = None).
  { induction w as [|c w IH]; intros u r Hu Hw Hr H.
    - cbn [app] in *. unfold some_of in *. destruct r as [|d r1].
      + rewrite (scan_nil _ _ Hscan). rewrite app_nil_r in *.
        rewrite (span_all _ _ Hu) in *.
        destruct u; [reflexivity|].
        rewrite <- (scan_nil _ _ Hscan). now apply Hk.
      + rewrite (scan_miss _ _ Hscan _ _ (Hv d r1 Hr)).
        rewrite (span_stop P u r1 d Hu Hr) in H.
        rewrite (span_stop P u (f r1) d Hu Hr).
        destruct u; [reflexivity|].
        rewrite <- (scan_miss _ _ Hscan _ _ (Hv d r1 Hr)). now apply Hk.
    - cbn in Hw. apply andb_true_iff in Hw. destruct Hw as [Hc Hw].
      destruct (m ((c :: w) ++ r)) as [[r0 rest]|] eqn:Em.
      + rewrite (scan_hit _ _ Hscan _ _ _ Em). now apply (Hd _ _ _ _ _ Em).
      + change ((c :: w) ++ r) with (c :: w ++ r) in Em |- *.
        rewrite (scan_miss _ _ Hscan _ _ Em).
        change (u ++ c :: f (w ++ r)) with (u ++ [c] ++ f (w ++ r)).
        rewrite app_assoc. apply IH.
        * rewrite forallb_app, Hu. cbn. now rewrite Hc.
        * exact Hw.
        * exact Hr.
        * rewrite <- app_assoc. exact H. }
  intros s H. destruct (span P s) as [w r] eqn:E.
  destruct (span_spec _ _ _ _ E) as (-> & Hw & Hr).
  apply (Claim w [] r eq_refl Hw Hr H).
Qed.

(** A possibly empty run of a class: the scan does not match at a character
    of the class, and its replacements begin outside the class. *)
Lemma many_reflects (P : ascii -> bool) (k k' : matcher) :
  (forall c s, P c = true -> m (c :: s) = None) ->
  (forall s r rest, m s = Some (r, rest) ->
     match r with [] => False | e :: _ => P e = false end) ->
  reflects f k k' -> reflects f (many_of P k) (many_of P k').
Proof.
  intros Hv Hr Hk s H. unfold many_of in *.
  destruct (span P s) as [w r] eqn:E.
  destruct (span_spec _ _ _ _ E) as (-> & Hw & Hd). cbn [snd] in H.
  assert (Ef : f (w ++ r) = w ++ f r).
  { apply (scan_keep _ _ Hscan). intros u t -> Ht.
    rewrite forallb_app in Hw. apply andb_true_iff in Hw.
    destruct Hw as [_ Hw]. destruct t as [|c t]; [contradiction|].
    cbn in Hw. apply andb_true_iff in Hw. destruct Hw as [Hc _].
    now apply Hv. }
  rewrite Ef.
  assert (Es : span P (w ++ f r) = (w, f r)).
  { destruct r as [|d r1].
    - rewrite (scan_nil _ _ Hscan), app_nil_r. now apply span_all.
    - destruct (m (d :: r1)) as [[r0 rest]|] eqn:Em.
      + rewrite (scan_hit _ _ Hscan _ _ _ Em).
        pose proof (Hr _ _ _ Em) as Hh.
        destruct r0 as [|e r0']; [contradiction|].
        now apply span_stop.
      + rewrite (scan_miss _ _ Hscan _ _ Em). now apply span_stop. }
  rewrite Es. cbn [snd]. now apply Hk.
Qed.

(** Where the scan starts nowhere in a literal, it copies the literal. *)
Lemma inert_copies (q : text) :
  (forall z, inert m q z) -> forall y, f (q ++ y) = q ++ f y.
Proof. intros H y. apply (scan_keep _ _ Hscan), H. Qed.

(** Where the rule fails at the head of a literal and starts nowhere
    later in it, the scan copies the literal. *)
Lemma miss_copies (c : ascii) (q y : text) :
  m (c :: q ++ y) = None -> inert m q y ->
  f ((c :: q) ++ y) = (c :: q) ++ f y.
Proof.
  intros H1 H2. cbn [app]. rewrite (scan_miss _ _ Hscan _ _ H1).
  now rewrite (scan_keep _ _ Hscan).
Qed.

End ScanQuiet.

(** Replacements that begin with [rhead] begin with no tail of a literal
    that clashes with [rhead] everywhere. *)
Lemma head_never (q rhead r0 z r' : text) (j : nat) :
  untouched rhead q = true -> j < length q ->
  strip (skipn j q) ((rhead ++ r0) ++ z) = Some r' -> False.
Proof.
  intros H Hj E. rewrite (head_clashes q rhead r0 z j H Hj) in E.
  discriminate.
Qed.

(* ================================================================== *)
(** ** What Identifier Resolution leaves behind *)

(** The replacements of the three rules. *)
Lemma two_shape (s r rest : text) :
  two_matcher s = Some (r, rest) ->
  exists w1 w2,
    forallb is_word w1 = true /\ forallb is_word w2 = true /\
    r = resolved (w1 ++ "." :: w2).
Proof.
  unfold two_matcher, some_of, lit, done. intros H.
  destruct (span is_word s) as [[|c w] r0] eqn:E1; [discriminate|].
  destruct (span_spec _ _ _ _ E1) as (_ & H1 & _).
  destruct (strip ["."] r0) as [r1|]; [|discriminate].
  destruct (span is_word r1) as [[|c2 w2] r2] eqn:E2; [discriminate|].
  destruct (span_spec _ _ _ _ E2) as (_ & H2 & _).
  destruct (strip dot_node_clone r2); [|discriminate].
  inversion H. eauto.
Qed.

Lemma one_shape (s r rest : text) :
  one_matcher s = Some (r, rest) ->
  exists w, forallb is_word w = true /\ r = resolved w.
Proof.
  unfold one_matcher, some_of, lit, done. intros H.
  destruct (span is_word s) as [[|c w] r0] eqn:E1; [discriminate|].
  destruct (span_spec _ _ _ _ E1) as (_ & H1 & _).
  destruct (strip dot_node_clone r0); [|discriminate].
  inversion H. eauto.
Qed.

(** No rule of the stage starts inside a replacement of the stage. *)
Lemma two_inert_resolved (w1 w2 z : text) :
  forallb is_word w1 = true -> forallb is_word w2 = true ->
  inert two_matcher (resolved (w1 ++ "." :: w2)) z.
Proof.
  intros H1 H2. unfold resolved. apply inert_app.
  { apply inert_check. vm_compute. reflexivity. }
  apply inert_app.
  2:{ apply inert_check. vm_compute. reflexivity. }
  change (w1 ++ "." :: w2) with (w1 ++ ["."] ++ w2).
  apply inert_app.
  { apply some_inert; [exact H1|]. intros a. rewrite <- !app_assoc.
    cbn [app]. change (span is_word ("." :: ?x)) with (@nil ascii, "." :: x).
    cbn [snd]. unfold lit at 1. cbn [strip].
    change (Ascii.eqb "." ".") with true. cbv iota. unfold some_of.
    change (T ".node).to_string()" ++ z)
      with ("." :: T "node).to_string()" ++ z).
    rewrite (span_stop is_word w2 _ "." H2 eq_refl).
    destruct w2; reflexivity. }
  apply inert_app.
  { apply inert_check. vm_compute. reflexivity. }
  apply some_inert; [exact H2|]. intros a. vm_compute. reflexivity.
Qed.

Lemma two_inert_resolved_single (w z : text) :
  forallb is_word w = true -> inert two_matcher (resolved w) z.
Proof.
  intros H. unfold resolved. apply inert_app.
  { apply inert_check. vm_compute. reflexivity. }
  apply inert_app.
  - apply some_inert; [exact H|]. intros a. vm_compute. reflexivity.
  - apply inert_check. vm_compute. reflexivity.
Qed.

Lemma one_inert_resolved_single (w z : text) :
  forallb is_word w = true -> inert one_matcher (resolved w) z.
Proof.
  intros H. unfold resolved. apply inert_app.
  { apply inert_check. vm_compute. reflexivity. }
  apply inert_app.
  - apply some_inert; [exact H|]. intros a. vm_compute. reflexivity.
  - apply inert_check. vm_compute. reflexivity.
Qed.

Lemma lookup_resolved_parts (a fld : text) :
  lookup_resolved (a ++ "." :: fld ++ T ".node")
  = T "self.symbol_table.lookup(self.interner.resolve("
      ++ a ++ ["."] ++ (fld ++ T ".node))").
Proof.
  unfold lookup_resolved. rewrite <- !app_assoc. cbn [app].
  now rewrite <- !app_assoc.
Qed.

Lemma two_inert_lookup_resolved (a fld z : text) :
  forallb is_lower_ a = true -> In fld lookup_fields ->
  inert two_matcher (lookup_resolved (a ++ "." :: fld ++ T ".node")) z.
Proof.
  intros Ha Hf. apply lower_run_is_word in Ha.
  rewrite lookup_resolved_parts. apply inert_app.
  { apply inert_check. vm_compute. reflexivity. }
  apply inert_app.
  { apply some_inert; [exact Ha|]. intros b.
    destruct Hf as [<-|[<-|[<-|[]]]]; vm_compute; reflexivity. }
  apply inert_app.
  { apply inert_check. vm_compute. reflexivity. }
  destruct Hf as [<-|[<-|[<-|[]]]]; apply inert_check; vm_compute;
    reflexivity.
Qed.

Lemma one_inert_lookup_resolved (a fld z : text) :
  forallb is_lower_ a = true -> In fld lookup_fields ->
  inert one_matcher (lookup_resolved (a ++ "." :: fld ++ T ".node")) z.
Proof.
  intros Ha Hf. apply lower_run_is_word in Ha.
  rewrite lookup_resolved_parts. apply inert_app.
  { apply inert_check. vm_compute. reflexivity. }
  apply inert_app.
  { apply some_inert; [exact Ha|]. intros b.
    destruct Hf as [<-|[<-|[<-|[]]]]; vm_compute; reflexivity. }
  apply inert_app.
  { apply inert_check. vm_compute. reflexivity. }
  destruct Hf as [<-|[<-|[<-|[]]]]; apply inert_check; vm_compute;
    reflexivity.
Qed.

Lemma lookup_inert_lookup_resolved (a fld z : text) :
  forallb is_lower_ a = true -> In fld lookup_fields ->
  inert lookup_matcher (lookup_resolved (a ++ "." :: fld ++ T ".node")) z.
Proof.
  intros Ha Hf. apply lower_run_is_word in Ha.
  rewrite lookup_resolved_parts. apply inert_app.
  { apply inert_check. vm_compute. reflexivity. }
  apply inert_app.
  { apply lit_inert_word; [exact Ha|]. intros t Ht.
    unfold lookup_head. cbn [app].
    destruct Hf as [<-|[<-|[<-|[]]]]; strip_none. }
  apply inert_app.
  { apply inert_check. vm_compute. reflexivity. }
  destruct Hf as [<-|[<-|[<-|[]]]]; apply inert_check; vm_compute;
    reflexivity.
Qed.

(** Patterns 1 and 2 against a scan whose rule needs a word character to
    start and whose replacements begin with [rhead]. *)
Section WordObservers.

Variables (m : matcher) (f : text -> text) (rhead : text).
Hypothesis Hscan : scans m f.
Hypothesis Hword : forall d s, is_word d = false -> m (d :: s) = None.
Hypothesis Hshape : forall s r rest,
  m s = Some (r, rest) -> exists r0, r = rhead ++ r0.
Hypothesis Hdot : forall z, inert m ["."] z.
Hypothesis Hclone : forall z, inert m dot_node_clone z.
Hypothesis Hrh_dot : untouched rhead ["."] = true.
Hypothesis Hrh_clone : untouched rhead dot_node_clone = true.
Hypothesis Hdead_one : forall g u y,
  forallb is_word u = true ->
  some_of is_word (fun a => lit dot_node_clone (done (g a)))
    (u ++ rhead ++ y) = None.
Hypothesis Hdead_two : forall u y,
  forallb is_word u = true -> two_matcher (u ++ rhead ++ y) = None.

Lemma clone_reflects (r : text) :
  reflects f (lit dot_node_clone (done r)) (lit dot_node_clone (done r)).
Proof.
  apply (lit_reflects _ _ Hscan).
  - intros s r1 rest j z r' Em Hj E. exfalso.
    destruct (Hshape _ _ _ Em) as [r0 ->].
    exact (head_never _ _ _ _ _ _ Hrh_clone Hj E).
  - intros y _. apply (inert_copies _ _ Hscan), Hclone.
  - apply done_reflects.
Qed.

Lemma word_clone_reflects (g : text -> text) :
  reflects f (some_of is_word (fun a => lit dot_node_clone (done (g a))))
             (some_of is_word (fun a => lit dot_node_clone (done (g a)))).
Proof.
  apply (some_reflects _ _ Hscan).
  - exact Hword.
  - intros s r rest u z Em Hu. destruct (Hshape _ _ _ Em) as [r0 ->].
    rewrite <- app_assoc. now apply Hdead_one.
  - intros a. apply clone_reflects.
Qed.

Lemma one_reflects_scan : reflects f one_matcher one_matcher.
Proof. exact (word_clone_reflects resolved). Qed.

Lemma two_reflects_scan : reflects f two_matcher two_matcher.
Proof.
  unfold two_matcher. apply (some_reflects _ _ Hscan).
  - exact Hword.
  - intros s r rest u z Em Hu. destruct (Hshape _ _ _ Em) as [r0 ->].
    rewrite <- app_assoc. now apply Hdead_two.
  - intros a. apply (lit_reflects _ _ Hscan).
    + intros s r1 rest j z r' Em Hj E. exfalso.
      destruct (Hshape _ _ _ Em) as [r0 ->].
      exact (head_never _ _ _ _ _ _ Hrh_dot Hj E).
    + intros y _. apply (inert_copies _ _ Hscan), Hdot.
    + apply word_clone_reflects.
Qed.

End WordObservers.

Lemma two_needs_word (d : ascii) (s : text) :
  is_word d = false -> two_matcher (d :: s) = None.
Proof. intros H. unfold two_matcher, some_of. cbn [span]. now rewrite H. Qed.

Lemma one_needs_word (d : ascii) (s : text) :
  is_word d = false -> one_matcher (d :: s) = None.
Proof. intros H. unfold one_matcher, some_of. cbn [span]. now rewrite H. Qed.

Lemma lookup_needs_s (d : ascii) (s : text) :
  d <> "s" -> lookup_matcher (d :: s) = None.
Proof.
  intros H. unfold lookup_matcher, lit.
  change (strip lookup_head (d :: s))
    with (if Ascii.eqb "s" d then strip (T "elf.symbol_table.lookup(&") s
          else None).
  destruct (Ascii.eqb_spec "s" d); [congruence|reflexivity].
Qed.

Lemma lookup_needs_word (d : ascii) (s : text) :
  is_word d = false -> lookup_matcher (d :: s) = None.
Proof. intros H. apply lookup_needs_s. intros ->. discriminate H. Qed.

(** After a run of word characters, a resolver call ends the word with
    [self] and goes on with a dot and a name that is not [node]. *)
Lemma word_clone_dead_resolved (g : text -> text) (u y : text) :
  forallb is_word u = true ->
  some_of is_word (fun a => lit dot_node_clone (done (g a)))
    (u ++ T "self.interner.resolve(" ++ y) = None.
Proof.
  intros Hu. unfold some_of. rewrite (span_app_all _ _ _ Hu).
  change (span is_word (T "self.interner.resolve(" ++ y))
    with (T "self", T ".interner.resolve(" ++ y).
  cbn [fst snd]. destruct (u ++ T "self"); reflexivity.
Qed.

Lemma two_dead_resolved (u y : text) :
  forallb is_word u = true ->
  two_matcher (u ++ T "self.interner.resolve(" ++ y) = None.
Proof.
  intros Hu. unfold two_matcher, some_of. rewrite (span_app_all _ _ _ Hu).
  change (span is_word (T "self.interner.resolve(" ++ y))
    with (T "self", T ".interner.resolve(" ++ y).
  cbn [fst snd]. destruct (u ++ T "self"); reflexivity.
Qed.

Lemma word_clone_dead_lookup (g : text -> text) (u y : text) :
  forallb is_word u = true ->
  some_of is_word (fun a => lit dot_node_clone (done (g a)))
    (u ++ T "self.symbol_table.lookup(self.interner.resolve(" ++ y) = None.
Proof.
  intros Hu. unfold some_of. rewrite (span_app_all _ _ _ Hu).
  change (span is_word
            (T "self.symbol_table.lookup(self.interner.resolve(" ++ y))
    with (T "self",
          T ".symbol_table.lookup(self.interner.resolve(" ++ y).
  cbn [fst snd]. destruct (u ++ T "self"); reflexivity.
Qed.

Lemma two_dead_lookup (u y : text) :
  forallb is_word u = true ->
  two_matcher
    (u ++ T "self.symbol_table.lookup(self.interner.resolve(" ++ y) = None.
Proof.
  intros Hu. unfold two_matcher, some_of. rewrite (span_app_all _ _ _ Hu).
  change (span is_word
            (T "self.symbol_table.lookup(self.interner.resolve(" ++ y))
    with (T "self",
          T ".symbol_table.lookup(self.interner.resolve(" ++ y).
  cbn [fst snd]. destruct (u ++ T "self"); reflexivity.
Qed.

Lemma two_begins (s r rest : text) :
  two_matcher s = Some (r, rest) ->
  exists r0, r = T "self.interner.resolve(" ++ r0.
Proof.
  intros E. destruct (two_yields _ _ _ E) as [b ->]. unfold resolved. eauto.
Qed.

Lemma one_begins (s r rest : text) :
  one_matcher s = Some (r, rest) ->
  exists r0, r = T "self.interner.resolve(" ++ r0.
Proof.
  intros E. destruct (one_yields _ _ _ E) as [b ->]. unfold resolved. eauto.
Qed.

Lemma lookup_begins (s r rest : text) :
  lookup_matcher s = Some (r, rest) ->
  exists r0, r = T "self.symbol_table.lookup(self.interner.resolve(" ++ r0.
Proof.
  intros E. destruct (lookup_yields _ _ _ E) as [b ->].
  unfold lookup_resolved. eauto.
Qed.

(** Pattern 1 finds nothing after its own scan, nor after those of
    patterns 2 and 3. *)
Lemma two_quiet_after_two (s : text) : quiet two_matcher (gsub pat_two rep_two s).
Proof.
  apply (scan_quiet _ _ wf_scans_two).
  - intros s0 r rest z E.
    destruct (two_shape _ _ _ E) as (w1 & w2 & H1 & H2 & ->).
    now apply two_inert_resolved.
  - apply (two_reflects_scan _ _ _ wf_scans_two two_needs_word two_begins);
      first [ reflexivity
            | intros; apply inert_check; vm_compute; reflexivity
            | intros; now apply word_clone_dead_resolved
            | intros; now apply two_dead_resolved ].
  - auto.
Qed.

Lemma two_quiet_after_one (s : text) :
  quiet two_matcher s -> quiet two_matcher (gsub pat_one rep_one s).
Proof.
  intros Hq. apply (scan_quiet _ _ wf_scans_one).
  - intros s0 r rest z E. destruct (one_shape _ _ _ E) as (w & H1 & ->).
    now apply two_inert_resolved_single.
  - apply (two_reflects_scan _ _ _ wf_scans_one one_needs_word one_begins);
      first [ reflexivity
            | intros; apply inert_check; vm_compute; reflexivity
            | intros; now apply word_clone_dead_resolved
            | intros; now apply two_dead_resolved ].
  - intros u t E _. exact (Hq u t E).
Qed.

Lemma two_quiet_after_lookup (s : text) :
  quiet two_matcher s -> quiet two_matcher (gsub pat_lookup rep_lookup s).
Proof.
  intros Hq. apply (scan_quiet _ _ wf_scans_lookup).
  - intros s0 r rest z E.
    destruct (lookup_shape _ _ _ E) as (a & fld & _ & _ & Ha & Hf & ->).
    now apply two_inert_lookup_resolved.
  - apply (two_reflects_scan _ _ _ wf_scans_lookup lookup_needs_word
             lookup_begins);
      first [ reflexivity
            | intros; apply inert_check; vm_compute; reflexivity
            | intros; now apply word_clone_dead_lookup
            | intros; now apply two_dead_lookup ].
  - intros u t E _. exact (Hq u t E).
Qed.

(** Pattern 2 finds nothing after its own scan, nor after that of
    pattern 3. *)
Lemma one_quiet_after_one (s : text) : quiet one_matcher (gsub pat_one rep_one s).
Proof.
  apply (scan_quiet _ _ wf_scans_one).
  - intros s0 r rest z E. destruct (one_shape _ _ _ E) as (w & H1 & ->).
    now apply one_inert_resolved_single.
  - apply (one_reflects_scan _ _ _ wf_scans_one one_needs_word one_begins);
      first [ reflexivity
            | intros; apply inert_check; vm_compute; reflexivity
            | intros; now apply word_clone_dead_resolved ].
  - auto.
Qed.

Lemma one_quiet_after_lookup (s : text) :
  quiet one_matcher s -> quiet one_matcher (gsub pat_lookup rep_lookup s).
Proof.
  intros Hq. apply (scan_quiet _ _ wf_scans_lookup).
  - intros s0 r rest z E.
    destruct (lookup_shape _ _ _ E) as (a & fld & _ & _ & Ha & Hf & ->).
    now apply one_inert_lookup_resolved.
  - apply (one_reflects_scan _ _ _ wf_scans_lookup lookup_needs_word
             lookup_begins);
      first [ reflexivity
            | intros; apply inert_check; vm_compute; reflexivity
            | intros; now apply word_clone_dead_lookup ].
  - intros u t E _. exact (Hq u t E).
Qed.

(** Pattern 3 finds nothing after its own scan. *)
Lemma lookup_reflects_lookup :
  reflects (gsub pat_lookup rep_lookup) lookup_matcher lookup_matcher.
Proof.
  assert (Hnever : forall q, untouched
            (T "self.symbol_table.lookup(self.interner.resolve(") q = true ->
            forall s r rest j z r',
              lookup_matcher s = Some (r, rest) -> j < length q ->
              strip (skipn j q) (r ++ z) = Some r' ->
              exists r'', strip (skipn j q) s = Some r'').
  { intros q Hq s r rest j z r' Em Hj E. exfalso.
    destruct (lookup_begins _ _ _ Em) as [r0 ->].
    exact (head_never _ _ _ _ _ _ Hq Hj E). }
  assert (Hcopy : forall q,
            (forall z, inert lookup_matcher q z) ->
            forall y, gsub pat_lookup rep_lookup (q ++ y)
                      = q ++ gsub pat_lookup rep_lookup y).
  { intros q Hq. now apply (inert_copies _ _ wf_scans_lookup). }
  unfold lookup_matcher at 1 2.
  apply (lit_reflects _ _ wf_scans_lookup).
  - apply Hnever. reflexivity.
  - intros y Hy.
    change lookup_head with ("s" :: T "elf.symbol_table.lookup(&").
    apply (miss_copies _ _ wf_scans_lookup).
    + change ("s" :: T "elf.symbol_table.lookup(&" ++ y)
        with (lookup_head ++ y).
      unfold lookup_matcher, lit at 1. rewrite strip_app. exact Hy.
    + apply inert_check. vm_compute. reflexivity.
  - apply (some_reflects _ _ wf_scans_lookup).
    + intros d s Hd. apply lookup_needs_s. intros ->. discriminate Hd.
    + intros s r rest u z Em Hu.
      destruct (lookup_begins _ _ _ Em) as [r0 ->].
      unfold some_of. rewrite (span_app_all _ _ _ Hu).
      rewrite <- app_assoc.
      change (span is_lower_
                (T "self.symbol_table.lookup(self.interner.resolve("
                   ++ r0 ++ z))
        with (T "self",
              T ".symbol_table.lookup(self.interner.resolve(" ++ r0 ++ z).
      cbn [fst snd]. destruct (u ++ T "self"); reflexivity.
    + intros a. apply (lit_reflects _ _ wf_scans_lookup).
      * apply Hnever. reflexivity.
      * intros y _. apply Hcopy. intros z.
        apply inert_check. vm_compute. reflexivity.
      * apply (one_of_reflects _ _ wf_scans_lookup). unfold lookup_fields.
        repeat constructor;
          try (apply Hnever; reflexivity);
          try (apply Hcopy; intros z; apply inert_check; vm_compute;
               reflexivity);
          (apply (lit_reflects _ _ wf_scans_lookup);
           [ apply Hnever; reflexivity
           | intros y _; apply Hcopy; intros z; apply inert_check;
             vm_compute; reflexivity
           | apply done_reflects ]).
Qed.

Lemma lookup_quiet_after_lookup (s : text) :
  quiet lookup_matcher (gsub pat_lookup rep_lookup s).
Proof.
  apply (scan_quiet _ _ wf_scans_lookup).
  - intros s0 r rest z E.
    destruct (lookup_shape _ _ _ E) as (a & fld & _ & _ & Ha & Hf & ->).
    now apply lookup_inert_lookup_resolved.
  - exact lookup_reflects_lookup.
  - auto.
Qed.

(** X11.  Identifier Resolution leaves none of its three patterns behind, so
    that applying it again changes nothing. *)
Theorem fix_stringid_conversions_is_idempotent (x : text) :
  exists y,
    fix_stringid_conversions x = Some y /\
    clean FixStringidConversions y /\
    fix_stringid_conversions y = Some y.
Proof.
  eexists. split; [apply fix_stringid_conversions_eq|].
  set (y := gsub pat_lookup rep_lookup
              (gsub pat_one rep_one (gsub pat_two rep_two x))).
  assert (H1 : quiet two_matcher y).
  { apply two_quiet_after_lookup, two_quiet_after_one, two_quiet_after_two. }
  assert (H2 : quiet one_matcher y).
  { apply one_quiet_after_lookup, one_quiet_after_one. }
  assert (H3 : quiet lookup_matcher y) by apply lookup_quiet_after_lookup.
  split.
  - repeat constructor.
    + apply (absent_intro pat_two rep_two _ wf_two).
      exact (quiet_ext _ _ _ two_rule H1).
    + apply (absent_intro pat_one rep_one _ wf_one).
      exact (quiet_ext _ _ _ one_rule H2).
    + apply (absent_intro pat_lookup rep_lookup _ wf_lookup).
      exact (quiet_ext _ _ _ lookup_rule H3).
  - rewrite fix_stringid_conversions_eq. f_equal.
    rewrite (quiet_id _ _ _ wf_scans_two H1).
    rewrite (quiet_id _ _ _ wf_scans_one H2).
    exact (quiet_id _ _ _ wf_scans_lookup H3).
Qed.

(* ================================================================== *)
(** ** What Call-Site Parameter Injection leaves behind *)

(** A call-site rule against the scan of a call-site rule [head2 ...]
    whose replacements [head2 arg, t2] go on after the comma with a text
    [t2] that is not the call's ending. *)
Section CallObserver.

Variables (head tail head2 t2 : text) (f : text -> text).
Hypothesis Hscan : scans (call_matcher head2 ("," :: t2)) f.
Hypothesis Hnc2 : forallb not_comma head2 = true.
Hypothesis Hfirst :
  (match head2 with
   | [] => false
   | e :: _ => not_comma e && negb (is_space e)
   end) = true.
Hypothesis Ht2 : forall r z,
  many_of is_space (lit handler_clone_close (done r)) (t2 ++ z) = None.
Hypothesis Hn_comma : untouched head2 [","] = true.
Hypothesis Hn_close : untouched head2 handler_clone_close = true.
Hypothesis Hhead_kept : forall s r rest j z r',
  call_matcher head2 ("," :: t2) s = Some (r, rest) -> j < length head ->
  strip (skipn j head) (r ++ z) = Some r' ->
  exists r'', strip (skipn j head) s = Some r''.
Hypothesis Hhead_copy : forall y,
  some_of not_comma (fun a =>
    lit [","] (many_of is_space
      (lit handler_clone_close (done (head ++ a ++ tail))))) y = None ->
  f (head ++ y) = head ++ f y.

Lemma scanner_needs_head (d : ascii) (s : text) :
  not_comma d && negb (is_space d) = false ->
  call_matcher head2 ("," :: t2) (d :: s) = None.
Proof.
  intros Hd. unfold call_matcher, lit at 1.
  destruct head2 as [|e h]; [discriminate|]. cbn [strip].
  destruct (Ascii.eqb_spec e d); [|reflexivity]. subst. congruence.
Qed.

Lemma scanner_begins (s r rest : text) :
  call_matcher head2 ("," :: t2) s = Some (r, rest) ->
  exists a, forallb not_comma a = true /\ r = head2 ++ a ++ "," :: t2.
Proof.
  intros E. destruct (call_shape _ _ _ _ _ E) as (a & ws & _ & _ & Ha & _ & ->).
  eauto.
Qed.

Lemma scanner_inert_lit (q : text) (z : text) :
  untouched head2 q = true -> inert (call_matcher head2 ("," :: t2)) q z.
Proof. intros H. unfold call_matcher. now apply lit_head_inert. Qed.

Lemma call_reflects_scan :
  reflects f (call_matcher head tail) (call_matcher head tail).
Proof.
  assert (Hnever : forall q, untouched head2 q = true ->
            forall s r rest j z r',
              call_matcher head2 ("," :: t2) s = Some (r, rest) ->
              j < length q ->
              strip (skipn j q) (r ++ z) = Some r' ->
              exists r'', strip (skipn j q) s = Some r'').
  { intros q Hq s r rest j z r' Em Hj E. exfalso.
    destruct (scanner_begins _ _ _ Em) as (a & _ & ->).
    exact (head_never _ _ _ _ _ _ Hq Hj E). }
  unfold call_matcher at 1 2. apply (lit_reflects _ _ Hscan).
  - exact Hhead_kept.
  - exact Hhead_copy.
  - apply (some_reflects _ _ Hscan).
    + intros d s Hd. apply scanner_needs_head. now rewrite Hd.
    + intros s r rest u z Em Hu.
      destruct (scanner_begins _ _ _ Em) as (a & Ha & ->).
      unfold some_of.
      replace (u ++ (head2 ++ a ++ "," :: t2) ++ z)
        with ((u ++ head2 ++ a) ++ "," :: t2 ++ z)
        by (rewrite <- !app_assoc; cbn [app]; now rewrite <- ?app_assoc).
      rewrite (span_stop not_comma (u ++ head2 ++ a));
        [|rewrite !forallb_app, Hu, Hnc2, Ha; reflexivity|reflexivity].
      destruct (u ++ head2 ++ a); [reflexivity|].
      unfold lit at 1. cbn [strip].
      change (Ascii.eqb "," ",") with true. cbv iota. apply Ht2.
    + intros a. apply (lit_reflects _ _ Hscan).
      * now apply Hnever.
      * intros y _. apply (inert_copies _ _ Hscan). intros z.
        now apply scanner_inert_lit.
      * apply (many_reflects _ _ Hscan).
        { intros c s Hc. apply scanner_needs_head. rewrite Hc.
          apply andb_false_r. }
        { intros s r rest Em.
          destruct (scanner_begins _ _ _ Em) as (a0 & _ & ->).
          destruct head2 as [|e h]; [discriminate|]. cbn.
          apply andb_true_iff in Hfirst. destruct Hfirst as [_ He].
          now apply negb_true_iff. }
        apply (lit_reflects _ _ Hscan).
        { now apply Hnever. }
        { intros y _. apply (inert_copies _ _ Hscan). intros z.
          now apply scanner_inert_lit. }
        apply done_reflects.
Qed.

(** The observing rule starts nowhere in a replacement of the scan. *)
Lemma call_inert_replacement (a z : text) :
  forallb not_comma head = true ->
  forallb not_comma a = true -> untouched head ("," :: t2) = true ->
  inert (call_matcher head tail) (head2 ++ a ++ "," :: t2) z.
Proof.
  intros Hh Ha Hu.
  replace (head2 ++ a ++ "," :: t2) with ((head2 ++ a) ++ "," :: t2)
    by now rewrite <- app_assoc.
  apply inert_app.
  - apply call_inert_arg; [exact Hh| |intros a0; apply Ht2].
    rewrite forallb_app, Hnc2, Ha. reflexivity.
  - unfold call_matcher. now apply lit_head_inert.
Qed.

End CallObserver.

(** A rule finds its own head again only where it stood. *)
Lemma call_head_kept_same (head tail : text) :
  no_straddle head head = true ->
  forall s r rest j z r',
    call_matcher head tail s = Some (r, rest) -> j < length head ->
    strip (skipn j head) (r ++ z) = Some r' ->
    exists r'', strip (skipn j head) s = Some r''.
Proof.
  intros Hs s r rest j z r' Em Hj E.
  destruct (call_shape _ _ _ _ _ Em) as (a & ws & -> & _ & _ & _ & ->).
  destruct j as [|j].
  - cbn [skipn]. rewrite strip_app. eauto.
  - exfalso. rewrite <- !app_assoc in E.
    rewrite clash_strip in E; [discriminate|].
    apply (forallb_seq _ _ _ _ Hs). lia.
Qed.

Lemma call_head_copy_same (head tail : text) (f : text -> text) (c : ascii)
    (h : text) :
  scans (call_matcher head tail) f -> head = c :: h ->
  untouched head h = true ->
  forall y,
    some_of not_comma (fun a =>
      lit [","] (many_of is_space
        (lit handler_clone_close (done (head ++ a ++ tail))))) y = None ->
    f (head ++ y) = head ++ f y.
Proof.
  intros Hs Eh Hu y Hy.
  assert (Em : call_matcher head tail (head ++ y) = None).
  { unfold call_matcher, lit at 1. rewrite strip_app. exact Hy. }
  rewrite Eh in *. apply (miss_copies _ _ Hs); [exact Em|].
  unfold call_matcher. now apply lit_head_inert.
Qed.

Lemma lexer_quiet_after_lexer (s : text) :
  quiet (call_matcher lexer_head lexer_tail) (gsub pat_lexer rep_lexer s).
Proof.
  apply (scan_quiet _ _ wf_scans_lexer).
  - intros s0 r rest z E.
    destruct (call_shape _ _ _ _ _ E) as (a & ws & _ & _ & Ha & _ & ->).
    apply (call_inert_replacement lexer_head lexer_tail lexer_head
             (T " handler.clone(), &self.interner)"));
      first [reflexivity | exact Ha | intros; vm_compute; reflexivity].
  - apply (call_reflects_scan lexer_head lexer_tail lexer_head
             (T " handler.clone(), &self.interner)") _ wf_scans_lexer);
      try reflexivity.
    + apply call_head_kept_same. reflexivity.
    + apply (call_head_copy_same _ _ _ "L" (T "exer::new(") wf_scans_lexer);
        reflexivity.
  - auto.
Qed.

Lemma parser_quiet_after_parser (s : text) :
  quiet (call_matcher parser_head parser_tail) (gsub pat_parser rep_parser s).
Proof.
  apply (scan_quiet _ _ wf_scans_parser).
  - intros s0 r rest z E.
    destruct (call_shape _ _ _ _ _ E) as (a & ws & _ & _ & Ha & _ & ->).
    apply (call_inert_replacement parser_head parser_tail parser_head
             (T " handler.clone(), &self.interner, &self.common)"));
      first [reflexivity | exact Ha | intros; vm_compute; reflexivity].
  - apply (call_reflects_scan parser_head parser_tail parser_head
             (T " handler.clone(), &self.interner, &self.common)") _
             wf_scans_parser);
      try reflexivity.
    + apply call_head_kept_same. reflexivity.
    + apply (call_head_copy_same _ _ _ "P" (T "arser::new(")
               wf_scans_parser); reflexivity.
  - auto.
Qed.

Lemma lexer_quiet_after_parser (s : text) :
  quiet (call_matcher lexer_head lexer_tail) s ->
  quiet (call_matcher lexer_head lexer_tail) (gsub pat_parser rep_parser s).
Proof.
  intros Hq. apply (scan_quiet _ _ wf_scans_parser).
  - intros s0 r rest z E.
    destruct (call_shape _ _ _ _ _ E) as (a & ws & _ & _ & Ha & _ & ->).
    apply (call_inert_replacement lexer_head lexer_tail parser_head
             (T " handler.clone(), &self.interner, &self.common)"));
      first [reflexivity | exact Ha | intros; vm_compute; reflexivity].
  - apply (call_reflects_scan lexer_head lexer_tail parser_head
             (T " handler.clone(), &self.interner, &self.common)") _
             wf_scans_parser);
      try reflexivity.
    + intros s0 r rest j z r' Em Hj E. exfalso.
      destruct (call_shape _ _ _ _ _ Em) as (a & ws & _ & _ & _ & _ & ->).
      refine (head_never lexer_head parser_head _ _ _ _ _ Hj E).
      reflexivity.
  - intros u t E _. exact (Hq u t E).
Qed.

(** X12.  Call-Site Parameter Injection leaves neither of its patterns
    behind, so that applying it again changes nothing. *)
Theorem fix_lexer_parser_calls_is_idempotent (x : text) :
  exists y,
    fix_lexer_parser_calls x = Some y /\
    clean FixLexerParserCalls y /\
    fix_lexer_parser_calls y = Some y.
Proof.
  eexists. split; [apply fix_lexer_parser_calls_eq|].
  set (y := gsub pat_parser rep_parser (gsub pat_lexer rep_lexer x)).
  assert (H1 : quiet (call_matcher lexer_head lexer_tail) y).
  { apply lexer_quiet_after_parser, lexer_quiet_after_lexer. }
  assert (H2 : quiet (call_matcher parser_head parser_tail) y)
    by apply parser_quiet_after_parser.
  split.
  - repeat constructor.
    + apply (absent_intro pat_lexer rep_lexer _ wf_lexer).
      exact (quiet_ext _ _ _ lexer_rule H1).
    + apply (absent_intro pat_parser rep_parser _ wf_parser).
      exact (quiet_ext _ _ _ parser_rule H2).
  - rewrite fix_lexer_parser_calls_eq. f_equal.
    rewrite (quiet_id _ _ _ wf_scans_lexer H1).
    exact (quiet_id _ _ _ wf_scans_parser H2).
Qed.

(* ================================================================== *)
(** ** The anchor line in any context *)

(** X13.  The two field lines are inserted after the anchor line wherever it
    stands, whatever the text around it; that text is rewritten on its own. *)
Theorem anchor_line_is_augmented_anywhere (x y : text) :
  exists x' y',
    add_interner_to_struct x = Some x' /\
    add_interner_to_struct y = Some y' /\
    add_interner_to_struct (x ++ anchor_line ++ y)
    = Some (x' ++ anchor_line ++ interner_line ++ common_line ++ y').
Proof.
  do 2 eexists. rewrite !add_interner_to_struct_eq.
  split; [reflexivity|]. split; [reflexivity|]. f_equal.
  rewrite struct_frame_anchor. apply anchor_replace.
Qed.

(* ================================================================== *)
(** ** Where patterns 1 and 2 match *)

Lemma two_shape_at (s r rest : text) :
  two_matcher s = Some (r, rest) ->
  exists a b,
    s = a ++ "." :: b ++ dot_node_clone ++ rest /\
    is_ident a = true /\ is_ident b = true.
Proof.
  unfold two_matcher, some_of, lit, done. intros H.
  destruct (span is_word s) as [[|c w] r0] eqn:E1; [discriminate|].
  destruct (span_spec _ _ _ _ E1) as (-> & H1 & _).
  destruct (strip ["."] r0) as [r1|] eqn:E2; [|discriminate].
  apply strip_Some in E2. subst r0.
  destruct (span is_word r1) as [[|c2 w2] r2] eqn:E3; [discriminate|].
  destruct (span_spec _ _ _ _ E3) as (-> & H2 & _).
  destruct (strip dot_node_clone r2) as [r3|] eqn:E4; [|discriminate].
  apply strip_Some in E4. subst r2. inversion H; subst.
  exists (c :: w), (c2 :: w2). repeat split; auto.
Qed.

Lemma one_shape_at (s r rest : text) :
  one_matcher s = Some (r, rest) ->
  exists a, s = a ++ dot_node_clone ++ rest /\ is_ident a = true.
Proof.
  unfold one_matcher, some_of, lit, done. intros H.
  destruct (span is_word s) as [[|c w] r0] eqn:E1; [discriminate|].
  destruct (span_spec _ _ _ _ E1) as (-> & H1 & _).
  destruct (strip dot_node_clone r0) as [r3|] eqn:E4; [|discriminate].
  apply strip_Some in E4. subst r0. inversion H; subst.
  exists (c :: w). split; auto.
Qed.

(** X14.  Pattern 1 matches at the head of a text exactly when the text
    begins with two nonempty runs of word characters joined by a dot and
    followed by [.node.clone()]; pattern 2 exactly when it begins with one
    such run followed by [.node.clone()]. *)
Theorem clone_rules_fire_exactly_on_their_shapes (s : text) :
  (fires "(\w+)\.(\w+)\.node\.clone\(\)" s = true <->
   exists a b rest,
     s = a ++ T "." ++ b ++ T ".node.clone()" ++ rest /\
     is_ident a = true /\ is_ident b = true) /\
  (fires "(\w+)\.node\.clone\(\)" s = true <->
   exists a rest,
     s = a ++ T ".node.clone()" ++ rest /\ is_ident a = true).
Proof.
  split.
  - change (fires _ s) with (fires pat_two s).
    rewrite (fires_matcher _ _ s wf_two), two_rule. split.
    + destruct (two_matcher s) as [[r rest]|] eqn:E; [|discriminate].
      intros _. destruct (two_shape_at _ _ _ E) as (a & b & -> & Ha & Hb).
      exists a, b, rest. auto.
    + intros (a & b & rest & -> & Ha & Hb).
      change (T "." ++ b ++ T ".node.clone()" ++ rest)
        with ("." :: b ++ "." :: T "node.clone()" ++ rest).
      now rewrite (two_hit a b rest Ha Hb).
  - change (fires _ s) with (fires pat_one s).
    rewrite (fires_matcher _ _ s wf_one), one_rule. split.
    + destruct (one_matcher s) as [[r rest]|] eqn:E; [|discriminate].
      intros _. destruct (one_shape_at _ _ _ E) as (a & -> & Ha).
      exists a, rest. auto.
    + intros (a & rest & -> & Ha).
      change (T ".node.clone()" ++ rest)
        with ("." :: T "node.clone()" ++ rest).
      now rewrite (one_hit a rest Ha).
Qed.

(* ================================================================== *)
(** ** The order of the rules inside the two literal stages *)

Lemma struct_commutes_anchor (s : text) :
  gsub pat_struct rep_struct (gsub pat_anchor rep_anchor s)
  = gsub pat_anchor rep_anchor (gsub pat_struct rep_struct s).
Proof.
  apply (literals_commute _ _ _ _ _ _ struct_scans anchor_scans);
    first [discriminate | vm_compute; reflexivity].
Qed.

Lemma sig_commutes_init (s : text) :
  gsub old_sig new_sig (gsub pat_init rep_init s)
  = gsub pat_init rep_init (gsub old_sig new_sig s).
Proof.
  apply (literals_commute _ _ _ _ _ _ sig_scans init_scans);
    first [discriminate | vm_compute; reflexivity].
Qed.

(** X15.  In the struct stage and in the constructor stage the order of the
    two substitutions does not matter: each stage gives the text that its
    two [re.sub] calls give in the opposite order. *)
Theorem literal_stages_do_not_depend_on_rule_order (x : text) :
  add_interner_to_struct x
  = (y <- re_sub
            "(    diagnostic_handler: Arc<dyn DiagnosticHandler>,\n)"
            "\1    interner: &'a crate::string_interner::StringInterner,\n    common: &'a crate::string_interner::CommonIdentifiers,\n"
            x ;;
     re_sub "pub struct TypeChecker \{" "pub struct TypeChecker<'a> {" y) /\
  update_constructor x
  = (y <- re_sub
            "(            diagnostic_handler,\n)(        \};)"
            "\1            interner,\n            common,\n\2"
            x ;;
     re_sub old_sig new_sig y).
Proof.
  split.
  - rewrite add_interner_to_struct_eq.
    change (re_sub _ _ x) with (re_sub pat_anchor rep_anchor x).
    rewrite (re_sub_gsub _ _ x wf_anchor). cbn [opt_bind].
    change (re_sub _ _ ?z) with (re_sub pat_struct rep_struct z).
    rewrite (re_sub_gsub _ _ _ wf_struct).
    now rewrite struct_commutes_anchor.
  - rewrite update_constructor_eq.
    change (re_sub _ _ x) with (re_sub pat_init rep_init x).
    rewrite (re_sub_gsub _ _ x wf_init). cbn [opt_bind].
    rewrite (re_sub_gsub _ _ _ wf_sig).
    now rewrite sig_commutes_init.
Qed.

(* ================================================================== *)
(** ** Rules that stay quiet through the scans of other rules *)

(** A rule that is quiet in a text is quiet in the scanned text, when it
    starts nowhere in the replacement of a match in a text in which it is
    quiet, and fails where the scan copies a character. *)
Lemma scan_keeps_quiet (m : matcher) (f : text -> text) (m' : matcher) :
  scans m f ->
  (forall s r rest z, m s = Some (r, rest) -> quiet m' s -> inert m' r z) ->
  reflects f m' m' ->
  forall s, quiet m' s -> quiet m' (f s).
Proof.
  intros Hscan Hin Hre s. remember (length s) as n eqn:Hn. revert s Hn.
  induction n as [n IH] using lt_wf_ind. intros s Hn Hg.
  destruct s as [|c s].
  - rewrite (scan_nil _ _ Hscan). intros u t E.
    symmetry in E. apply app_eq_nil in E. destruct E as [_ ->].
    rewrite <- (scan_nil _ _ Hscan). apply Hre. now apply (Hg [] []).
  - destruct (m (c :: s)) as [[r rest]|] eqn:Em.
    + rewrite (scan_hit _ _ Hscan _ _ _ Em).
      destruct (scan_productive _ _ Hscan _ _ _ Em) as (c0 & u0 & Es).
      assert (Hq : quiet m' (f rest)).
      { apply (IH (length rest)); [|reflexivity|].
        - subst n. rewrite Es. cbn [length]. rewrite length_app. lia.
        - intros u t E. apply (Hg ((c0 :: u0) ++ u) t).
          rewrite Es, E, <- app_assoc. reflexivity. }
      intros u t E. apply app_eq_app in E.
      destruct E as (l & [[-> ->]|[-> E]]).
      * destruct l as [|d l].
        { apply (Hq [] (f rest)). reflexivity. }
        apply (Hin _ _ _ (f rest) Em Hg u (d :: l));
          [reflexivity|discriminate].
      * apply (Hq l t E).
    + rewrite (scan_miss _ _ Hscan _ _ Em).
      assert (Hq : quiet m' (f s)).
      { apply (IH (length s)); [subst n; cbn; lia|reflexivity|].
        intros u t E. apply (Hg (c :: u) t). now rewrite E. }
      intros u t E. destruct u as [|d u].
      * cbn in E. subst t. rewrite <- (scan_miss _ _ Hscan _ _ Em).
        apply Hre. now apply (Hg [] (c :: s)).
      * inversion E; subst. now apply (Hq u t).
Qed.

(** *** Literals through a scan *)

(** A literal begins the scanned text only where it began the text, when
    the replacements of the scan begin with a text that clashes with every
    tail of the literal. *)
Lemma litm_reflects (m : matcher) (f : text -> text) (rhead q rq : text) :
  scans m f ->
  (forall s r rest, m s = Some (r, rest) -> exists r0, r = rhead ++ r0) ->
  untouched rhead q = true ->
  reflects f (lit_matcher q rq) (lit_matcher q rq).
Proof.
  intros Hscan Hshape Hu s H. unfold lit_matcher in *.
  destruct (strip q s) as [y|] eqn:E; [discriminate|].
  destruct (strip q (f s)) as [y|] eqn:E'; [|reflexivity].
  destruct q as [|c q']; [discriminate|].
  destruct (scan_prefix_kept _ _ Hscan (c :: q')) with (s := s) (j := 0)
    (r := y) as [r' Hr']; [|cbn; lia|exact E'|cbn [skipn] in Hr'; congruence].
  intros s0 r rest j z r' Em Hj Es. exfalso.
  destruct (Hshape _ _ _ Em) as [r0 ->].
  exact (head_never _ _ _ _ _ _ Hu Hj Es).
Qed.

(** A literal that does not begin a comma-free stretch and what follows
    its comma does not begin it before another text either, unless the
    literal runs on past that comma. *)
Lemma strip_free_cut (q t X Y : text) :
  forallb not_comma q = true ->
  strip q (t ++ "," :: X) = None -> strip q (t ++ "," :: Y) = None.
Proof.
  revert q. induction t as [|d t IH]; intros q Hq H.
  - destruct q as [|c q']; [discriminate|]. cbn in *.
    apply andb_true_iff in Hq. destruct Hq as [Hc _].
    unfold not_comma in Hc. apply negb_true_iff in Hc.
    rewrite Ascii.eqb_sym in Hc. now rewrite Hc.
  - destruct q as [|c q']; [discriminate|]. cbn in *.
    apply andb_true_iff in Hq. destruct Hq as [_ Hq].
    destruct (Ascii.eqb c d); [now apply IH|reflexivity].
Qed.

Lemma strip_comma_cut (q t X Y : text) :
  forallb not_comma t = true ->
  (forall a b, span not_comma q = (a, "," :: b) -> strip b Y = None) ->
  strip q (t ++ "," :: X) = None -> strip q (t ++ "," :: Y) = None.
Proof.
  intros Ht Hq H.
  destruct (span not_comma q) as [a [|e b]] eqn:E.
  - destruct (span_spec _ _ _ _ E) as (Eq & Ha & _).
    rewrite app_nil_r in Eq. subst a.
    now apply (strip_free_cut q t X Y Ha).
  - destruct (span_spec _ _ _ _ E) as (_ & _ & He).
    assert (e = ",") as ->.
    { unfold not_comma in He. apply negb_false_iff in He.
      symmetry. now apply Ascii.eqb_eq. }
    rewrite (strip_run_step not_comma q t "," Y Ht eq_refl), E.
    destruct (text_eqb a t); [|reflexivity].
    change (Ascii.eqb "," ",") with true. cbv iota. now apply (Hq a b).
Qed.

(** A literal whose leading word is not followed by a dot starts nowhere in
    a word that a dot follows. *)
Lemma litm_inert_word (q rq w rest : text) :
  (match span is_word q with
   | (_, e :: _) => negb (Ascii.eqb e ".")
   | (_, []) => false
   end) = true ->
  forallb is_word w = true ->
  inert (lit_matcher q rq) w ("." :: rest).
Proof.
  intros Hq Hw u t -> Ht. unfold lit_matcher.
  rewrite forallb_app in Hw. apply andb_true_iff in Hw. destruct Hw as [_ Hw].
  rewrite (strip_run_step is_word q t "." rest Hw eq_refl).
  destruct (span is_word q) as [a [|e b]]; [discriminate|].
  destruct (text_eqb a t); [|reflexivity].
  apply negb_true_iff in Hq. now rewrite Hq.
Qed.

(** A literal through the five scans of stages 4.3 and 4.4: it must clash
    with the texts these put in, and its leading word must not be followed
    by a dot. *)
Section LiteralThroughRules.

Variables (q rq : text).
Hypothesis Hword :
  (match span is_word q with
   | (_, e :: _) => negb (Ascii.eqb e ".")
   | (_, []) => false
   end) = true.
Hypothesis Hcomma : forall t2,
  In t2 [T " handler.clone(), &self.interner)";
         T " handler.clone(), &self.interner, &self.common)"] ->
  (match span not_comma q with
   | (_, _ :: b) => clash b t2
   | (_, []) => true
   end) = true.
Hypothesis Hheads : forall h,
  In h [lexer_head; parser_head; T "self.interner.resolve(";
        T "self.symbol_table.lookup(self.interner.resolve("] ->
  untouched h q = true.
Hypothesis Hresolve : forall h,
  In h [T "self.interner.resolve(";
        T "self.symbol_table.lookup(self.interner.resolve("] ->
  untouched q h = true.
Hypothesis Htails : forall t,
  In t [lexer_tail; parser_tail; T ".node).to_string()"; ["."];
        T ".name.node))"; T ".local.node))"; T ".key.node))"] ->
  untouched q t = true.

Lemma lit_through_call (head2 t2 : text) (f : text -> text) (s : text) :
  scans (call_matcher head2 ("," :: t2)) f ->
  forallb not_comma head2 = true ->
  In head2 [lexer_head; parser_head] ->
  In t2 [T " handler.clone(), &self.interner)";
         T " handler.clone(), &self.interner, &self.common)"] ->
  untouched q ("," :: t2) = true ->
  quiet (lit_matcher q rq) s -> quiet (lit_matcher q rq) (f s).
Proof.
  intros Hs Hnc Hh Ht Hu. apply (scan_keeps_quiet _ _ _ Hs).
  - intros s0 r rest z Em Hq.
    destruct (call_shape _ _ _ _ _ Em) as (a & ws & -> & _ & Ha & _ & ->).
    replace (head2 ++ a ++ "," :: t2) with ((head2 ++ a) ++ "," :: t2)
      by now rewrite <- app_assoc.
    apply inert_app; [|now apply lit_inert].
    intros u t E Hne. unfold lit_matcher.
    assert (Hnt : forallb not_comma t = true).
    { assert (Hall : forallb not_comma (head2 ++ a) = true)
        by (rewrite forallb_app, Hnc, Ha; reflexivity).
      rewrite E, forallb_app in Hall. now apply andb_true_iff in Hall. }
    set (y := ws ++ handler_clone_close ++ rest) in *.
    assert (E0 : strip q (t ++ "," :: y) = None).
    { specialize (Hq u (t ++ "," :: y)). unfold lit_matcher in Hq.
      destruct (strip q (t ++ "," :: y)); [|reflexivity].
      discriminate Hq.
      rewrite (app_assoc u t), <- E, <- app_assoc. reflexivity. }
    change (("," :: t2) ++ z) with ("," :: t2 ++ z).
    rewrite (strip_comma_cut q t y (t2 ++ z) Hnt);
      [reflexivity| |exact E0].
    intros a0 b Es. specialize (Hcomma t2 Ht). rewrite Es in Hcomma.
    now apply clash_strip.
  - apply (litm_reflects _ _ head2 _ _ Hs).
    + intros s0 r rest Em.
      destruct (call_shape _ _ _ _ _ Em) as (a & ws & _ & _ & _ & _ & ->).
      eauto.
    + apply Hheads. cbn. destruct Hh as [<-|[<-|[]]]; auto.
Qed.

Lemma lit_through_lexer (s : text) :
  quiet (lit_matcher q rq) s ->
  quiet (lit_matcher q rq) (gsub pat_lexer rep_lexer s).
Proof.
  apply (lit_through_call lexer_head (T " handler.clone(), &self.interner)")
           _ s wf_scans_lexer); cbn; auto.
  apply (Htails lexer_tail). cbn. auto.
Qed.

Lemma lit_through_parser (s : text) :
  quiet (lit_matcher q rq) s ->
  quiet (lit_matcher q rq) (gsub pat_parser rep_parser s).
Proof.
  apply (lit_through_call parser_head
           (T " handler.clone(), &self.interner, &self.common)")
           _ s wf_scans_parser); cbn; auto.
  apply (Htails parser_tail). cbn. auto 10.
Qed.

Lemma lit_inert_resolved_word (w z : text) :
  forallb is_word w = true -> inert (lit_matcher q rq) (resolved w) z.
Proof.
  intros Hw. unfold resolved. apply inert_app.
  { apply lit_inert, Hresolve. cbn. auto. }
  apply inert_app.
  - change (T ".node).to_string()" ++ z)
      with ("." :: T "node).to_string()" ++ z).
    now apply litm_inert_word.
  - apply lit_inert, Htails. cbn. auto.
Qed.

Lemma lit_inert_resolved_chain (w1 w2 z : text) :
  forallb is_word w1 = true -> forallb is_word w2 = true ->
  inert (lit_matcher q rq) (resolved (w1 ++ "." :: w2)) z.
Proof.
  intros H1 H2. unfold resolved. apply inert_app.
  { apply lit_inert, Hresolve. cbn. auto. }
  apply inert_app.
  2:{ apply lit_inert, Htails. cbn. auto. }
  change (w1 ++ "." :: w2) with (w1 ++ ["."] ++ w2).
  apply inert_app.
  { rewrite <- !app_assoc. cbn [app]. now apply litm_inert_word. }
  apply inert_app.
  { apply lit_inert, Htails. cbn. auto 10. }
  change (T ".node).to_string()" ++ z)
    with ("." :: T "node).to_string()" ++ z).
  now apply litm_inert_word.
Qed.

Lemma lit_through_two (s : text) :
  quiet (lit_matcher q rq) s ->
  quiet (lit_matcher q rq) (gsub pat_two rep_two s).
Proof.
  apply (scan_keeps_quiet _ _ _ wf_scans_two).
  - intros s0 r rest z Em _.
    destruct (two_shape _ _ _ Em) as (w1 & w2 & H1 & H2 & ->).
    now apply lit_inert_resolved_chain.
  - apply (litm_reflects _ _ (T "self.interner.resolve(") _ _ wf_scans_two
             two_begins).
    apply Hheads. cbn. auto.
Qed.

Lemma lit_through_one (s : text) :
  quiet (lit_matcher q rq) s ->
  quiet (lit_matcher q rq) (gsub pat_one rep_one s).
Proof.
  apply (scan_keeps_quiet _ _ _ wf_scans_one).
  - intros s0 r rest z Em _.
    destruct (one_shape _ _ _ Em) as (w & H1 & ->).
    now apply lit_inert_resolved_word.
  - apply (litm_reflects _ _ (T "self.interner.resolve(") _ _ wf_scans_one
             one_begins).
    apply Hheads. cbn. auto.
Qed.

Lemma lit_inert_resolved_lookup (a fld z : text) :
  forallb is_lower_ a = true -> In fld lookup_fields ->
  inert (lit_matcher q rq) (lookup_resolved (a ++ "." :: fld ++ T ".node")) z.
Proof.
  intros Ha Hf. apply lower_run_is_word in Ha.
  rewrite lookup_resolved_parts. apply inert_app.
  { apply lit_inert, Hresolve. cbn. auto 10. }
  apply inert_app.
  { rewrite <- !app_assoc. cbn [app]. now apply litm_inert_word. }
  apply lit_inert.
  destruct Hf as [<-|[<-|[<-|[]]]].
  - apply (Htails (T ".name.node))")). cbn. auto 10.
  - apply (Htails (T ".local.node))")). cbn. auto 10.
  - apply (Htails (T ".key.node))")). cbn. auto 10.
Qed.

Lemma lit_through_lookup (s : text) :
  quiet (lit_matcher q rq) s ->
  quiet (lit_matcher q rq) (gsub pat_lookup rep_lookup s).
Proof.
  apply (scan_keeps_quiet _ _ _ wf_scans_lookup).
  - intros s0 r rest z Em _.
    destruct (lookup_shape _ _ _ Em) as (a & fld & _ & _ & Ha & Hf & ->).
    now apply lit_inert_resolved_lookup.
  - apply (litm_reflects _ _
             (T "self.symbol_table.lookup(self.interner.resolve(") _ _
             wf_scans_lookup lookup_begins).
    apply Hheads. cbn. auto 10.
Qed.

(** The literal is still absent after the scans of both stages. *)
Lemma lit_through_rules (s : text) :
  quiet (lit_matcher q rq) s ->
  quiet (lit_matcher q rq)
    (gsub pat_lookup rep_lookup (gsub pat_one rep_one (gsub pat_two rep_two
       (gsub pat_parser rep_parser (gsub pat_lexer rep_lexer s))))).
Proof.
  intros H.
  now apply lit_through_lookup, lit_through_one, lit_through_two,
    lit_through_parser, lit_through_lexer.
Qed.

End LiteralThroughRules.

Ltac far_from_rules :=
  first
    [ vm_compute; reflexivity
    | let H := fresh in
      intros ? H; cbn [In] in H;
      repeat (destruct H as [<-|H]; [vm_compute; auto|]);
      destruct H ].

Lemma sig_through_rules (s : text) :
  quiet (lit_matcher sig_text sig_text') s ->
  quiet (lit_matcher sig_text sig_text')
    (gsub pat_lookup rep_lookup (gsub pat_one rep_one (gsub pat_two rep_two
       (gsub pat_parser rep_parser (gsub pat_lexer rep_lexer s))))).
Proof. apply lit_through_rules; far_from_rules. Qed.

Lemma init_through_rules (s : text) :
  quiet (lit_matcher init_text init_text') s ->
  quiet (lit_matcher init_text init_text')
    (gsub pat_lookup rep_lookup (gsub pat_one rep_one (gsub pat_two rep_two
       (gsub pat_parser rep_parser (gsub pat_lexer rep_lexer s))))).
Proof. apply lit_through_rules; far_from_rules. Qed.

Lemma impl_through_rules (s : text) :
  quiet (lit_matcher impl_header impl_header') s ->
  quiet (lit_matcher impl_header impl_header')
    (gsub pat_lookup rep_lookup (gsub pat_one rep_one (gsub pat_two rep_two
       (gsub pat_parser rep_parser (gsub pat_lexer rep_lexer s))))).
Proof. apply lit_through_rules; far_from_rules. Qed.

Lemma struct_through_rules (s : text) :
  quiet (lit_matcher struct_header struct_header') s ->
  quiet (lit_matcher struct_header struct_header')
    (gsub pat_lookup rep_lookup (gsub pat_one rep_one (gsub pat_two rep_two
       (gsub pat_parser rep_parser (gsub pat_lexer rep_lexer s))))).
Proof. apply lit_through_rules; far_from_rules. Qed.

(** A literal through the scan of a literal rule it cannot overlap. *)
Lemma lit_through_lit (p rp q rq : text) (f : text -> text) (s : text) :
  scans (lit_matcher p rp) f -> apart q rp = true ->
  quiet (lit_matcher q rq) s -> quiet (lit_matcher q rq) (f s).
Proof.
  intros Hs Ha. apply andb_true_iff in Ha. destruct Ha as [H1 H2].
  apply (scan_keeps_quiet _ _ _ Hs).
  - intros s0 r rest z Em _. unfold lit_matcher in Em.
    destruct (strip p s0); [|discriminate]. inversion Em; subst.
    now apply lit_inert.
  - apply (litm_reflects _ _ rp _ _ Hs); [|exact H2].
    intros s0 r rest Em. unfold lit_matcher in Em.
    destruct (strip p s0); [|discriminate]. inversion Em; subst.
    exists []. now rewrite app_nil_r.
Qed.

Lemma lit_inert_any (q rq : text) (k : matcher) (mid z : text) :
  inert (lit_matcher q rq) mid z -> inert (lit q k) mid z.
Proof.
  intros H u t E Ht. specialize (H u t E Ht). unfold lit_matcher, lit in *.
  destruct (strip q (t ++ z)); [discriminate|reflexivity].
Qed.

Lemma run_prefix (P : ascii -> bool) (a b w r : text) :
  forallb P a = true -> a ++ b = w ++ r ->
  match r with [] => True | d :: _ => P d = false end ->
  exists w2, w = a ++ w2 /\ b = w2 ++ r.
Proof.
  revert w. induction a as [|c a IH]; intros w Ha E Hr.
  - exists w. auto.
  - cbn in Ha. apply andb_true_iff in Ha. destruct Ha as [Hc Ha].
    destruct w as [|e w].
    + cbn in E. subst r. congruence.
    + inversion E; subst. destruct (IH w Ha H1 Hr) as (w2 & -> & ->).
      exists w2. auto.
Qed.

Section ScanSteps.

Variables (m : matcher) (f : text -> text).
Hypothesis Hscan : scans m f.

(** A nonempty run of a class, when the matches and the replacements of
    the scan are made of characters of the class: the run is rewritten to
    a run, and the rest of the pattern goes on where it did. *)
Lemma some_through (P : ascii -> bool) (k k' : text -> matcher) :
  (forall d s, P d = false -> m (d :: s) = None) ->
  (forall s r rest, m s = Some (r, rest) ->
     r <> [] /\ forallb P r = true /\
     exists mt, s = mt ++ rest /\ forallb P mt = true) ->
  (forall a a', reflects f (k a) (k' a')) ->
  reflects f (some_of P k) (some_of P k').
Proof.
  intros Hv Hm Hk.
  assert (Claim : forall n w r, length w = n ->
            forallb P w = true ->
            match r with [] => True | d :: _ => P d = false end ->
            exists w', f (w ++ r) = w' ++ f r /\ forallb P w' = true /\
                       (w = [] <-> w' = [])).
  { induction n as [n IH] using lt_wf_ind. intros w r Hn Hw Hr.
    destruct w as [|c w].
    - exists []. repeat split; auto.
    - cbn in Hw. apply andb_true_iff in Hw. destruct Hw as [Hc Hw].
      destruct (m ((c :: w) ++ r)) as [[r0 rest]|] eqn:Em.
      + rewrite (scan_hit _ _ Hscan _ _ _ Em).
        destruct (Hm _ _ _ Em) as (Hne & Hr0 & mt & E & Hmt).
        destruct (scan_productive _ _ Hscan _ _ _ Em) as (c0 & u0 & E0).
        assert (Emt : mt = c0 :: u0).
        { rewrite E in E0.
          change (c0 :: u0 ++ rest) with ((c0 :: u0) ++ rest) in E0.
          now apply app_inv_tail in E0. }
        destruct (run_prefix P mt rest (c :: w) r Hmt (eq_sym E) Hr)
          as (w2 & Ew & ->).
        assert (Hw2 : forallb P w2 = true).
        { assert (Hall : forallb P (c :: w) = true) by (cbn; now rewrite Hc).
          rewrite Ew, forallb_app in Hall.
          now apply andb_true_iff in Hall. }
        destruct (IH (length w2)) with (w := w2) (r := r)
          as (w' & Ef & Hw' & _); auto.
        { subst n. rewrite Ew, Emt, length_app. cbn. lia. }
        exists (r0 ++ w'). rewrite Ef, app_assoc. repeat split.
        * rewrite forallb_app, Hr0, Hw'. reflexivity.
        * discriminate.
        * intros E1. apply app_eq_nil in E1. now destruct E1.
      + change ((c :: w) ++ r) with (c :: w ++ r) in Em |- *.
        rewrite (scan_miss _ _ Hscan _ _ Em).
        destruct (IH (length w)) with (w := w) (r := r)
          as (w' & Ef & Hw' & _); auto.
        { subst n. cbn. lia. }
        exists (c :: w'). rewrite Ef. repeat split.
        * cbn. now rewrite Hc, Hw'.
        * discriminate.
        * discriminate. }
  intros s H. unfold some_of in *. destruct (span P s) as [w r] eqn:E.
  destruct (span_spec _ _ _ _ E) as (-> & Hw & Hr).
  destruct (Claim (length w) w r eq_refl Hw Hr) as (w' & Ef & Hw' & Hnil).
  rewrite Ef.
  assert (Es : span P (w' ++ f r) = (w', f r)).
  { destruct r as [|d r1].
    - rewrite (scan_nil _ _ Hscan), app_nil_r. now apply span_all.
    - rewrite (scan_miss _ _ Hscan _ _ (Hv d r1 Hr)). now apply span_stop. }
  rewrite Es. destruct w as [|c w].
  - destruct Hnil as [Hnil _]. now rewrite (Hnil eq_refl).
  - destruct w' as [|c' w'']; [reflexivity|]. now apply (Hk (c :: w)).
Qed.

(** A nonempty run of a class, when the scan matches only at characters
    outside the class and its replacements begin outside it. *)
Lemma some_reflects_apart (P : ascii -> bool) (k k' : text -> matcher) :
  (forall c s, P c = true -> m (c :: s) = None) ->
  (forall s r rest, m s = Some (r, rest) ->
     match r with [] => False | e :: _ => P e = false end) ->
  (forall a, reflects f (k a) (k' a)) ->
  reflects f (some_of P k) (some_of P k').
Proof.
  intros Hv Hr Hk s H. unfold some_of in *.
  destruct (span P s) as [w r] eqn:E.
  destruct (span_spec _ _ _ _ E) as (-> & Hw & Hd).
  assert (Ef : f (w ++ r) = w ++ f r).
  { apply (scan_keep _ _ Hscan). intros u t -> Ht.
    rewrite forallb_app in Hw. apply andb_true_iff in Hw.
    destruct Hw as [_ Hw]. destruct t as [|c t]; [contradiction|].
    cbn in Hw. apply andb_true_iff in Hw. destruct Hw as [Hc _].
    now apply Hv. }
  rewrite Ef.
  assert (Es : span P (w ++ f r) = (w, f r)).
  { destruct r as [|d r1].
    - rewrite (scan_nil _ _ Hscan), app_nil_r. now apply span_all.
    - destruct (m (d :: r1)) as [[r0 rest]|] eqn:Em.
      + rewrite (scan_hit _ _ Hscan _ _ _ Em).
        pose proof (Hr _ _ _ Em) as Hh.
        destruct r0 as [|e r0']; [contradiction|].
        now apply span_stop.
      + rewrite (scan_miss _ _ Hscan _ _ Em). now apply span_stop. }
  rewrite Es. destruct w; [reflexivity|]. now apply Hk.
Qed.

(** A possibly empty run of a class in which the scan may match: the rest
    of the pattern fails on a run of the class followed by a replacement,
    and the scan does not match at a character outside the class. *)
Lemma many_reflects_in (P : ascii -> bool) (k k' : matcher) :
  (forall d s, P d = false -> m (d :: s) = None) ->
  (forall s r rest u z, m s = Some (r, rest) -> forallb P u = true ->
     many_of P k' (u ++ r ++ z) = None) ->
  reflects f k k' -> reflects f (many_of P k) (many_of P k').
Proof.
  intros Hv Hd Hk.
  assert (Claim : forall w u r,
            forallb P u = true -> forallb P w = true ->
            match r with [] => True | d :: _ => P d = false end ->
            k r = None ->
            many_of P k' (u ++ f (w ++ r)) = None).
  { induction w as [|c w IH]; intros u r Hu Hw Hr H.
    - cbn [app]. unfold many_of. destruct r as [|d r1].
      + rewrite (scan_nil _ _ Hscan), app_nil_r.
        rewrite (span_all _ _ Hu). cbn [snd].
        rewrite <- (scan_nil _ _ Hscan). now apply Hk.
      + rewrite (scan_miss _ _ Hscan _ _ (Hv d r1 Hr)).
        rewrite (span_stop P u (f r1) d Hu Hr). cbn [snd].
        rewrite <- (scan_miss _ _ Hscan _ _ (Hv d r1 Hr)). now apply Hk.
    - cbn in Hw. apply andb_true_iff in Hw. destruct Hw as [Hc Hw].
      destruct (m ((c :: w) ++ r)) as [[r0 rest]|] eqn:Em.
      + rewrite (scan_hit _ _ Hscan _ _ _ Em). now apply (Hd _ _ _ _ _ Em).
      + change ((c :: w) ++ r) with (c :: w ++ r) in Em |- *.
        rewrite (scan_miss _ _ Hscan _ _ Em).
        change (u ++ c :: f (w ++ r)) with (u ++ [c] ++ f (w ++ r)).
        rewrite app_assoc. apply IH; auto.
        rewrite forallb_app, Hu. cbn. now rewrite Hc. }
  intros s H. unfold many_of in H. destruct (span P s) as [w r] eqn:E.
  destruct (span_spec _ _ _ _ E) as (-> & Hw & Hr). cbn [snd] in H.
  exact (Claim w [] r eq_refl Hw Hr H).
Qed.

End ScanSteps.

Lemma word_not_comma (c : ascii) : is_word c = true -> not_comma c = true.
Proof.
  intros H. unfold not_comma. destruct (Ascii.eqb_spec "," c); [|reflexivity].
  subst c. discriminate H.
Qed.

Lemma word_run_not_comma (w : text) :
  forallb is_word w = true -> forallb not_comma w = true.
Proof.
  intros H. apply forallb_forall. intros c Hc.
  rewrite forallb_forall in H. now apply word_not_comma, H.
Qed.

Lemma space_not_word (c : ascii) : is_space c = true -> is_word c = false.
Proof.
  destruct c as [[] [] [] [] [] [] [] []]; vm_compute; congruence.
Qed.

Lemma ident_is_run (w : text) : is_ident w = true -> forallb is_word w = true.
Proof. destruct w; [discriminate|]. auto. Qed.

(** *** Call-site rules through the scans of Identifier Resolution *)
Section CallThroughWords.

Variables (head tail : text) (m : matcher) (f : text -> text) (rhead : text).
Hypothesis Hscan : scans m f.
Hypothesis Hshape : forall s r rest,
  m s = Some (r, rest) -> exists r0, r = rhead ++ r0.
Hypothesis Hfree : forall s r rest,
  m s = Some (r, rest) ->
  forallb not_comma r = true /\
  exists mt, s = mt ++ rest /\ forallb not_comma mt = true.
Hypothesis Hmiss : forall d s,
  not_comma d && negb (is_space d) = false -> m (d :: s) = None.
Hypothesis Hrh :
  (match rhead with [] => false | e :: _ => negb (is_space e) end) = true.
Hypothesis Hrh_head : untouched rhead head = true.
Hypothesis Hrh_comma : untouched rhead [","] = true.
Hypothesis Hrh_close : untouched rhead handler_clone_close = true.
Hypothesis Hin_head : forall z, inert m head z.
Hypothesis Hin_close : forall z, inert m handler_clone_close z.

Lemma call_reflects_words :
  reflects f (call_matcher head tail) (call_matcher head tail).
Proof.
  assert (Hnever : forall q, untouched rhead q = true ->
            forall s r rest j z r',
              m s = Some (r, rest) -> j < length q ->
              strip (skipn j q) (r ++ z) = Some r' ->
              exists r'', strip (skipn j q) s = Some r'').
  { intros q Hq s r rest j z r' Em Hj E. exfalso.
    destruct (Hshape _ _ _ Em) as (r0 & ->).
    exact (head_never _ _ _ _ _ _ Hq Hj E). }
  unfold call_matcher. apply (lit_reflects _ _ Hscan).
  - now apply Hnever.
  - intros y _. apply (inert_copies _ _ Hscan), Hin_head.
  - apply (some_through _ _ Hscan).
    + intros d s Hd. apply Hmiss. now rewrite Hd.
    + intros s r rest Em. destruct (Hfree _ _ _ Em) as (Hr & Hmt).
      repeat split; auto.
      destruct (Hshape _ _ _ Em) as (r0 & ->).
      destruct rhead; [discriminate Hrh|discriminate].
    + intros a a'. apply (lit_reflects _ _ Hscan).
      * now apply Hnever.
      * intros y _. cbn [app]. apply (scan_miss _ _ Hscan).
        now apply Hmiss.
      * apply (many_reflects _ _ Hscan).
        { intros c s Hc. apply Hmiss. rewrite Hc. apply andb_false_r. }
        { intros s r rest Em. destruct (Hshape _ _ _ Em) as (r0 & ->).
          destruct rhead as [|e h]; [discriminate Hrh|]. cbn.
          now apply negb_true_iff. }
        apply (lit_reflects _ _ Hscan).
        { now apply Hnever. }
        { intros y _. apply (inert_copies _ _ Hscan), Hin_close. }
        apply done_reflects.
Qed.

End CallThroughWords.

Lemma two_free (s r rest : text) :
  two_matcher s = Some (r, rest) ->
  forallb not_comma r = true /\
  exists mt, s = mt ++ rest /\ forallb not_comma mt = true.
Proof.
  intros E. destruct (two_shape _ _ _ E) as (w1 & w2 & H1 & H2 & ->).
  destruct (two_shape_at _ _ _ E) as (a & b & -> & Ha & Hb).
  apply ident_is_run, word_run_not_comma in Ha, Hb.
  apply word_run_not_comma in H1, H2. split.
  - unfold resolved. rewrite !forallb_app. cbn [forallb].
    rewrite H1, H2. reflexivity.
  - exists (a ++ "." :: b ++ dot_node_clone). split.
    + rewrite <- !app_assoc. cbn [app]. now rewrite <- !app_assoc.
    + rewrite !forallb_app. cbn [forallb]. rewrite forallb_app.
      rewrite Ha, Hb. reflexivity.
Qed.

Lemma one_free (s r rest : text) :
  one_matcher s = Some (r, rest) ->
  forallb not_comma r = true /\
  exists mt, s = mt ++ rest /\ forallb not_comma mt = true.
Proof.
  intros E. destruct (one_shape _ _ _ E) as (w & H1 & ->).
  destruct (one_shape_at _ _ _ E) as (a & -> & Ha).
  apply ident_is_run, word_run_not_comma in Ha.
  apply word_run_not_comma in H1. split.
  - unfold resolved. rewrite !forallb_app. rewrite H1. reflexivity.
  - exists (a ++ dot_node_clone). split.
    + now rewrite <- !app_assoc.
    + rewrite !forallb_app. rewrite Ha. reflexivity.
Qed.

Lemma lookup_free (s r rest : text) :
  lookup_matcher s = Some (r, rest) ->
  forallb not_comma r = true /\
  exists mt, s = mt ++ rest /\ forallb not_comma mt = true.
Proof.
  intros E.
  destruct (lookup_shape _ _ _ E) as (a & fld & -> & _ & Ha & Hf & ->).
  apply lower_run_is_word, word_run_not_comma in Ha.
  assert (Hfld : forallb not_comma fld = true).
  { destruct Hf as [<-|[<-|[<-|[]]]]; reflexivity. }
  split.
  - unfold lookup_resolved. rewrite !forallb_app. cbn [forallb].
    rewrite !forallb_app. rewrite Ha, Hfld. reflexivity.
  - exists (lookup_head ++ a ++ "." :: fld ++ T ".node)"). split.
    + rewrite <- !app_assoc. cbn [app]. now rewrite <- !app_assoc.
    + rewrite !forallb_app. cbn [forallb]. rewrite forallb_app.
      rewrite Ha, Hfld. reflexivity.
Qed.

Lemma word_rule_miss (d : ascii) :
  not_comma d && negb (is_space d) = false -> is_word d = false.
Proof.
  intros H. apply andb_false_iff in H. destruct H as [H|H].
  - destruct (is_word d) eqn:E; [|reflexivity].
    apply word_not_comma in E. congruence.
  - apply negb_false_iff in H. now apply space_not_word.
Qed.

Ltac head_cases H :=
  cbn [In] in H; destruct H as [<-|[<-|[]]].

Ltac far_from_head :=
  first
    [ reflexivity
    | vm_compute; reflexivity
    | intros; apply inert_check; vm_compute; reflexivity
    | let H := fresh in
      intros ? H; cbn [In] in H;
      repeat (destruct H as [<-|H]; [vm_compute; auto|]);
      destruct H ].

Lemma call_through_two (head tail s : text) :
  In head [lexer_head; parser_head] ->
  quiet (call_matcher head tail) s ->
  quiet (call_matcher head tail) (gsub pat_two rep_two s).
Proof.
  intros Hh. apply (scan_keeps_quiet _ _ _ wf_scans_two).
  - intros s0 r rest z Em _.
    destruct (two_shape _ _ _ Em) as (w1 & w2 & H1 & H2 & ->).
    apply (lit_inert_any head []).
    head_cases Hh; apply lit_inert_resolved_chain; auto; far_from_head.
  - apply (call_reflects_words head tail _ _ (T "self.interner.resolve(")
             wf_scans_two two_begins two_free).
    + intros d s0 Hd. now apply two_needs_word, word_rule_miss.
    + reflexivity.
    + head_cases Hh; reflexivity.
    + reflexivity.
    + reflexivity.
    + head_cases Hh; far_from_head.
    + far_from_head.
Qed.

Lemma call_through_one (head tail s : text) :
  In head [lexer_head; parser_head] ->
  quiet (call_matcher head tail) s ->
  quiet (call_matcher head tail) (gsub pat_one rep_one s).
Proof.
  intros Hh. apply (scan_keeps_quiet _ _ _ wf_scans_one).
  - intros s0 r rest z Em _.
    destruct (one_shape _ _ _ Em) as (w & H1 & ->).
    apply (lit_inert_any head []).
    head_cases Hh; apply lit_inert_resolved_word; auto; far_from_head.
  - apply (call_reflects_words head tail _ _ (T "self.interner.resolve(")
             wf_scans_one one_begins one_free).
    + intros d s0 Hd. now apply one_needs_word, word_rule_miss.
    + reflexivity.
    + head_cases Hh; reflexivity.
    + reflexivity.
    + reflexivity.
    + head_cases Hh; far_from_head.
    + far_from_head.
Qed.

Lemma call_through_lookup (head tail s : text) :
  In head [lexer_head; parser_head] ->
  quiet (call_matcher head tail) s ->
  quiet (call_matcher head tail) (gsub pat_lookup rep_lookup s).
Proof.
  intros Hh. apply (scan_keeps_quiet _ _ _ wf_scans_lookup).
  - intros s0 r rest z Em _.
    destruct (lookup_shape _ _ _ Em) as (a & fld & _ & _ & Ha & Hf & ->).
    apply (lit_inert_any head []).
    head_cases Hh; apply lit_inert_resolved_lookup; auto; far_from_head.
  - apply (call_reflects_words head tail _ _
             (T "self.symbol_table.lookup(self.interner.resolve(")
             wf_scans_lookup lookup_begins lookup_free).
    + intros d s0 Hd. now apply lookup_needs_word, word_rule_miss.
    + reflexivity.
    + head_cases Hh; reflexivity.
    + reflexivity.
    + reflexivity.
    + head_cases Hh; far_from_head.
    + far_from_head.
Qed.

(** *** The rules of the later stages through the scan of the anchor line *)
Lemma anchor_yields (s r rest : text) :
  lit_matcher anchor_line anchor_block s = Some (r, rest) -> r = anchor_block.
Proof.
  unfold lit_matcher. intros E.
  destruct (strip anchor_line s); [|discriminate]. now inversion E.
Qed.

Lemma anchor_needs_space (d : ascii) (s : text) :
  d <> " " -> lit_matcher anchor_line anchor_block (d :: s) = None.
Proof.
  intros H. unfold lit_matcher.
  change (strip anchor_line (d :: s))
    with (if Ascii.eqb " " d
          then strip (T "   diagnostic_handler: Arc<dyn DiagnosticHandler>,"
                        ++ [newline]) s
          else None).
  destruct (Ascii.eqb_spec " " d); [congruence|reflexivity].
Qed.

Lemma anchor_never (q : text) :
  untouched anchor_block q = true ->
  forall s r rest j z r',
    lit_matcher anchor_line anchor_block s = Some (r, rest) -> j < length q ->
    strip (skipn j q) (r ++ z) = Some r' ->
    exists r'', strip (skipn j q) s = Some r''.
Proof.
  intros Hq s r rest j z r' Em Hj E. exfalso.
  rewrite (anchor_yields _ _ _ Em) in E.
  rewrite <- (app_nil_r anchor_block) in E.
  exact (head_never _ _ _ _ _ _ Hq Hj E).
Qed.

Lemma anchor_copies (q : text) :
  untouched anchor_line q = true ->
  forall y,
    gsub pat_anchor rep_anchor (q ++ y) = q ++ gsub pat_anchor rep_anchor y.
Proof.
  intros H. apply (inert_copies _ _ anchor_scans). intros z.
  now apply lit_inert.
Qed.

Lemma lit_reflects_anchor (q : text) (k k' : matcher) :
  untouched anchor_block q = true -> untouched anchor_line q = true ->
  reflects (gsub pat_anchor rep_anchor) k k' ->
  reflects (gsub pat_anchor rep_anchor) (lit q k) (lit q k').
Proof.
  intros H1 H2. apply (lit_reflects _ _ anchor_scans).
  - now apply anchor_never.
  - intros y _. now apply anchor_copies.
Qed.

Lemma run_reflects_anchor (P : ascii -> bool) (k k' : text -> matcher) :
  P " " = false ->
  (forall a, reflects (gsub pat_anchor rep_anchor) (k a) (k' a)) ->
  reflects (gsub pat_anchor rep_anchor) (some_of P k) (some_of P k').
Proof.
  intros HP. apply (some_reflects_apart _ _ anchor_scans).
  - intros c s Hc. apply anchor_needs_space. intros ->. congruence.
  - intros s r rest Em. rewrite (anchor_yields _ _ _ Em). exact HP.
Qed.

Lemma two_through_anchor (s : text) :
  quiet two_matcher s -> quiet two_matcher (gsub pat_anchor rep_anchor s).
Proof.
  apply (scan_keeps_quiet _ _ _ anchor_scans).
  - intros s0 r rest z Em _. rewrite (anchor_yields _ _ _ Em).
    apply inert_check. vm_compute. reflexivity.
  - unfold two_matcher. apply run_reflects_anchor; [reflexivity|]. intros a.
    apply lit_reflects_anchor; [reflexivity|reflexivity|].
    apply run_reflects_anchor; [reflexivity|]. intros b.
    apply lit_reflects_anchor; [reflexivity|reflexivity|].
    apply done_reflects.
Qed.

Lemma one_through_anchor (s : text) :
  quiet one_matcher s -> quiet one_matcher (gsub pat_anchor rep_anchor s).
Proof.
  apply (scan_keeps_quiet _ _ _ anchor_scans).
  - intros s0 r rest z Em _. rewrite (anchor_yields _ _ _ Em).
    apply inert_check. vm_compute. reflexivity.
  - unfold one_matcher. apply run_reflects_anchor; [reflexivity|]. intros a.
    apply lit_reflects_anchor; [reflexivity|reflexivity|].
    apply done_reflects.
Qed.

Lemma lookup_through_anchor (s : text) :
  quiet lookup_matcher s ->
  quiet lookup_matcher (gsub pat_anchor rep_anchor s).
Proof.
  apply (scan_keeps_quiet _ _ _ anchor_scans).
  - intros s0 r rest z Em _. rewrite (anchor_yields _ _ _ Em).
    unfold lookup_matcher. apply lit_head_inert. vm_compute. reflexivity.
  - unfold lookup_matcher.
    apply lit_reflects_anchor; [vm_compute; reflexivity|reflexivity|].
    apply run_reflects_anchor; [reflexivity|]. intros a.
    apply lit_reflects_anchor; [reflexivity|reflexivity|].
    apply (one_of_reflects _ _ anchor_scans).
    repeat constructor;
      first [ apply anchor_never; vm_compute; reflexivity
            | apply anchor_copies; reflexivity
            | apply lit_reflects_anchor;
              [reflexivity|reflexivity|apply done_reflects] ].
Qed.

Lemma call_through_anchor (head tail s : text) :
  In head [lexer_head; parser_head] ->
  quiet (call_matcher head tail) s ->
  quiet (call_matcher head tail) (gsub pat_anchor rep_anchor s).
Proof.
  intros Hh. apply (scan_keeps_quiet _ _ _ anchor_scans).
  - intros s0 r rest z Em _. rewrite (anchor_yields _ _ _ Em).
    unfold call_matcher. apply lit_head_inert.
    cbn [In] in Hh. destruct Hh as [<-|[<-|[]]]; vm_compute; reflexivity.
  - unfold call_matcher. apply lit_reflects_anchor.
    { cbn [In] in Hh. destruct Hh as [<-|[<-|[]]]; vm_compute; reflexivity. }
    { cbn [In] in Hh. destruct Hh as [<-|[<-|[]]]; reflexivity. }
    apply (some_reflects _ _ anchor_scans).
    + intros d s0 Hd. apply anchor_needs_space. intros ->. discriminate Hd.
    + intros s0 r rest u z Em Hu. rewrite (anchor_yields _ _ _ Em).
      unfold some_of.
      change (anchor_block ++ z)
        with (T "    diagnostic_handler: Arc<dyn DiagnosticHandler>"
                ++ "," :: (newline :: interner_line ++ common_line) ++ z).
      rewrite app_assoc.
      rewrite (span_stop not_comma
                 (u ++ T "    diagnostic_handler: Arc<dyn DiagnosticHandler>"));
        [|rewrite forallb_app, Hu; reflexivity|reflexivity].
      destruct (u ++ T "    diagnostic_handler: Arc<dyn DiagnosticHandler>");
        [reflexivity|].
      vm_compute. reflexivity.
    + intros a. apply lit_reflects_anchor; [reflexivity|reflexivity|].
      apply (many_reflects_in _ _ anchor_scans).
      * intros d s0 Hd. apply anchor_needs_space. intros ->. discriminate Hd.
      * intros s0 r rest u z Em Hu. rewrite (anchor_yields _ _ _ Em).
        unfold many_of.
        change (anchor_block ++ z)
          with (T "    " ++ "d" ::
                  (T "iagnostic_handler: Arc<dyn DiagnosticHandler>,"
                     ++ newline :: interner_line ++ common_line) ++ z).
        rewrite (app_assoc u (T "    ")).
        rewrite (span_stop is_space (u ++ T "    "));
          [|rewrite forallb_app, Hu; reflexivity|reflexivity].
        reflexivity.
      * apply lit_reflects_anchor; [reflexivity|reflexivity|].
        apply done_reflects.
Qed.

(* ================================================================== *)
(** ** A second run *)

Lemma lit_quiet_after (p rp : text) (f : text -> text) (s : text) :
  scans (lit_matcher p rp) f -> p <> [] -> apart p rp = true ->
  quiet (lit_matcher p rp) (f s).
Proof.
  intros Hs Hne Ha. apply lit_quiet. now apply (lit_none_left _ _ _ Hs).
Qed.

(** No rule of the later stages matches in the output of a run, and the
    struct header is marked everywhere. *)
Lemma run_output_settled (x : text) :
  let y :=
    gsub pat_lookup rep_lookup (gsub pat_one rep_one (gsub pat_two rep_two
      (gsub pat_parser rep_parser (gsub pat_lexer rep_lexer
        (gsub pat_impl rep_impl
          (gsub pat_init rep_init (gsub old_sig new_sig
            (gsub pat_anchor rep_anchor
              (gsub pat_struct rep_struct x))))))))) in
  quiet (lit_matcher struct_header struct_header') y /\ settled y.
Proof.
  intros y. subst y. split; [|repeat constructor].
  - apply struct_through_rules.
    apply (lit_through_lit _ _ _ _ _ _ impl_scans); [reflexivity|].
    apply (lit_through_lit _ _ _ _ _ _ init_scans); [reflexivity|].
    apply (lit_through_lit _ _ _ _ _ _ sig_scans); [reflexivity|].
    apply (lit_through_lit _ _ _ _ _ _ anchor_scans); [reflexivity|].
    apply (lit_quiet_after _ _ _ _ struct_scans); [discriminate|reflexivity].
  - apply sig_through_rules.
    apply (lit_through_lit _ _ _ _ _ _ impl_scans); [reflexivity|].
    apply (lit_through_lit _ _ _ _ _ _ init_scans); [reflexivity|].
    apply (lit_quiet_after _ _ _ _ sig_scans); [discriminate|reflexivity].
  - apply init_through_rules.
    apply (lit_through_lit _ _ _ _ _ _ impl_scans); [reflexivity|].
    apply (lit_quiet_after _ _ _ _ init_scans); [discriminate|reflexivity].
  - apply impl_through_rules.
    apply (lit_quiet_after _ _ _ _ impl_scans); [discriminate|reflexivity].
  - apply call_through_lookup, call_through_one, call_through_two;
      try (cbn; auto; fail).
    apply lexer_quiet_after_parser, lexer_quiet_after_lexer.
  - apply call_through_lookup, call_through_one, call_through_two;
      try (cbn; auto; fail).
    apply parser_quiet_after_parser.
  - apply two_quiet_after_lookup, two_quiet_after_one, two_quiet_after_two.
  - apply one_quiet_after_lookup, one_quiet_after_one.
  - apply lookup_quiet_after_lookup.
Qed.

(** The later stages change nothing in a settled text. *)
Lemma settled_fixed (y : text) :
  settled y ->
  gsub pat_lookup rep_lookup (gsub pat_one rep_one (gsub pat_two rep_two
    (gsub pat_parser rep_parser (gsub pat_lexer rep_lexer
      (gsub pat_impl rep_impl
        (gsub pat_init rep_init (gsub old_sig new_sig y))))))) = y.
Proof.
  intros H.
  inversion H as [|? ? Hsig H1]; subst. inversion H1 as [|? ? Hinit H2]; subst.
  inversion H2 as [|? ? Himpl H3]; subst. inversion H3 as [|? ? Hl H4]; subst.
  inversion H4 as [|? ? Hp H5]; subst. inversion H5 as [|? ? Ht H6]; subst.
  inversion H6 as [|? ? Ho H7]; subst. inversion H7 as [|? ? Hk _]; subst.
  rewrite (quiet_id _ _ _ sig_scans Hsig).
  rewrite (quiet_id _ _ _ init_scans Hinit).
  rewrite (quiet_id _ _ _ impl_scans Himpl).
  rewrite (quiet_id _ _ _ wf_scans_lexer Hl).
  rewrite (quiet_id _ _ _ wf_scans_parser Hp).
  rewrite (quiet_id _ _ _ wf_scans_two Ht).
  rewrite (quiet_id _ _ _ wf_scans_one Ho).
  exact (quiet_id _ _ _ wf_scans_lookup Hk).
Qed.

Lemma settled_clean (y : text) :
  settled y ->
  clean UpdateConstructor y /\ clean FixImplBlock y /\
  clean FixLexerParserCalls y /\ clean FixStringidConversions y.
Proof.
  intros H.
  inversion H as [|? ? Hsig H1]; subst. inversion H1 as [|? ? Hinit H2]; subst.
  inversion H2 as [|? ? Himpl H3]; subst. inversion H3 as [|? ? Hl H4]; subst.
  inversion H4 as [|? ? Hp H5]; subst. inversion H5 as [|? ? Ht H6]; subst.
  inversion H6 as [|? ? Ho H7]; subst. inversion H7 as [|? ? Hk _]; subst.
  repeat split; repeat constructor.
  - apply (absent_intro _ new_sig _ wf_sig).
    exact (quiet_ext _ _ _ sig_rule Hsig).
  - apply (absent_intro pat_init rep_init _ wf_init).
    exact (quiet_ext _ _ _ init_rule Hinit).
  - apply (absent_intro pat_impl rep_impl _ wf_impl).
    exact (quiet_ext _ _ _ impl_rule Himpl).
  - apply (absent_intro pat_lexer rep_lexer _ wf_lexer).
    exact (quiet_ext _ _ _ lexer_rule Hl).
  - apply (absent_intro pat_parser rep_parser _ wf_parser).
    exact (quiet_ext _ _ _ parser_rule Hp).
  - apply (absent_intro pat_two rep_two _ wf_two).
    exact (quiet_ext _ _ _ two_rule Ht).
  - apply (absent_intro pat_one rep_one _ wf_one).
    exact (quiet_ext _ _ _ one_rule Ho).
  - apply (absent_intro pat_lookup rep_lookup _ wf_lookup).
    exact (quiet_ext _ _ _ lookup_rule Hk).
Qed.

(** Inserting the field lines after the anchor lines of a settled text
    leaves it settled. *)
Lemma anchor_keeps_settled (y : text) :
  settled y -> settled (gsub pat_anchor rep_anchor y).
Proof.
  intros H.
  inversion H as [|? ? Hsig H1]; subst. inversion H1 as [|? ? Hinit H2]; subst.
  inversion H2 as [|? ? Himpl H3]; subst. inversion H3 as [|? ? Hl H4]; subst.
  inversion H4 as [|? ? Hp H5]; subst. inversion H5 as [|? ? Ht H6]; subst.
  inversion H6 as [|? ? Ho H7]; subst. inversion H7 as [|? ? Hk _]; subst.
  repeat constructor.
  - now apply (lit_through_lit _ _ _ _ _ _ anchor_scans).
  - now apply (lit_through_lit _ _ _ _ _ _ anchor_scans).
  - now apply (lit_through_lit _ _ _ _ _ _ anchor_scans).
  - apply call_through_anchor; [cbn; auto|exact Hl].
  - apply call_through_anchor; [cbn; auto|exact Hp].
  - now apply two_through_anchor.
  - now apply one_through_anchor.
  - now apply lookup_through_anchor.
Qed.

(** X16.  In the output of a run no pattern of the four later stages is
    left, and each of these stages returns the output unchanged. *)
Theorem run_output_is_fixed_by_later_stages (x : text) :
  exists y,
    pipeline_as_run x = Some y /\
    (clean UpdateConstructor y /\ clean FixImplBlock y /\
     clean FixLexerParserCalls y /\ clean FixStringidConversions y) /\
    update_constructor y = Some y /\
    fix_impl_block y = Some y /\
    fix_lexer_parser_calls y = Some y /\
    fix_stringid_conversions y = Some y.
Proof.
  eexists. split; [apply pipeline_as_run_eq|].
  destruct (run_output_settled x) as [_ H]. cbv zeta in H.
  split; [now apply settled_clean|].
  destruct (settled_clean _ H) as (H2 & H3 & H4 & H5).
  inversion H2 as [|? ? Ha H2']; subst. inversion H2' as [|? ? Hb _]; subst.
  inversion H3 as [|? ? Hc _]; subst.
  inversion H4 as [|? ? Hd H4']; subst. inversion H4' as [|? ? He _]; subst.
  inversion H5 as [|? ? Hf H5']; subst. inversion H5' as [|? ? Hg H5'']; subst.
  inversion H5'' as [|? ? Hh _]; subst.
  repeat split.
  - rewrite update_constructor_eq. f_equal.
    rewrite (gsub_absent _ _ _ wf_sig Ha).
    exact (gsub_absent _ _ _ wf_init Hb).
  - rewrite fix_impl_block_eq. f_equal.
    exact (gsub_absent _ _ _ wf_impl Hc).
  - rewrite fix_lexer_parser_calls_eq. f_equal.
    rewrite (gsub_absent _ _ _ wf_lexer Hd).
    exact (gsub_absent _ _ _ wf_parser He).
  - rewrite fix_stringid_conversions_eq. f_equal.
    rewrite (gsub_absent _ _ _ wf_two Hf).
    rewrite (gsub_absent _ _ _ wf_one Hg).
    exact (gsub_absent _ _ _ wf_lookup Hh).
Qed.

(** X17.  Running the script again on its own output only repeats the
    struct stage: the file then holds the first output with the two field
    lines inserted once more after every anchor line, and nothing else is
    changed. *)
Theorem second_run_only_repeats_struct_stage (w : world) (x : text) :
  files w input_file = Some x ->
  exists y,
    pipeline_as_run x = Some y /\
    files (snd (main w)) input_file = Some y /\
    add_interner_to_struct y = Some (gsub pat_anchor rep_anchor y) /\
    pipeline_as_run y = add_interner_to_struct y /\
    files (snd (main (snd (main w)))) input_file = add_interner_to_struct y.
Proof.
  intros Hf. eexists. split; [apply pipeline_as_run_eq|].
  destruct (run_output_settled x) as [Hs H]. cbv zeta in Hs, H.
  set (y := gsub pat_lookup rep_lookup _) in *.
  assert (E1 : add_interner_to_struct y
               = Some (gsub pat_anchor rep_anchor y)).
  { rewrite add_interner_to_struct_eq.
    now rewrite (quiet_id _ _ _ struct_scans Hs). }
  assert (E2 : pipeline_as_run y = Some (gsub pat_anchor rep_anchor y)).
  { rewrite pipeline_as_run_eq.
    rewrite (quiet_id _ _ _ struct_scans Hs).
    now rewrite (settled_fixed _ (anchor_keeps_settled _ H)). }
  assert (Ep : pipeline_as_run x = Some y) by apply pipeline_as_run_eq.
  assert (Ew : files (snd (main w)) input_file = Some y).
  { rewrite (main_run w x y Hf Ep). cbn [snd files].
    now rewrite String.eqb_refl. }
  repeat split.
  - exact Ew.
  - exact E1.
  - now rewrite E1.
  - rewrite (main_run _ y _ Ew E2). cbn [snd files].
    rewrite String.eqb_refl. now rewrite E1.
Qed.

Lemma second_run_only_repeats_struct_stage_witness :
  exists y,
    pipeline_as_run (T "impl TypeChecker {") = Some y /\
    files (snd (main (world_with (T "impl TypeChecker {")))) input_file
      = Some y /\
    add_interner_to_struct y = Some (gsub pat_anchor rep_anchor y) /\
    pipeline_as_run y = add_interner_to_struct y /\
    files (snd (main (snd (main (world_with (T "impl TypeChecker {"))))))
      input_file = add_interner_to_struct y.
Proof.
  apply (second_run_only_repeats_struct_stage
           (world_with (T "impl TypeChecker {")) (T "impl TypeChecker {")).
  reflexivity.
Defined.

(* ================================================================== *)
(** ** Call sites that are rewritten, and call sites that are not *)

Lemma open_call_intro (head u s : text) :
  head <> [] -> forallb not_comma s = true ->
  open_call head (u ++ head ++ s) = true.
Proof.
  intros Hh Hs. induction u as [|c u IH].
  - cbn [app]. destruct head as [|e h]; [contradiction|].
    change ((e :: h) ++ s) with (e :: h ++ s).
    cbn [open_call].
    change (e :: h ++ s) with ((e :: h) ++ s).
    rewrite strip_app, Hs. reflexivity.
  - cbn [app open_call]. rewrite IH. apply orb_true_r.
Qed.

Lemma open_call_elim (head x : text) :
  open_call head x = true ->
  exists u s, x = u ++ head ++ s /\ forallb not_comma s = true.
Proof.
  induction x as [|c x IH]; [discriminate|].
  cbn [open_call]. intros H. apply orb_true_iff in H. destruct H as [H|H].
  - destruct (strip head (c :: x)) as [s|] eqn:E; [|discriminate].
    apply strip_Some in E. exists [], s. auto.
  - destruct (IH H) as (u & s & -> & Hs). exists (c :: u), s. auto.
Qed.

Section CallKeepsClosed.

Variables (head t1 t2 : text) (f : text -> text) (head' : text).
Hypothesis Hscan : scans (call_matcher head (t1 ++ "," :: t2)) f.
Hypothesis Hne : head' <> [].
Hypothesis Hfree : forallb not_comma head' = true.
Hypothesis Hout : untouched head' t2 = true.

(** A scan that leaves no comma has found no call. *)
Lemma comma_free_scan_id (x : text) :
  forallb not_comma (f x) = true -> f x = x.
Proof.
  induction x as [|c x IH]; intros H; [apply (scan_nil _ _ Hscan)|].
  destruct (call_matcher head (t1 ++ "," :: t2) (c :: x)) as [[r rest]|] eqn:E.
  - exfalso. rewrite (scan_hit _ _ Hscan _ _ _ E) in H.
    destruct (call_shape _ _ _ _ _ E) as (a & ws & _ & _ & _ & _ & ->).
    rewrite !forallb_app in H. cbn [forallb] in H.
    change (not_comma ",") with false in H.
    now rewrite !andb_false_r in H.
  - rewrite (scan_miss _ _ Hscan _ _ E) in H |- *. cbn in H.
    apply andb_true_iff in H. destruct H as [_ H]. now rewrite IH.
Qed.

(** The scan opens no call [head' ...]: a call that is still within its
    first argument at the end of the scanned text was so before. *)
Lemma scan_keeps_closed (x : text) :
  open_call head' x = false -> open_call head' (f x) = false.
Proof.
  intros Hx. destruct (open_call head' (f x)) eqn:Hf; [|reflexivity].
  exfalso. apply open_call_elim in Hf. destruct Hf as (u & s & Hf & Hs).
  assert (Ho : open_call head' x = true); [|congruence]. clear Hx.
  remember (length x) as n eqn:Hn. revert x u Hn Hf.
  induction n as [n IH] using lt_wf_ind. intros x u Hn Hf.
  destruct x as [|c x].
  - rewrite (scan_nil _ _ Hscan) in Hf. symmetry in Hf.
    apply app_eq_nil in Hf. destruct Hf as [_ Hf].
    apply app_eq_nil in Hf. now destruct Hf.
  - destruct (call_matcher head (t1 ++ "," :: t2) (c :: x))
      as [[r rest]|] eqn:E.
    + rewrite (scan_hit _ _ Hscan _ _ _ E) in Hf.
      destruct (scan_productive _ _ Hscan _ _ _ E) as (c0 & u0 & Ex).
      assert (Hrest : forall l, f rest = l ++ head' ++ s ->
                open_call head' (c :: x) = true).
      { intros l El.
        assert (Hr : open_call head' rest = true).
        { apply (IH (length rest)) with (u := l); [|reflexivity|exact El].
          subst n. rewrite Ex. cbn [length]. rewrite length_app. lia. }
        apply open_call_elim in Hr. destruct Hr as (u1 & s1 & -> & Hs1).
        rewrite Ex.
        change (c0 :: u0 ++ u1 ++ head' ++ s1)
          with ((c0 :: u0) ++ u1 ++ head' ++ s1).
        rewrite app_assoc. now apply open_call_intro. }
      apply app_eq_app in Hf. destruct Hf as (l & [[Hr Hl]|[_ Hl]]).
      * destruct l as [|d l]; [now apply (Hrest [])|]. exfalso.
        assert (Hfl : forallb not_comma (d :: l) = true).
        { assert (Hall : forallb not_comma (head' ++ s) = true)
            by (rewrite forallb_app, Hfree, Hs; reflexivity).
          rewrite Hl, forallb_app in Hall.
          now apply andb_true_iff in Hall. }
        destruct (call_shape _ _ _ _ _ E) as (a & ws & _ & _ & _ & _ & Er).
        rewrite Er in Hr.
        replace (head ++ a ++ t1 ++ "," :: t2)
          with ((head ++ a ++ t1) ++ "," :: t2) in Hr
          by now rewrite <- !app_assoc.
        apply app_eq_app in Hr. destruct Hr as (v & [[_ Hv]|[_ Hv]]).
        { rewrite Hv, forallb_app in Hfl. cbn [forallb] in Hfl.
          change (not_comma ",") with false in Hfl.
          now rewrite andb_false_r in Hfl. }
        destruct v as [|e v].
        { cbn [app] in Hv. inversion Hv; subst. discriminate Hfl. }
        cbn [app] in Hv. inversion Hv as [[He Ht2]].
        assert (Hin : inert (lit_matcher head' []) t2 (f rest))
          by now apply lit_inert.
        specialize (Hin v (d :: l) Ht2 ltac:(discriminate)).
        unfold lit_matcher in Hin. rewrite <- Hl, strip_app in Hin.
        discriminate.
      * now apply (Hrest l).
    + rewrite (scan_miss _ _ Hscan _ _ E) in Hf.
      destruct u as [|e u].
      * cbn [app] in Hf.
        assert (Hall : forallb not_comma (c :: f x) = true).
        { rewrite Hf, forallb_app, Hfree, Hs. reflexivity. }
        cbn in Hall. apply andb_true_iff in Hall. destruct Hall as [_ Hall].
        rewrite (comma_free_scan_id _ Hall) in Hf. rewrite Hf.
        now apply (open_call_intro head' []).
      * cbn [app] in Hf. inversion Hf as [[He Hx]].
        cbn [open_call].
        rewrite (IH (length x)) with (x := x) (u := u);
          [apply orb_true_r|subst n; cbn; lia|reflexivity|exact Hx].
Qed.

End CallKeepsClosed.

Lemma lexer_keeps_parser_closed (x : text) :
  open_call parser_head x = false ->
  open_call parser_head (gsub pat_lexer rep_lexer x) = false.
Proof.
  apply (scan_keeps_closed lexer_head (T ", handler.clone()")
           (T " &self.interner)") _ parser_head wf_scans_lexer);
    [discriminate|reflexivity|reflexivity].
Qed.

(** Where the text after a head is not of the call shape, the rest of the
    pattern fails there. *)
Lemma no_shape_no_call (head tail y : text) :
  ~ call_shape_at head (head ++ y) ->
  some_of not_comma (fun a =>
    lit [","] (many_of is_space
      (lit handler_clone_close (done (head ++ a ++ tail))))) y = None.
Proof.
  intros H.
  destruct (call_matcher head tail (head ++ y)) as [[r rest]|] eqn:E.
  - elim H. apply (call_fires head tail). now rewrite E.
  - unfold call_matcher, lit at 1 in E. now rewrite strip_app in E.
Qed.

(** A head whose call is not of the shape is kept by its rule, and what
    follows is rewritten on its own; so is a head of the other rule. *)
Lemma lexer_head_kept (x y : text) :
  open_call lexer_head x = false ->
  ~ call_shape_at lexer_head (lexer_head ++ y) ->
  gsub pat_lexer rep_lexer (x ++ lexer_head ++ y)
  = gsub pat_lexer rep_lexer x ++ lexer_head ++ gsub pat_lexer rep_lexer y.
Proof.
  intros Ho Hs. rewrite (scan_app _ _ wf_scans_lexer).
  - f_equal.
    apply (call_head_copy_same _ _ _ "L" (T "exer::new(") wf_scans_lexer);
      try reflexivity.
    now apply no_shape_no_call.
  - apply call_local; try (vm_compute; reflexivity). exact Ho.
Qed.

Lemma parser_head_kept (x y : text) :
  open_call parser_head x = false ->
  ~ call_shape_at parser_head (parser_head ++ y) ->
  gsub pat_parser rep_parser (x ++ parser_head ++ y)
  = gsub pat_parser rep_parser x ++ parser_head ++ gsub pat_parser rep_parser y.
Proof.
  intros Ho Hs. rewrite (scan_app _ _ wf_scans_parser).
  - f_equal.
    apply (call_head_copy_same _ _ _ "P" (T "arser::new(") wf_scans_parser);
      try reflexivity.
    now apply no_shape_no_call.
  - apply call_local; try (vm_compute; reflexivity). exact Ho.
Qed.

Lemma lexer_over_parser_head (x y : text) :
  open_call lexer_head x = false ->
  gsub pat_lexer rep_lexer (x ++ parser_head ++ y)
  = gsub pat_lexer rep_lexer x ++ parser_head ++ gsub pat_lexer rep_lexer y.
Proof.
  intros Ho. rewrite (scan_app _ _ wf_scans_lexer).
  - rewrite (scan_keep _ _ wf_scans_lexer parser_head y); [reflexivity|].
    apply lit_head_inert. reflexivity.
  - apply call_local; try (vm_compute; reflexivity). exact Ho.
Qed.

Lemma parser_over_lexer_head (x y : text) :
  open_call parser_head x = false ->
  gsub pat_parser rep_parser (x ++ lexer_head ++ y)
  = gsub pat_parser rep_parser x ++ lexer_head ++ gsub pat_parser rep_parser y.
Proof.
  intros Ho. rewrite (scan_app _ _ wf_scans_parser).
  - rewrite (scan_keep _ _ wf_scans_parser lexer_head y); [reflexivity|].
    apply lit_head_inert. reflexivity.
  - apply call_local; try (vm_compute; reflexivity). exact Ho.
Qed.

(** A call of the shape gets the new arguments from its rule, wherever it
    stands; the Parser rule passes over a rewritten Lexer call. *)
Lemma call_frame (head tail : text) (f : text -> text) (x a ws y : text) :
  scans (call_matcher head tail) f ->
  In head [lexer_head; parser_head] ->
  a <> [] -> forallb not_comma a = true -> forallb is_space ws = true ->
  f (x ++ head ++ a ++ "," :: ws ++ handler_clone_close ++ y)
  = f x ++ head ++ a ++ tail ++ f y.
Proof.
  intros Hs Hh Hne Ha Hws.
  replace (head ++ a ++ "," :: ws ++ handler_clone_close ++ y)
    with ((head ++ a ++ "," :: ws ++ handler_clone_close) ++ y)
    by (rewrite <- !app_assoc; cbn [app]; now rewrite <- !app_assoc).
  replace (head ++ a ++ tail ++ f y) with ((head ++ a ++ tail) ++ f y)
    by now rewrite <- !app_assoc.
  cbn [In] in Hh. destruct Hh as [<-|[<-|[]]];
    apply (call_replace _ _ _ Hs x a ws y);
    first [assumption | vm_compute; reflexivity].
Qed.

Lemma parser_over_lexer_call (x a y : text) :
  forallb not_comma a = true ->
  gsub pat_parser rep_parser (x ++ lexer_head ++ a ++ lexer_tail ++ y)
  = gsub pat_parser rep_parser x ++ lexer_head ++ a ++ lexer_tail
      ++ gsub pat_parser rep_parser y.
Proof.
  intros Ha.
  replace (lexer_head ++ a ++ lexer_tail ++ y)
    with ((lexer_head ++ a ++ lexer_tail) ++ y)
    by now rewrite <- !app_assoc.
  rewrite (scan_app _ _ wf_scans_parser).
  - rewrite (scan_keep _ _ wf_scans_parser).
    + now rewrite <- !app_assoc.
    + apply inert_app; [apply lit_head_inert; reflexivity|].
      apply inert_app; [|apply lit_head_inert; reflexivity].
      change (lexer_tail ++ y)
        with ("," :: T " handler.clone(), &self.interner)" ++ y).
      apply call_inert_arg; [reflexivity|exact Ha|].
      intros a0. vm_compute. reflexivity.
  - apply locp_local, loc0_locp, call_loc0;
      try (vm_compute; reflexivity).
    intros a0.
    replace ((lexer_head ++ a ++ lexer_tail) ++ y)
      with ((lexer_head ++ a)
              ++ "," :: T " handler.clone(), &self.interner)" ++ y)
      by (rewrite <- !app_assoc; reflexivity).
    rewrite (span_stop not_comma (lexer_head ++ a));
      [|rewrite forallb_app, Ha; reflexivity|reflexivity].
    vm_compute. reflexivity.
Qed.

(** C10, as the code has it.  Each call-site pattern matches at the head of
    a text exactly when the text is the head, a nonempty stretch without
    comma, a comma, white space and [handler.clone())].  At a [Lexer::new(]
    the stage puts in the new argument when the text after it has that
    shape: whether that first comma ends the call's first argument plays no
    role.  When it has not, and no earlier call is still within its first
    argument, the stage keeps the head and rewrites the texts before and
    after it on their own.  At a [Parser::new(] the same holds for the text
    that the Lexer substitution leaves after it. *)
Theorem call_site_is_rewritten_exactly_on_its_shape (pre y : text) :
  (forall s,
     fires "Lexer::new\(([^,]+),\s*handler\.clone\(\)\)" s = true
     <-> call_shape_at (T "Lexer::new(") s) /\
  (forall s,
     fires "Parser::new\(([^,]+),\s*handler\.clone\(\)\)" s = true
     <-> call_shape_at (T "Parser::new(") s) /\
  exists pre',
    fix_lexer_parser_calls pre = Some pre' /\
    (forall a ws rest,
       y = a ++ T "," ++ ws ++ T "handler.clone())" ++ rest ->
       a <> [] -> forallb not_comma a = true -> forallb is_space ws = true ->
       exists rest',
         fix_lexer_parser_calls rest = Some rest' /\
         fix_lexer_parser_calls (pre ++ T "Lexer::new(" ++ y)
         = Some (pre' ++ T "Lexer::new(" ++ a
                   ++ T ", handler.clone(), &self.interner)" ++ rest')) /\
    (open_call (T "Lexer::new(") pre = false ->
     open_call (T "Parser::new(") pre = false ->
     ~ call_shape_at (T "Lexer::new(") (T "Lexer::new(" ++ y) ->
     exists y',
       fix_lexer_parser_calls y = Some y' /\
       fix_lexer_parser_calls (pre ++ T "Lexer::new(" ++ y)
       = Some (pre' ++ T "Lexer::new(" ++ y')) /\
    (open_call (T "Lexer::new(") pre = false ->
     forall y1,
       re_sub "Lexer::new\(([^,]+),\s*handler\.clone\(\)\)"
              "Lexer::new(\1, handler.clone(), &self.interner)" y = Some y1 ->
       (forall a ws rest,
          y1 = a ++ T "," ++ ws ++ T "handler.clone())" ++ rest ->
          a <> [] -> forallb not_comma a = true ->
          forallb is_space ws = true ->
          exists rest',
            re_sub "Parser::new\(([^,]+),\s*handler\.clone\(\)\)"
              "Parser::new(\1, handler.clone(), &self.interner, &self.common)"
              rest = Some rest' /\
            fix_lexer_parser_calls (pre ++ T "Parser::new(" ++ y)
            = Some (pre' ++ T "Parser::new(" ++ a
                      ++ T ", handler.clone(), &self.interner, &self.common)"
                      ++ rest')) /\
       (open_call (T "Parser::new(") pre = false ->
        ~ call_shape_at (T "Parser::new(") (T "Parser::new(" ++ y1) ->
        exists y',
          fix_lexer_parser_calls y = Some y' /\
          fix_lexer_parser_calls (pre ++ T "Parser::new(" ++ y)
          = Some (pre' ++ T "Parser::new(" ++ y'))).
Proof.
  split; [|split].
  { intros s. change (fires _ s) with (fires pat_lexer s).
    rewrite (fires_matcher _ _ s wf_lexer), lexer_rule. apply call_fires. }
  { intros s. change (fires _ s) with (fires pat_parser s).
    rewrite (fires_matcher _ _ s wf_parser), parser_rule. apply call_fires. }
  eexists. split; [apply fix_lexer_parser_calls_eq|].
  change (T "Lexer::new(") with lexer_head.
  change (T "Parser::new(") with parser_head.
  change (T ", handler.clone(), &self.interner)") with lexer_tail.
  change (T ", handler.clone(), &self.interner, &self.common)")
    with parser_tail.
  split; [|split].
  - intros a ws rest -> Hne Ha Hws.
    eexists. split; [apply fix_lexer_parser_calls_eq|].
    rewrite fix_lexer_parser_calls_eq. f_equal.
    change (T "," ++ ws ++ T "handler.clone())" ++ rest)
      with ("," :: ws ++ handler_clone_close ++ rest).
    rewrite (call_frame _ _ _ pre a ws rest wf_scans_lexer);
      [|cbn; auto|exact Hne|exact Ha|exact Hws].
    now apply parser_over_lexer_call.
  - intros HoL HoP Hs.
    eexists. split; [apply fix_lexer_parser_calls_eq|].
    rewrite fix_lexer_parser_calls_eq. f_equal.
    rewrite (lexer_head_kept _ _ HoL Hs).
    apply parser_over_lexer_head. now apply lexer_keeps_parser_closed.
  - intros HoL y1 Hy1.
    change (re_sub _ _ y) with (re_sub pat_lexer rep_lexer y) in Hy1.
    rewrite (re_sub_gsub _ _ y wf_lexer) in Hy1. injection Hy1 as <-.
    assert (EL : gsub pat_lexer rep_lexer (pre ++ parser_head ++ y)
                 = gsub pat_lexer rep_lexer pre ++ parser_head
                     ++ gsub pat_lexer rep_lexer y)
      by now apply lexer_over_parser_head.
    split.
    + intros a ws rest Ey Hne Ha Hws.
      change (re_sub _ _ rest) with (re_sub pat_parser rep_parser rest).
      eexists. split; [apply (re_sub_gsub _ _ rest wf_parser)|].
      rewrite fix_lexer_parser_calls_eq. f_equal.
      rewrite EL, Ey.
      change (T "," ++ ws ++ T "handler.clone())" ++ rest)
        with ("," :: ws ++ handler_clone_close ++ rest).
      apply (call_frame _ _ _ _ a ws rest wf_scans_parser);
        [cbn; auto|exact Hne|exact Ha|exact Hws].
    + intros HoP Hs.
      eexists. split; [apply fix_lexer_parser_calls_eq|].
      rewrite fix_lexer_parser_calls_eq. f_equal.
      rewrite EL. apply parser_head_kept; [|exact Hs].
      now apply lexer_keeps_parser_closed.
Qed.

Lemma call_site_witness :
  fix_lexer_parser_calls (T "let l = Lexer::new(src, other.clone());")
  = Some (T "let l = Lexer::new(src, other.clone());") /\
  fix_lexer_parser_calls (T "Parser::new(Lexer::new(a, handler.clone()), x)")
  = Some (T "Parser::new(Lexer::new(a, handler.clone(), &self.interner), x)").
Proof.
  split.
  - destruct (call_site_is_rewritten_exactly_on_its_shape
                (T "let l = ") (T "src, other.clone());"))
      as (_ & _ & pre' & Hpre & _ & Hkeep & _).
    destruct (Hkeep eq_refl eq_refl) as (y' & Hy & E).
    { intros Hs. apply (call_fires _ lexer_tail) in Hs. discriminate Hs. }
    vm_compute in Hpre, Hy. inversion Hpre; inversion Hy; subst. exact E.
  - destruct (call_site_is_rewritten_exactly_on_its_shape
                [] (T "Lexer::new(a, handler.clone()), x)"))
      as (_ & _ & pre' & Hpre & _ & _ & Hpars).
    destruct (Hpars eq_refl
                (T "Lexer::new(a, handler.clone(), &self.interner), x)")
                eq_refl) as (_ & Hkeep).
    destruct (Hkeep eq_refl) as (y' & Hy & E).
    { intros Hs. apply (call_fires _ parser_tail) in Hs. discriminate Hs. }
    vm_compute in Hpre, Hy. inversion Hpre; inversion Hy; subst. exact E.
Defined.

(* ================================================================== *)
(** ** Bare identifiers passed as arguments *)

Lemma bare_word (c : ascii) : is_word c = true -> bare_char c = true.
Proof. intros H. unfold bare_char. now rewrite H. Qed.

Lemma strip_clear (q w post : text) :
  clear_of_close q = true -> forallb bare_char w = true ->
  strip q (w ++ ")" :: post) = None.
Proof.
  intros Hq Hw. rewrite (strip_run_step bare_char q w ")" post Hw eq_refl).
  unfold clear_of_close in Hq.
  destruct (span bare_char q) as [a [|e b]]; [discriminate|].
  destruct (text_eqb a w); [|reflexivity].
  apply negb_true_iff in Hq. now rewrite Hq.
Qed.

Lemma strip_misses_body (v w post : text) :
  misses_body v = true -> w <> [] -> forallb bare_char w = true ->
  strip v (w ++ ")" :: post) = None.
Proof.
  intros Hv Hne Hw.
  rewrite (strip_run_step bare_char v w ")" post Hw eq_refl).
  unfold misses_body in Hv.
  destruct (span bare_char v) as [[|x a] [|e b]]; try discriminate.
  - destruct w; [contradiction|reflexivity].
  - destruct (text_eqb (x :: a) w); [|reflexivity].
    apply negb_true_iff in Hv. now rewrite Hv.
Qed.

Lemma strip_misses_args (v occ post : text) :
  misses_args v = true -> bare_args occ -> strip v (occ ++ post) = None.
Proof.
  intros Hv (c & body & -> & Hc & Hb).
  destruct v as [|e v']; [discriminate|]. cbn [misses_args] in Hv.
  cbn [app strip]. destruct (Ascii.eqb e "("); [|reflexivity].
  change (c :: (body ++ [")"]) ++ post)
    with ((c :: body ++ [")"]) ++ post).
  replace ((c :: body ++ [")"]) ++ post) with ((c :: body) ++ ")" :: post)
    by (cbn [app]; now rewrite <- app_assoc).
  apply strip_misses_body; [exact Hv|discriminate|].
  cbn [forallb]. now rewrite (bare_word _ Hc), Hb.
Qed.

Lemma tails_miss_args (lo : nat) (l occ post : text) :
  forallb (fun i => misses_args (skipn i l)) (seq lo (length l - lo)) = true ->
  bare_args occ -> tails_miss lo l (occ ++ post) = true.
Proof.
  intros H Ho. apply tails_miss_intro. intros i Hi.
  apply strip_misses_args; [|exact Ho].
  apply (forallb_seq _ _ _ i H). lia.
Qed.

Lemma avoids_args_tails (lo : nat) (l occ post : text) :
  avoids_args l = true -> bare_args occ ->
  tails_miss lo l (occ ++ post) = true.
Proof.
  intros H Ho. apply andb_true_iff in H. destruct H as [_ H].
  apply tails_miss_intro. intros i Hi.
  apply strip_misses_args; [|exact Ho].
  apply (forallb_seq _ _ _ i H). lia.
Qed.

(** A nonempty tail of such a list is the list or ends it. *)
Lemma bare_args_tail (occ u t : text) :
  bare_args occ -> occ = u ++ t -> t <> [] ->
  t = occ \/ exists w, forallb bare_char w = true /\ t = w ++ [")"].
Proof.
  intros (c & body & -> & Hc & Hb) E Ht.
  destruct u as [|e u]; [left; now rewrite E|]. right.
  cbn [app] in E. inversion E as [[He E']].
  change (c :: body ++ [")"]) with ((c :: body) ++ [")"]) in E'.
  assert (Hw : forallb bare_char (c :: body) = true)
    by (cbn; now rewrite (bare_word _ Hc), Hb).
  apply app_eq_app in E'. destruct E' as (l & [[E1 E2]|[E1 E2]]).
  - exists l. split; [|exact E2].
    rewrite E1, forallb_app in Hw. now apply andb_true_iff in Hw.
  - destruct l as [|d l].
    + exists []. split; [reflexivity|]. cbn [app] in E2. now rewrite E2.
    + inversion E2 as [[Hd Hn]]. symmetry in Hn.
      apply app_eq_nil in Hn. destruct Hn as [_ Hn]. contradiction.
Qed.

(** A rule that begins with a literal starts nowhere in such a list. *)
Lemma lit_inert_args (l : text) (k : matcher) (occ post : text) :
  clear_of_close l = true -> misses_args l = true -> bare_args occ ->
  inert (lit l k) occ post.
Proof.
  intros H1 H2 Ho u t E Ht. unfold lit.
  destruct (bare_args_tail _ _ _ Ho E Ht) as [->|(w & Hw & ->)].
  - now rewrite (strip_misses_args _ _ _ H2 Ho).
  - rewrite <- app_assoc. cbn [app]. now rewrite (strip_clear _ _ _ H1 Hw).
Qed.

Lemma avoids_args_head (l : text) :
  avoids_args l = true -> clear_of_close l = true /\ misses_args l = true.
Proof.
  intros H. apply andb_true_iff in H. destruct H as [H1 H2]. split; [exact H1|].
  destruct l as [|e l]; [discriminate H1|].
  exact (forallb_seq _ _ _ 0 H2 ltac:(cbn; lia)).
Qed.

(** A literal rule rewrites the texts before and after such a list on
    their own. *)
Lemma lit_frame_args (p rp : text) (f : text -> text) (pre occ post : text) :
  scans (lit_matcher p rp) f -> avoids_args p = true -> bare_args occ ->
  f (pre ++ occ ++ post) = f pre ++ occ ++ f post.
Proof.
  intros Hs Hp Ho. destruct (avoids_args_head _ Hp) as [H1 H2].
  rewrite (scan_app _ _ Hs).
  - f_equal. apply (scan_keep _ _ Hs).
    exact (lit_inert_args p (done rp) occ post H1 H2 Ho).
  - apply locp_local.
    exact (lit_locp p (done rp) _ (done_loc0 _ _)
             (avoids_args_tails 1 _ _ _ Hp Ho)).
Qed.

(** *** The rules of Identifier Resolution around such a list *)

Lemma bare_not_dot (c : ascii) :
  bare_char c = true -> Ascii.eqb "." c = false.
Proof.
  intros H. destruct (Ascii.eqb_spec "." c); [|reflexivity].
  subst c. discriminate H.
Qed.

Lemma bare_args_dotless (occ : text) :
  bare_args occ -> forallb (fun c => negb (Ascii.eqb "." c)) occ = true.
Proof.
  intros (c & body & -> & Hc & Hb). apply forallb_forall. intros d Hd.
  apply negb_true_iff.
  destruct Hd as [<-|[<-|Hd]]; [reflexivity|now apply bare_not_dot, bare_word|].
  apply in_app_or in Hd. destruct Hd as [Hd|[<-|[]]]; [|reflexivity].
  rewrite forallb_forall in Hb. now apply bare_not_dot, Hb.
Qed.

Lemma bare_args_ends_clear (occ : text) :
  bare_args occ -> ends_clear occ = true.
Proof.
  intros (c & body & -> & _ & _). unfold ends_clear.
  change ("(" :: c :: body ++ [")"]) with (("(" :: c :: body) ++ [")"]).
  rewrite rev_app_distr. reflexivity.
Qed.

(** A rule that wants a dot after a word starts nowhere in a text
    without dot that ends outside a word. *)
Lemma dot_rule_inert (l : text) (k : text -> matcher) (mid post : text) :
  forallb (fun c => negb (Ascii.eqb "." c)) mid = true ->
  ends_clear mid = true ->
  inert (some_of is_word (fun a => lit ("." :: l) (k a))) mid post.
Proof.
  intros Hd He u t -> Ht.
  assert (He' : ends_clear t = true) by exact (ends_clear_tail u t Ht He).
  pose proof (ends_clear_stop t Ht He') as Hs.
  unfold some_of. destruct (span is_word t) as [a [|d r]] eqn:E;
    [now elim Hs|].
  rewrite (span_app_stop _ _ post _ _ _ E).
  destruct a as [|x a]; [reflexivity|].
  destruct (span_spec _ _ _ _ E) as (Et & _ & _).
  rewrite Et, !forallb_app in Hd. cbn [forallb] in Hd.
  apply andb_true_iff in Hd. destruct Hd as [_ Hd].
  apply andb_true_iff in Hd. destruct Hd as [_ Hd].
  apply andb_true_iff in Hd. destruct Hd as [Hd _].
  apply negb_true_iff in Hd. cbv beta iota. unfold lit. cbn [strip].
  now rewrite Hd.
Qed.

Lemma two_frame_args (pre occ post : text) :
  bare_args occ ->
  gsub pat_two rep_two (pre ++ occ ++ post)
  = gsub pat_two rep_two pre ++ occ ++ gsub pat_two rep_two post.
Proof.
  intros Ho. rewrite (scan_app _ _ wf_scans_two).
  - f_equal. apply (scan_keep _ _ wf_scans_two).
    apply (dot_rule_inert []);
      [now apply bare_args_dotless|now apply bare_args_ends_clear].
  - apply locp_local, loc0_locp.
    assert (Ho' := Ho). destruct Ho' as (c & body & E & _ & _).
    apply some_loc0; intros a.
    + apply lit_locp; [|reflexivity].
      apply some_loc0; intros b.
      * apply lit_locp; [apply done_loc0|].
        now apply avoids_args_tails.
      * reflexivity.
      * rewrite E. reflexivity.
    + reflexivity.
    + rewrite E. reflexivity.
Qed.

Lemma one_frame_args (pre occ post : text) :
  bare_args occ ->
  gsub pat_one rep_one (pre ++ occ ++ post)
  = gsub pat_one rep_one pre ++ occ ++ gsub pat_one rep_one post.
Proof.
  intros Ho. rewrite (scan_app _ _ wf_scans_one).
  - f_equal. apply (scan_keep _ _ wf_scans_one).
    apply (dot_rule_inert (T "node.clone()"));
      [now apply bare_args_dotless|now apply bare_args_ends_clear].
  - apply locp_local, loc0_locp.
    assert (Ho' := Ho). destruct Ho' as (c & body & E & _ & _).
    apply some_loc0; intros a.
    + apply lit_locp; [apply done_loc0|]. now apply avoids_args_tails.
    + reflexivity.
    + rewrite E. reflexivity.
Qed.

Lemma lookup_frame_args (pre occ post : text) :
  bare_args occ ->
  gsub pat_lookup rep_lookup (pre ++ occ ++ post)
  = gsub pat_lookup rep_lookup pre ++ occ ++ gsub pat_lookup rep_lookup post.
Proof.
  intros Ho. rewrite (scan_app _ _ wf_scans_lookup).
  - f_equal. apply (scan_keep _ _ wf_scans_lookup).
    unfold lookup_matcher. now apply lit_inert_args.
  - apply locp_local, loc0_locp.
    assert (Ho' := Ho). destruct Ho' as (c & body & E & _ & _).
    apply lit_loc0; [|now apply avoids_args_tails].
    apply some_loc0; intros a.
    + apply lit_locp; [|reflexivity].
      apply one_of_loc0. intros l Hl. split.
      * apply lit_loc0; [apply done_loc0|now apply avoids_args_tails].
      * destruct Hl as [<-|[<-|[<-|[]]]];
          (apply tails_miss_args; [reflexivity|exact Ho]).
    + reflexivity.
    + rewrite E. reflexivity.
Qed.

(** *** The call-site rules around such a list *)

Section ScanCarry.

Variables (m : matcher) (f : text -> text).
Hypothesis Hscan : scans m f.

(** Where every match that begins before [occ] either ends before it or
    copies the text up to the end of [occ], the scan rewrites what stands
    before [occ] on its own and leaves [occ] after it. *)
Lemma scan_app_carry (x occ post : text) :
  inert m occ post ->
  (forall u t, x = u ++ t -> t <> [] ->
     m (t ++ occ ++ post) = extend (occ ++ post) (m t) \/
     exists r' y,
       m (t ++ occ ++ post) = Some (t ++ occ ++ r', y) /\
       forall u' t', t = u' ++ t' -> m t' = None) ->
  exists post', f (x ++ occ ++ post) = f x ++ occ ++ post'.
Proof.
  intros Hin. remember (length x) as n eqn:Hn. revert x Hn.
  induction n as [n IH] using lt_wf_ind. intros x Hn H.
  destruct x as [|c p].
  - exists (f post). rewrite (scan_nil _ _ Hscan). cbn [app].
    now apply (scan_keep _ _ Hscan).
  - destruct (H [] (c :: p) eq_refl ltac:(discriminate))
      as [E|(r' & y & E & Hnone)].
    + destruct (m (c :: p)) as [[r rest]|] eqn:Em; cbn [extend] in E.
      * destruct (scan_productive _ _ Hscan _ _ _ Em) as (c0 & u0 & Ex).
        destruct (IH (length rest)) with (x := rest) as [post' Ep].
        { subst n. rewrite Ex. cbn [length]. rewrite length_app. lia. }
        { reflexivity. }
        { intros u t Hu Ht. apply (H ((c0 :: u0) ++ u) t); [|exact Ht].
          rewrite Ex, Hu, <- app_assoc. reflexivity. }
        exists post'.
        rewrite (scan_hit _ _ Hscan _ _ _ E), (scan_hit _ _ Hscan _ _ _ Em).
        now rewrite Ep, <- app_assoc.
      * destruct (IH (length p)) with (x := p) as [post' Ep].
        { subst n. cbn. lia. }
        { reflexivity. }
        { intros u t Hu Ht. apply (H (c :: u) t); [|exact Ht].
          now rewrite Hu. }
        exists post'. change ((c :: p) ++ occ ++ post)
          with (c :: p ++ occ ++ post) in E |- *.
        rewrite (scan_miss _ _ Hscan _ _ E), (scan_miss _ _ Hscan _ _ Em).
        now rewrite Ep.
    + exists (r' ++ f y).
      rewrite (scan_hit _ _ Hscan _ _ _ E), (scan_id _ _ Hscan _ Hnone).
      now rewrite <- !app_assoc.
Qed.

End ScanCarry.

Lemma space_run_in_body (b post : text) :
  forallb bare_char b = true ->
  exists b3,
    forallb bare_char b3 = true /\
    snd (span is_space (b ++ ")" :: post)) = b3 ++ ")" :: post.
Proof.
  induction b as [|c b IH]; intros Hb.
  - exists []. split; reflexivity.
  - cbn [forallb] in Hb. apply andb_true_iff in Hb. destruct Hb as [Hc Hb].
    cbn [app span]. destruct (is_space c).
    + destruct (IH Hb) as (b3 & H3 & E). exists b3. split; [exact H3|].
      destruct (span is_space (b ++ ")" :: post)). exact E.
    + exists (c :: b). split; [cbn; now rewrite Hc, Hb|reflexivity].
Qed.

Section CallArgs.

Variables (head tail : text) (f : text -> text).
Hypothesis Hscan : scans (call_matcher head tail) f.
Hypothesis Hfree : forallb not_comma head = true.
Hypothesis Hclear : clear_of_close head = true.
Hypothesis Hmiss : misses_args head = true.

(** No call begins in a stretch without comma and finds its comma inside
    a list of bare identifiers. *)
Lemma call_no_carry (t occ post : text) :
  forallb not_comma t = true -> bare_args occ ->
  forallb not_comma occ = false ->
  call_matcher head tail (t ++ occ ++ post) = None.
Proof.
  intros Ht (c & body & -> & Hc & Hb) Hocc.
  destruct (call_matcher head tail (t ++ ("(" :: c :: body ++ [")"]) ++ post))
    as [[r y]|] eqn:E; [exfalso|reflexivity].
  destruct (call_shape _ _ _ _ _ E) as (a & ws & Heq & _ & Ha & Hws & _).
  assert (Hbody : forallb not_comma body = false).
  { cbn [forallb] in Hocc. rewrite forallb_app in Hocc.
    rewrite (word_not_comma _ Hc) in Hocc. cbn in Hocc.
    now rewrite andb_true_r in Hocc. }
  destruct (span not_comma body) as [b1 r1] eqn:Es.
  pose proof (span_not_all _ _ Hbody) as Hr1. rewrite Es in Hr1.
  destruct (span_spec _ _ _ _ Es) as (Eb & Hb1 & Hd).
  destruct r1 as [|d b2]; [now elim Hr1|].
  assert (d = ",") as ->.
  { unfold not_comma in Hd. apply negb_false_iff in Hd.
    symmetry. now apply Ascii.eqb_eq. }
  assert (Hb2 : forallb bare_char b2 = true).
  { rewrite Eb, forallb_app in Hb. cbn [forallb] in Hb.
    apply andb_true_iff in Hb. destruct Hb as [_ Hb].
    now apply andb_true_iff in Hb. }
  assert (Ew : t ++ ("(" :: c :: body ++ [")"]) ++ post
               = (t ++ "(" :: c :: b1) ++ "," :: b2 ++ ")" :: post).
  { rewrite Eb. norm_app. cbn [app]. reflexivity. }
  assert (E1 : span not_comma (t ++ ("(" :: c :: body ++ [")"]) ++ post)
               = (t ++ "(" :: c :: b1, "," :: b2 ++ ")" :: post)).
  { rewrite Ew. apply span_stop; [|reflexivity].
    rewrite forallb_app, Ht. cbn [forallb].
    now rewrite (word_not_comma _ Hc), Hb1. }
  assert (E2 : span not_comma (t ++ ("(" :: c :: body ++ [")"]) ++ post)
               = (head ++ a, "," :: ws ++ handler_clone_close ++ y)).
  { rewrite Heq, app_assoc. apply span_stop; [|reflexivity].
    now rewrite forallb_app, Hfree, Ha. }
  rewrite E1 in E2. injection E2 as _ E3.
  destruct (space_run_in_body b2 post Hb2) as (b3 & Hb3 & E4).
  rewrite E3 in E4.
  change (ws ++ handler_clone_close ++ y)
    with (ws ++ "h" :: T "andler.clone())" ++ y) in E4.
  rewrite (span_stop is_space ws _ "h" Hws eq_refl) in E4. cbn [snd] in E4.
  assert (E5 : strip handler_clone_close (b3 ++ ")" :: post) = Some y).
  { rewrite <- E4. exact (strip_app handler_clone_close y). }
  rewrite strip_clear in E5; [discriminate|reflexivity|exact Hb3].
Qed.

(** A call that begins in a stretch without comma and goes on past a list
    of bare identifiers has that list in its first argument, and copies
    it. *)
Lemma call_carry (t occ post r y : text) :
  forallb not_comma t = true -> bare_args occ ->
  call_matcher head tail (t ++ occ ++ post) = Some (r, y) ->
  exists r', r = t ++ occ ++ r'.
Proof.
  intros Ht Ho E. destruct (forallb not_comma occ) eqn:Hocc.
  - destruct (call_shape _ _ _ _ _ E) as (a & ws & Heq & _ & Ha & Hws & ->).
    destruct (run_prefix not_comma (t ++ occ) post (head ++ a)
                ("," :: ws ++ handler_clone_close ++ y)) as (w2 & Ew & _).
    + rewrite forallb_app, Ht, Hocc. reflexivity.
    + rewrite <- !app_assoc. exact Heq.
    + reflexivity.
    + exists (w2 ++ tail).
      rewrite (app_assoc head a), Ew, <- !app_assoc. reflexivity.
  - rewrite (call_no_carry _ _ _ Ht Ho Hocc) in E. discriminate.
Qed.

(** A call whose comma stands before such a list ends before the list or
    not at all. *)
Lemma call_local_comma (t occ post : text) :
  bare_args occ -> forallb not_comma t = false ->
  call_matcher head tail (t ++ occ ++ post)
  = extend (occ ++ post) (call_matcher head tail t).
Proof.
  intros Ho Ht. unfold call_matcher. apply lit_cases.
  - intros s1 E1. apply some_stop.
    + intros a. apply lit_locp; [|reflexivity].
      apply call_rest_loc0.
      { apply avoids_args_tails; [reflexivity|exact Ho]. }
      destruct Ho as (c & body & -> & _ & _). reflexivity.
    + apply span_not_all. apply strip_Some in E1.
      rewrite E1, forallb_app, Hfree in Ht. exact Ht.
  - intros E1.
    destruct (strip head (t ++ occ ++ post)) as [s2|] eqn:E2;
      [|reflexivity].
    destruct (strip_app_None _ _ _ _ E1 E2) as (v & _ & Ev & _).
    rewrite Ev, forallb_app, Ht in Hfree. discriminate.
Qed.

Lemma call_local_or_carry (t occ post : text) :
  bare_args occ -> t <> [] ->
  call_matcher head tail (t ++ occ ++ post)
  = extend (occ ++ post) (call_matcher head tail t) \/
  exists r' y,
    call_matcher head tail (t ++ occ ++ post) = Some (t ++ occ ++ r', y) /\
    forall u' t', t = u' ++ t' -> call_matcher head tail t' = None.
Proof.
  intros Ho Hne. destruct (forallb not_comma t) eqn:Ht.
  - destruct (call_matcher head tail (t ++ occ ++ post)) as [[r y]|] eqn:E.
    + right. destruct (call_carry _ _ _ _ _ Ht Ho E) as [r' ->].
      exists r', y. split; [reflexivity|].
      intros u' t' Et. apply call_needs_comma.
      rewrite Et, forallb_app in Ht. now apply andb_true_iff in Ht.
    + left. now rewrite (call_needs_comma _ _ _ Ht).
  - left. now apply call_local_comma.
Qed.

(** The rule rewrites what stands before such a list on its own and
    leaves the list after it. *)
Lemma call_frame_args (pre occ post : text) :
  bare_args occ ->
  exists post', f (pre ++ occ ++ post) = f pre ++ occ ++ post'.
Proof.
  intros Ho. apply (scan_app_carry _ _ Hscan).
  - unfold call_matcher. now apply lit_inert_args.
  - intros u t _ Ht. now apply call_local_or_carry.
Qed.

(** Around a list of two or more bare identifiers it rewrites the text
    after the list on its own as well. *)
Lemma call_frame_list (pre occ post : text) :
  bare_args occ -> forallb not_comma occ = false ->
  f (pre ++ occ ++ post) = f pre ++ occ ++ f post.
Proof.
  intros Ho Hocc. rewrite (scan_app _ _ Hscan).
  - f_equal. apply (scan_keep _ _ Hscan).
    unfold call_matcher. now apply lit_inert_args.
  - intros u t _ Ht. destruct (forallb not_comma t) eqn:Hc.
    + rewrite (call_no_carry _ _ _ Hc Ho Hocc).
      now rewrite (call_needs_comma _ _ _ Hc).
    + now apply call_local_comma.
Qed.

End CallArgs.

Lemma lexer_frame_args (pre occ post : text) :
  bare_args occ ->
  exists post',
    gsub pat_lexer rep_lexer (pre ++ occ ++ post)
    = gsub pat_lexer rep_lexer pre ++ occ ++ post'.
Proof.
  apply (call_frame_args _ _ _ wf_scans_lexer); reflexivity.
Qed.

Lemma parser_frame_args (pre occ post : text) :
  bare_args occ ->
  exists post',
    gsub pat_parser rep_parser (pre ++ occ ++ post)
    = gsub pat_parser rep_parser pre ++ occ ++ post'.
Proof.
  apply (call_frame_args _ _ _ wf_scans_parser); reflexivity.
Qed.

Lemma lexer_frame_list (pre occ post : text) :
  bare_args occ -> forallb not_comma occ = false ->
  gsub pat_lexer rep_lexer (pre ++ occ ++ post)
  = gsub pat_lexer rep_lexer pre ++ occ ++ gsub pat_lexer rep_lexer post.
Proof.
  apply (call_frame_list _ _ _ wf_scans_lexer); reflexivity.
Qed.

Lemma parser_frame_list (pre occ post : text) :
  bare_args occ -> forallb not_comma occ = false ->
  gsub pat_parser rep_parser (pre ++ occ ++ post)
  = gsub pat_parser rep_parser pre ++ occ ++ gsub pat_parser rep_parser post.
Proof.
  apply (call_frame_list _ _ _ wf_scans_parser); reflexivity.
Qed.



